(** * codegangsta/cli: argument resolution and command dispatch

    A shallow embedding of [flag_bool.go] (the boolean flag and its
    lookup), of [Command.Run] / [Command.startApp] (token reordering and
    leaf/internal dispatch) and of the map-backed input source
    ([mapInputSource], [nestedVal]), with the properties the
    specification states about them.

    Go strings are byte strings: they are modelled by [string] (a list of
    8-bit characters).  Go's [int] is a 64-bit signed integer: it is
    modelled by [Z] with the wrap-around written out where the code does
    arithmetic on it.  Pointers to [bool] and [int] cells are locations
    in an explicit heap, so that cells shared between a flag, its
    [Destination] and the values registered in a flag set stay shared. *)

From Stdlib Require Import ZArith Lia Ascii DecimalString.
From stdpp Require Import gmap strings list fin_maps.

Set Warnings "-register-all".
Local Open Scope string_scope.
Local Open Scope list_scope.
Local Open Scope nat_scope.

(** ** Pieces of the Go standard library used by the sources *)

Module Go.

(** [strings.HasPrefix(s, prefix)]. *)
Fixpoint HasPrefix (s prefix : string) {struct prefix} : bool :=
  match prefix with
  | EmptyString => true
  | String a prefix' =>
      match s with
      | EmptyString => false
      | String b s' => Ascii.eqb a b && HasPrefix s' prefix'
      end
  end.

(** The slice expression [s[k:]] on a string.  Go panics when
    [k > len(s)]; every use in the sources is guarded by a prefix test
    that makes [k <= len(s)], so the out-of-range arm is never taken. *)
Fixpoint sliceFrom (k : nat) (s : string) : string :=
  match k, s with
  | O, _ => s
  | S k', String _ s' => sliceFrom k' s'
  | S _, EmptyString => EmptyString
  end.

(** [len(s)] on a string. *)
Definition len (s : string) : nat := String.length s.

(** [append(s, x)] on a slice. *)
Definition append {A} (s : list A) (x : A) : list A := s ++ [x].

(** [copy(s[d:], s[f:])] inside one backing array: the number of
    elements copied is the shorter of the two lengths, and the copy
    behaves as if the source were read before anything is written. *)
Definition copyWithin {A} (s : list A) (d f : nat) : list A :=
  let n := Nat.min (length s - d) (length s - f) in
  take d s ++ take n (drop f s) ++ drop (d + n) s.

(** [strconv.ParseBool]: [None] stands for the syntax error. *)
Definition ParseBool (s : string) : option bool :=
  if decide (s = "1" ∨ s = "t" ∨ s = "T" ∨ s = "TRUE" ∨ s = "true" ∨ s = "True")
  then Some true
  else if decide (s = "0" ∨ s = "f" ∨ s = "F" ∨ s = "FALSE" ∨ s = "false" ∨ s = "False")
  then Some false
  else None.

(** [strconv.FormatBool]. *)
Definition FormatBool (b : bool) : string := if b then "true" else "false".

(** The new-line character of ["\n"]. *)
Definition newline : string := String (Ascii.ascii_of_nat 10) EmptyString.

(** Go's [int] on a 64-bit platform: two's complement wrap-around. *)
Definition wrapInt (z : Z) : Z := ((z + 2 ^ 63) mod 2 ^ 64 - 2 ^ 63)%Z.

End Go.

(** ** The heap of [bool] and [int] cells *)

Definition loc := nat.

Record Heap := mkHeap {
  bools : list bool;
  ints : list Z
}.

Definition emptyHeap : Heap := mkHeap [] [].

(** [new(bool)]: a fresh cell holding the zero value. *)
Definition newBool (h : Heap) : loc * Heap :=
  (length (bools h), mkHeap (bools h ++ [false]) (ints h)).

(** [*p = v] on a [*bool]. *)
Definition storeBool (p : loc) (v : bool) (h : Heap) : Heap :=
  mkHeap (<[p := v]> (bools h)) (ints h).

(** [*p] on a [*bool]; a pointer outside the heap does not exist in Go,
    the default only makes the function total. *)
Definition loadBool (p : loc) (h : Heap) : bool := default false (bools h !! p).

Definition storeInt (p : loc) (v : Z) (h : Heap) : Heap :=
  mkHeap (bools h) (<[p := v]> (ints h)).

Definition loadInt (p : loc) (h : Heap) : Z := default 0%Z (ints h !! p).

(** ** Errors and outcomes *)

(** The error values the sources and the [flag] package build, kept as
    data; [None] of [option error] is Go's [nil] error. *)
Inductive error :=
| ParseError
    (* errors.New("parse error"), from boolValue.Set *)
| CouldNotParseBool (val name : string)
    (* "could not parse %q as bool value for flag %s: %s", from Apply *)
| MismatchedType (name expected actual : string)
    (* "Mismatched type for flag '%s'. Expected '%s' but actual is '%s'" *)
| BadFlagSyntax (s : string)
| ErrHelp
| NotDefined (name : string)
| InvalidBooleanValue (value name : string)
| InvalidBooleanFlag (name : string)
| NeedsArgument (name : string)
| InvalidValue (value name : string).

(** How a call ends: normally, with an error value, or in a run-time
    panic. *)
Inductive outcome (A : Type) :=
| Done (a : A)
| Failed (e : error)
| Panicked (msg : string).
Arguments Done {A} a.
Arguments Failed {A} e.
Arguments Panicked {A} msg.

(** ** Go's [flag] package, as far as the sources use it: the data *)

Module flag.

(** [boolValue] of [flag_bool.go]: two pointers. *)
Record boolValue := mkBoolValue {
  destination : option loc;
  count : option loc
}.

(** A type that implements [flag.Value], other than [*boolValue], as
    the [flag] package and the loop of [Command.Run] see it: the state
    a value of the type keeps, its [Set] method (which may accept the
    text and change the state, return an error, or panic), its
    [String] method, and its [IsBoolFlag] method: [None] when the type
    has none, [Some b] when it has one that returns [b].  Such a value
    keeps its state to itself: it writes to no cell of the heap
    modelled here. *)
Record valueType := mkValueType {
  state : Type;
  setMethod : string → state → outcome state;
  stringMethod : state → string;
  isBoolFlag : option bool
}.

(** A [flag.Value]: the repository's [*boolValue], or a value of another
    type in some state. *)
Inductive Value :=
| VBool (bv : boolValue)
| VOther (T : valueType) (st : state T).

(** The [flag] package's own [*stringValue]: [Set] stores the text it is
    given, whatever it is, and [String] returns it. *)
Definition stringValue : valueType :=
  mkValueType string (λ val _, Done val) (λ text, text) None.

Record Flag := mkFlag {
  Name : string;
  Usage : string;
  FValue : Value;
  DefValue : string
}.

(** A [flag.FlagSet]: the registered flags by name, and the arguments
    left after parsing.  (The set of flags seen on the command line,
    which no modelled function reads, is left out.) *)
Record FlagSet := mkFlagSet {
  formal : gmap string Flag;
  args : list string
}.

Definition NewFlagSet : FlagSet := mkFlagSet ∅ [].

(** [set.Lookup(name)]: [None] is the nil [*Flag]. *)
Definition Lookup (set : FlagSet) (name : string) : option Flag :=
  formal set !! name.

(** [set.Args()]. *)
Definition Args (set : FlagSet) : list string := args set.

End flag.

(** ** [flag_bool.go]: [boolValue] and its methods *)

Module BoolValue.

Import flag.

(** [newBoolValue(val, p, count)]: stores [val] through [p]. *)
Definition newBoolValue (val : bool) (p : loc) (cnt : option loc) (h : Heap)
  : boolValue * Heap :=
  (mkBoolValue (Some p) cnt, storeBool p val h).

(** [Set(s)]. *)
Definition Set_ (b : boolValue) (s : string) (h : Heap) : outcome Heap :=
  match Go.ParseBool s with
  | None => Failed ParseError
  | Some v =>
      match destination b with
      | None => Panicked "nil pointer dereference"
      | Some d =>
          let h1 := storeBool d v h in
          match count b with
          | Some c => Done (storeInt c (Go.wrapInt (loadInt c h1 + 1)) h1)
          | None => Done h1
          end
      end
  end.

(** [Get()]. *)
Definition Get (b : boolValue) (h : Heap) : outcome bool :=
  match destination b with
  | Some d => Done (loadBool d h)
  | None => Panicked "nil pointer dereference"
  end.

(** [String()]. *)
Definition String_ (b : boolValue) (h : Heap) : string :=
  match destination b with
  | Some d => Go.FormatBool (loadBool d h)
  | None => Go.FormatBool false
  end.

(** [IsBoolFlag()]. *)
Definition IsBoolFlag (b : boolValue) : bool := true.

End BoolValue.

(** ** Go's [flag] package: method dispatch, [Var] and [Parse] *)

Module FlagPkg.

Import flag.

(** The type assertion [flag.Value.(boolFlag)] followed by
    [fv.IsBoolFlag()]: [None] when the assertion fails. *)
Definition IsBoolFlag (v : Value) : option bool :=
  match v with
  | VBool bv => Some (BoolValue.IsBoolFlag bv)
  | VOther T _ => isBoolFlag T
  end.

(** [v.String()]. *)
Definition String_ (v : Value) (h : Heap) : string :=
  match v with
  | VBool bv => BoolValue.String_ bv h
  | VOther T st => stringMethod T st
  end.

(** [v.Set(s)]: the value afterwards, and the heap. *)
Definition Set_ (v : Value) (s : string) (h : Heap) : outcome (Value * Heap) :=
  match v with
  | VBool bv =>
      match BoolValue.Set_ bv s h with
      | Done h' => Done (VBool bv, h')
      | Failed e => Failed e
      | Panicked m => Panicked m
      end
  | VOther T st =>
      match setMethod T s st with
      | Done st' => Done (VOther T st', h)
      | Failed e => Failed e
      | Panicked m => Panicked m
      end
  end.

(** [strings.Contains(name, "=")]. *)
Fixpoint containsEq (name : string) : bool :=
  match name with
  | EmptyString => false
  | String c rest => if Ascii.eqb c "=" then true else containsEq rest
  end.

(** [set.Var(value, name, usage)]: panics on a name that begins with
    [-], that contains [=], or that is already registered. *)
Definition Var (value : Value) (name usage : string) (set : FlagSet) (h : Heap)
  : outcome FlagSet :=
  if Go.HasPrefix name "-" then Panicked "flag begins with -"
  else if containsEq name then Panicked "flag contains ="
  else
    match formal set !! name with
    | Some _ => Panicked "flag redefined"
    | None =>
        Done (mkFlagSet
                (<[name := mkFlag name usage value (String_ value h)]> (formal set))
                (args set))
    end.

(** A name that [Var] accepts and that is not empty. *)
Definition goodName (n : string) : Prop :=
  n ≠ "" ∧ Go.HasPrefix n "-" = false ∧ containsEq n = false.

(** The scan of [parseOne] for the first [=] at index 1 or later:
    the name before it and the value after it. *)
Fixpoint splitAtEq (name : string) : string * option string :=
  match name with
  | EmptyString => (EmptyString, None)
  | String c rest =>
      if Ascii.eqb c "=" then (EmptyString, Some rest)
      else let '(n, v) := splitAtEq rest in (String c n, v)
  end.

Definition nameAndValue (name : string) : string * option string :=
  match name with
  | EmptyString => (EmptyString, None)
  | String c rest => let '(n, v) := splitAtEq rest in (String c n, v)
  end.

(** [set.Parse(arguments)] with [ContinueOnError]: the loop over
    [parseOne].  The usage message goes to the set's output, which
    [Command.Run] has set to [ioutil.Discard].  What a failed call
    had already stored is not read by any caller modelled here, so a
    failure carries the error only. *)
Fixpoint parseArgs (fm : gmap string Flag) (h : Heap) (arguments : list string)
  : outcome (FlagSet * Heap) :=
  match arguments with
  | [] => Done (mkFlagSet fm [], h)
  | s :: rest =>
      if Nat.ltb (Go.len s) 2 || negb (Go.HasPrefix s "-") then
        Done (mkFlagSet fm arguments, h)
      else if String.eqb s "--" then
        Done (mkFlagSet fm rest, h)
      else
        let name0 := if Go.HasPrefix s "--" then Go.sliceFrom 2 s else Go.sliceFrom 1 s in
        if (Nat.eqb (Go.len name0) 0 || Go.HasPrefix name0 "-" || Go.HasPrefix name0 "=")%bool
        then Failed (BadFlagSyntax s)
        else
          let '(name, value) := nameAndValue name0 in
          match fm !! name with
          | None =>
              if decide (name = "help" ∨ name = "h") then Failed ErrHelp
              else Failed (NotDefined name)
          | Some fl =>
              match IsBoolFlag (FValue fl) with
              | Some true =>
                  match value with
                  | Some v =>
                      match Set_ (FValue fl) v h with
                      | Done (val', h') =>
                          parseArgs (<[name := mkFlag (Name fl) (Usage fl) val' (DefValue fl)]> fm) h' rest
                      | Failed _ => Failed (InvalidBooleanValue v name)
                      | Panicked m => Panicked m
                      end
                  | None =>
                      match Set_ (FValue fl) "true" h with
                      | Done (val', h') =>
                          parseArgs (<[name := mkFlag (Name fl) (Usage fl) val' (DefValue fl)]> fm) h' rest
                      | Failed _ => Failed (InvalidBooleanFlag name)
                      | Panicked m => Panicked m
                      end
                  end
              | _ =>
                  match value with
                  | Some v =>
                      match Set_ (FValue fl) v h with
                      | Done (val', h') =>
                          parseArgs (<[name := mkFlag (Name fl) (Usage fl) val' (DefValue fl)]> fm) h' rest
                      | Failed _ => Failed (InvalidValue v name)
                      | Panicked m => Panicked m
                      end
                  | None =>
                      match rest with
                      | [] => Failed (NeedsArgument name)
                      | v :: rest' =>
                          match Set_ (FValue fl) v h with
                          | Done (val', h') =>
                              parseArgs (<[name := mkFlag (Name fl) (Usage fl) val' (DefValue fl)]> fm) h' rest'
                          | Failed _ => Failed (InvalidValue v name)
                          | Panicked m => Panicked m
                          end
                      end
                  end
              end
          end
  end.

Definition Parse (set : FlagSet) (h : Heap) (arguments : list string)
  : outcome (FlagSet * Heap) :=
  parseArgs (formal set) h arguments.

End FlagPkg.

(** ** [Command.Run]: the token reordering loop *)

Module Reorder.

Import flag.

(** The three variables of the loop. *)
Record State := mkState {
  flagArgs : list string;
  flagIdx : nat;
  boolF : bool
}.

Definition init : State := mkState [] 0 true.

(** The three statements
    [flagArgs = append(flagArgs, "")],
    [copy(flagArgs[flagIdx+1:], flagArgs[flagIdx:])],
    [flagArgs[flagIdx] = val]. *)
Definition insertAt (fa : list string) (idx : nat) (val : string) : list string :=
  let fa1 := Go.append fa "" in
  let fa2 := Go.copyWithin fa1 (idx + 1) idx in
  <[idx := val]> fa2.

(** [!ok || !fv.IsBoolFlag()]. *)
Definition notBool (f : Flag) : bool :=
  match FlagPkg.IsBoolFlag (FValue f) with
  | Some true => false
  | _ => true
  end.

(** One iteration of the loop body on the token [val]. *)
Definition step (set : FlagSet) (st : State) (val : string) : State :=
  if Go.HasPrefix val "-" then
    let fa := insertAt (flagArgs st) (flagIdx st) val in
    let idx := S (flagIdx st) in
    if Nat.ltb 1 (Go.len val) && Go.HasPrefix val "--" then
      match Lookup set (Go.sliceFrom 2 val) with
      | None => mkState fa idx true
      | Some f => if notBool f then mkState fa idx false else mkState fa idx true
      end
    else
      match Lookup set (Go.sliceFrom 1 val) with
      | None => mkState fa idx true
      | Some f => if notBool f then mkState fa idx false else mkState fa idx true
      end
  else
    if negb (boolF st) then
      mkState (insertAt (flagArgs st) (flagIdx st) val) (S (flagIdx st)) true
    else
      mkState (Go.append (flagArgs st) val) (flagIdx st) true.

(** The loop over a sequence of tokens, from a given state. *)
Definition loop (set : FlagSet) (st : State) (toks : list string) : State :=
  fold_left (step set) toks st.

(** The whole pass as [Command.Run] performs it: [idx] starts at 1, so
    the first element of [ctx.Args()] (the command's own name) is
    skipped, and the result is the final [flagArgs]. *)
Definition reorderTokens (set : FlagSet) (toks : list string) : list string :=
  flagArgs (loop set init toks).

Definition reorder (set : FlagSet) (ctxArgs : list string) : list string :=
  reorderTokens set (drop 1 ctxArgs).

(** *** Vocabulary for stating the properties: how the loop classifies a token *)

(** The token takes the first branch of the loop body. *)
Definition flagLike (val : string) : bool := Go.HasPrefix val "-".

(** The name the loop looks up for a flag-like token. *)
Definition flagName (val : string) : string :=
  if Nat.ltb 1 (Go.len val) && Go.HasPrefix val "--"
  then Go.sliceFrom 2 val else Go.sliceFrom 1 val.

(** The token is flag-like and names a registered flag that is not a
    boolean flag. *)
Definition valueTaking (set : FlagSet) (val : string) : bool :=
  flagLike val &&
  match Lookup set (flagName val) with
  | Some f => notBool f
  | None => false
  end.

(** The token is flag-like and names a registered boolean flag, or no
    registered flag at all. *)
Definition boolOrUnknown (set : FlagSet) (val : string) : bool :=
  flagLike val &&
  match Lookup set (flagName val) with
  | Some f => negb (notBool f)
  | None => true
  end.

(** The two regions of [flagArgs]: the first [flagIdx] elements (the flag
    region) and the rest (the positional region). *)
Definition flagRegion (st : State) : list string := take (flagIdx st) (flagArgs st).
Definition positionals (st : State) : list string := drop (flagIdx st) (flagArgs st).

(** [flagIdx] never runs past the end of [flagArgs]. *)
Definition wf (st : State) : Prop := flagIdx st ≤ length (flagArgs st).

(** The state whose flag region is [F] and whose positional region is [P]. *)
Definition ofRegions (F P : list string) (b : bool) : State :=
  mkState (F ++ P) (length F) b.

(** In the output, the token [f] is directly followed by the token [t]. *)
Definition pairedWith (out : list string) (f t : string) : Prop :=
  ∃ o1 o2, out = o1 ++ f :: t :: o2.

(** The two sides of a vector, each in the order of the vector.  The
    flag side: every flag-like token, and every token that directly
    follows a value-taking flag token.  The positional side: all other
    tokens.  [pending] tells whether a value-taking flag token stands
    directly before the vector. *)
Fixpoint flagSide (set : FlagSet) (pending : bool) (v : list string) : list string :=
  match v with
  | [] => []
  | t :: rest =>
      if flagLike t then t :: flagSide set (valueTaking set t) rest
      else if pending then t :: flagSide set false rest
      else flagSide set false rest
  end.

Fixpoint positionalSide (set : FlagSet) (pending : bool) (v : list string) : list string :=
  match v with
  | [] => []
  | t :: rest =>
      if flagLike t then positionalSide set (valueTaking set t) rest
      else if pending then positionalSide set false rest
      else t :: positionalSide set false rest
  end.

(** *** Vocabulary for further properties of the loop *)

(** A region in which a non-flag token only ever stands directly after
    a value-taking flag token; [pending] tells whether such a flag
    token stands directly before the region. *)
Fixpoint pairedRegion (set : FlagSet) (pending : bool) (F : list string) : bool :=
  match F with
  | [] => true
  | t :: F' =>
      if flagLike t then pairedRegion set (valueTaking set t) F'
      else pending && pairedRegion set false F'
  end.

(** The flag tokens of a vector together with the companion of each
    value-taking one, and the tokens that are neither: in order. *)
Fixpoint flagItems (set : FlagSet) (v : list string) : list string :=
  match v with
  | [] => []
  | t :: rest =>
      if valueTaking set t then
        match rest with
        | [] => [t]
        | u :: rest' => t :: u :: flagItems set rest'
        end
      else if flagLike t then t :: flagItems set rest
      else flagItems set rest
  end.

Fixpoint plainArgs (set : FlagSet) (v : list string) : list string :=
  match v with
  | [] => []
  | t :: rest =>
      if valueTaking set t then
        match rest with
        | [] => []
        | _ :: rest' => plainArgs set rest'
        end
      else if flagLike t then plainArgs set rest
      else t :: plainArgs set rest
  end.

(** A command line on which the flag parser can succeed: positional
    tokens, tokens [-n] of registered boolean flags, and tokens [-n]
    of registered value-taking flags each directly followed by a
    non-flag token, interleaved in any order. *)
Inductive Interleaved (set : FlagSet) : list string → Prop :=
| Interleaved_nil : Interleaved set []
| Interleaved_positional t v :
    flagLike t = false → Interleaved set v → Interleaved set (t :: v)
| Interleaved_bool n f v :
    FlagPkg.goodName n → Lookup set n = Some f → notBool f = false →
    Interleaved set v → Interleaved set (("-" +:+ n) :: v)
| Interleaved_value n f t v :
    FlagPkg.goodName n → Lookup set n = Some f → notBool f = true →
    flagLike t = false →
    Interleaved set v → Interleaved set (("-" +:+ n) :: t :: v).

(** The companions of the occurrences of the value-taking flag token
    [-n] in a vector, in order. *)
Fixpoint valuesOf (set : FlagSet) (n : string) (v : list string) : list string :=
  match v with
  | [] => []
  | t :: rest =>
      if valueTaking set t then
        match rest with
        | [] => []
        | u :: rest' =>
            if decide (t = "-" +:+ n) then u :: valuesOf set n rest'
            else valuesOf set n rest'
        end
      else valuesOf set n rest
  end.

(** [Set] called with each text of a list in turn, on a value of the
    type [T] in the state [st]. *)
Fixpoint setEach (T : valueType) (texts : list string) (st : state T)
  : outcome (state T) :=
  match texts with
  | [] => Done st
  | s :: rest =>
      match setMethod T s st with
      | Done st' => setEach T rest st'
      | Failed e => Failed e
      | Panicked m => Panicked m
      end
  end.

(** What [Set] does not change in a value: the two pointers of a
    [boolValue], the type of any other value. *)
Definition typeOf (val : Value) : boolValue + valueType :=
  match val with
  | VBool bv => inl bv
  | VOther T _ => inr T
  end.

(** The same, for the value registered under a name. *)
Definition typeAt (fm : gmap string Flag) (n : string) : option (boolValue + valueType) :=
  (λ f, typeOf (FValue f)) <$> fm !! n.

(** The value's [Set] accepts the text, in whatever state the value is:
    a [boolValue] with a destination accepts what parses as a boolean. *)
Definition takes (val : Value) (s : string) : Prop :=
  match val with
  | VBool bv => destination bv ≠ None ∧ is_Some (Go.ParseBool s)
  | VOther T _ => ∀ st, ∃ st', setMethod T s st = Done st'
  end.

(** The flag that the token [t] names, if any, takes the text. *)
Definition tokenTakes (set : FlagSet) (t s : string) : Prop :=
  ∀ f, Lookup set (flagName t) = Some f → takes (FValue f) s.

(** Every flag named in the vector takes what the parser hands it: its
    companion when it is value-taking, the text [true] otherwise. *)
Fixpoint accepted (set : FlagSet) (v : list string) : Prop :=
  match v with
  | [] => True
  | t :: rest =>
      if valueTaking set t then
        match rest with
        | [] => True
        | u :: rest' => tokenTakes set t u ∧ accepted set rest'
        end
      else if flagLike t then tokenTakes set t "true" ∧ accepted set rest
      else accepted set rest
  end.

(** A flag set that registers the string-valued flag [x] and the
    boolean flag [v] (on the cell 0). *)
Definition sampleSet : FlagSet :=
  mkFlagSet
    (<["x" := mkFlag "x" "" (VOther stringValue "") ""]>
       (<["v" := mkFlag "v" "" (VBool (mkBoolValue (Some 0) None)) "false"]> ∅))
    [].

End Reorder.

(** ** [flag_bool.go]: [BoolFlag] and [Apply] *)

Module FlagBool.

(** The process environment and the file system, as [Apply] reads them. *)
Record World := mkWorld {
  environ : gmap string string;
  files : gmap string string
}.

Record BoolFlag := mkBoolFlag {
  Name : string;
  Aliases : list string;
  Usage : string;
  EnvVars : list string;
  FilePath : string;
  Required : bool;
  Hidden : bool;
  Value : bool;
  DefaultText : string;
  Destination : option loc;
  HasBeenSet : bool;
  Count : option loc
}.

(** [IsSet()]. *)
Definition IsSet (f : BoolFlag) : bool := HasBeenSet f.

(** [IsRequired()], [TakesValue()], [GetUsage()], [GetValue()],
    [IsVisible()]. *)
Definition IsRequired (f : BoolFlag) : bool := Required f.
Definition TakesValue (f : BoolFlag) : bool := false.
Definition GetUsage (f : BoolFlag) : string := Usage f.
Definition GetValue (f : BoolFlag) : string := "".
Definition IsVisible (f : BoolFlag) : bool := negb (Hidden f).

(** Modelled from the spec: [flagNames] is not among the sources; a flag
    is identified by its name plus zero or more aliases, so the names
    are the name followed by the aliases. *)
Definition flagNames (name : string) (aliases : list string) : list string :=
  name :: aliases.

(** [Names()]. *)
Definition Names (f : BoolFlag) : list string := flagNames (Name f) (Aliases f).

(** ASCII white space, as [strings.TrimSpace] removes it. *)
Definition isSpace (c : ascii) : bool :=
  match Ascii.N_of_ascii c with
  | 9%N | 10%N | 11%N | 12%N | 13%N | 32%N => true
  | _ => false
  end.

Fixpoint trimLeft (s : string) : string :=
  match s with
  | String c rest => if isSpace c then trimLeft rest else s
  | EmptyString => EmptyString
  end.

Fixpoint trimRight (s : string) : string :=
  match s with
  | String c rest =>
      match trimRight rest with
      | EmptyString => if isSpace c then EmptyString else String c EmptyString
      | r => String c r
      end
  | EmptyString => EmptyString
  end.

Definition TrimSpace (s : string) : string := trimRight (trimLeft s).

(** The first listed environment variable with a non-empty value. *)
Fixpoint firstNonEmptyEnv (w : World) (envVars : list string) : option string :=
  match envVars with
  | [] => None
  | name :: rest =>
      match environ w !! name with
      | Some v => if decide (v = "") then firstNonEmptyEnv w rest else Some v
      | None => firstNonEmptyEnv w rest
      end
  end.

(** The trimmed contents of the file at the flag's file path, when the
    flag names one and it can be read. *)
Definition fileValue (w : World) (filePath : string) : option string :=
  if decide (filePath = "") then None
  else TrimSpace <$> files w !! filePath.

(** Modelled from the spec: [flagFromEnvOrFile] is not among the sources.
    The environment comes before the file: the first listed variable
    with a non-empty value wins (an empty value is skipped in favour of
    the next name); otherwise the value is the entire contents, after
    trimming, of the file at the flag's file path. *)
Definition flagFromEnvOrFile (w : World) (envVars : list string) (filePath : string)
  : string * bool :=
  match firstNonEmptyEnv w envVars with
  | Some v => (v, true)
  | None =>
      match fileValue w filePath with
      | Some v => (v, true)
      | None => ("", false)
      end
  end.

(** The loop of [Apply] over [f.Names()]: one [boolValue] per name, all
    on [f.Destination] when it is set, each on a cell of its own
    otherwise. *)
Fixpoint registerNames (f : BoolFlag) (names : list string)
    (set : flag.FlagSet) (h : Heap) : outcome (flag.FlagSet * Heap) :=
  match names with
  | [] => Done (set, h)
  | name :: rest =>
      let '(value, h1) :=
        match Destination f with
        | Some d => BoolValue.newBoolValue (Value f) d (Count f) h
        | None =>
            let '(t, h0) := newBool h in
            BoolValue.newBoolValue (Value f) t (Count f) h0
        end in
      match FlagPkg.Var (flag.VBool value) name (Usage f) set h1 with
      | Done set1 => registerNames f rest set1 h1
      | Failed e => Failed e
      | Panicked m => Panicked m
      end
  end.

Definition setFromSource (f : BoolFlag) (valBool : bool) : BoolFlag :=
  mkBoolFlag (Name f) (Aliases f) (Usage f) (EnvVars f) (FilePath f)
    (Required f) (Hidden f) valBool (DefaultText f) (Destination f)
    true (Count f).

(** [Apply(set)]: the flag afterwards (the receiver is a pointer), the
    flag set and the heap. *)
Definition Apply (w : World) (f : BoolFlag) (set : flag.FlagSet) (h : Heap)
  : outcome (BoolFlag * flag.FlagSet * Heap) :=
  let continue (f1 : BoolFlag) :=
    match registerNames f1 (Names f1) set h with
    | Done (set1, h1) => Done (f1, set1, h1)
    | Failed e => Failed e
    | Panicked m => Panicked m
    end in
  match flagFromEnvOrFile w (EnvVars f) (FilePath f) with
  | (val, true) =>
      if decide (val = "") then continue f
      else
        match Go.ParseBool val with
        | None => Failed (CouldNotParseBool val (Name f))
        | Some valBool => continue (setFromSource f valBool)
        end
  | (_, false) => continue f
  end.

(** *** The precedence rule in the specification's words *)

(** What the environment or the file supplies for the flag: the text
    that [flagFromEnvOrFile] returns for the flag's environment
    variables and file path, when it returns one and the text is not
    empty. *)
Definition supplied (w : World) (f : BoolFlag) : option string :=
  match flagFromEnvOrFile w (EnvVars f) (FilePath f) with
  | (val, true) => if decide (val = "") then None else Some val
  | (_, false) => None
  end.

(** The value of the highest-priority source present: the command-line
    token, then the environment or the file, then the default. *)
Definition highestPriority (cli source : option bool) (dflt : bool) : bool :=
  match cli, source with
  | Some b, _ => b
  | None, Some b => b
  | None, None => dflt
  end.

(** A command-line token under the name [n1] counts for the value
    looked up under the name [n2]: the names are the same, or the flag
    has a [Destination]. *)
Definition reaches (f : BoolFlag) (n1 n2 : string) : bool :=
  match Destination f with
  | Some _ => true
  | None => bool_decide (n1 = n2)
  end.

(** *** Vocabulary for further properties of [Apply] *)

(** A name that [Var] does not reject by its spelling. *)
Definition acceptable (n : string) : Prop :=
  Go.HasPrefix n "-" = false ∧ FlagPkg.containsEq n = false.

(** The names of the flag can all be registered in the set: they are
    distinct, acceptable and not registered yet. *)
Definition registrable (f : BoolFlag) (set : flag.FlagSet) : Prop :=
  NoDup (Names f)
  ∧ ∀ n, n ∈ Names f → acceptable n ∧ flag.formal set !! n = None.

(** The cell that the loop of [Apply] gives to the name at index [i]:
    the destination when there is one, the [i]-th fresh cell otherwise. *)
Definition cellOf (f : BoolFlag) (h : Heap) (i : nat) : loc :=
  match Destination f with
  | Some d => d
  | None => length (bools h) + i
  end.

(** The heap after the loop of [Apply] has registered [k] names. *)
Definition registeredHeap (f : BoolFlag) (k : nat) (h : Heap) : Heap :=
  match Destination f with
  | Some d => match k with 0 => h | S _ => storeBool d (Value f) h end
  | None => mkHeap (bools h ++ replicate k (Value f)) (ints h)
  end.

(** What the environment or the file supplies can be used by [Apply]:
    it is empty or parses as a boolean. *)
Definition sourceUsable (w : World) (f : BoolFlag) : Prop :=
  ∀ val, flagFromEnvOrFile w (EnvVars f) (FilePath f) = (val, true) →
         val ≠ "" → is_Some (Go.ParseBool val).

(** A flag on a cell of its own, with an alias, an environment variable
    and a file; and the worlds it is resolved in. *)
Definition sampleFlag : BoolFlag :=
  mkBoolFlag "verbose" ["V"] "" ["APP_VERBOSE"] "/etc/verbose" false false
    false "" None false None.

Definition sampleWorld : World :=
  mkWorld {[ "APP_VERBOSE" := "true" ]} {[ "/etc/verbose" := "false" ]}.

Definition emptyWorld : World := mkWorld ∅ ∅.

(** The same flag writing through a [Destination], the cell 0. *)
Definition sharedFlag : BoolFlag :=
  mkBoolFlag "verbose" ["V"] "" ["APP_VERBOSE"] "/etc/verbose" false false
    false "" (Some 0) false None.

End FlagBool.

(** ** [Command], [App] and [Context] *)

Module Cli.

(** A Go function value, known by an identifier; [None] of
    [option handler] is the nil function. *)
Definition handler := nat.

(** A [cli.Flag]: the boolean flag of [flag_bool.go], or a flag of a
    kind declared elsewhere, known by its names. *)
Inductive Flag :=
| FBool (f : FlagBool.BoolFlag)
| FOther (names : list string).

Inductive Command := mkCommand {
  Name : string;
  ShortName : string;
  Usage : string;
  Description : string;
  BashComplete : option handler;
  Before : option handler;
  Action : option handler;
  Subcommands : list Command;
  Flags : list Flag;
  SkipFlagParsing : bool;
  HideHelp : bool
}.

(** The fields of [App] that [startApp] assigns or reads. *)
Record App := mkApp {
  AppName : string;
  AppUsage : string;
  AppCommands : list Command;
  AppFlags : list Flag;
  AppHideHelp : bool;
  EnableBashCompletion : bool;
  AppBashComplete : option handler;
  AppBefore : option handler;
  AppAction : option handler;
  CommandNotFound : option handler
}.

(** Modelled from the spec: the declaration of [Context] is not among
    the sources.  A context holds the flag set of its own dispatch
    level, whose remaining arguments are the positional arguments, and
    a back-reference to the enclosing (parent) context; [Command.Run]
    also reads its [App] and [globalSet] and assigns its [Command]. *)
Inductive Context := mkContext {
  CtxApp : App;
  CtxCommand : option Command;
  flagSet : flag.FlagSet;
  globalSet : flag.FlagSet;
  parentContext : option Context
}.

(** [NewContext(app, set, globalSet)]. *)
Definition NewContext (app : App) (set globalSet : flag.FlagSet) : Context :=
  mkContext app None set globalSet None.

(** [ctx.Args()]. *)
Definition Args (ctx : Context) : list string := flag.Args (flagSet ctx).

(** [Args.Tail()]. *)
Definition Tail (a : list string) : list string := drop 1 a.

(** The chain of contexts, innermost first. *)
Fixpoint Lineage (c : Context) : list Context :=
  c :: match parentContext c with
       | Some p => Lineage p
       | None => []
       end.

(** Modelled from the spec: [lookupFlagSet] is not among the sources.
    A flag name not found locally is looked for in the enclosing
    scopes, innermost first; the result is the flag set of the first
    scope that registers the name, nil when none does. *)
Fixpoint lookupFlagSet (c : Context) (name : string) : option flag.FlagSet :=
  match flag.Lookup (flagSet c) name with
  | Some _ => Some (flagSet c)
  | None =>
      match parentContext c with
      | Some p => lookupFlagSet p name
      | None => None
      end
  end.

(** The flag that a lookup of [name] from [c] reaches: the one of the
    innermost scope of the chain that registers the name. *)
Fixpoint firstRegistered (scopes : list Context) (name : string) : option flag.Flag :=
  match scopes with
  | [] => None
  | scope :: rest =>
      match flag.Lookup (flagSet scope) name with
      | Some f => Some f
      | None => firstRegistered rest name
      end
  end.

End Cli.

(** ** [flag_bool.go]: the [Bool] lookup *)

Module ContextBool.

(** [lookupBool(name, set)]. *)
Definition lookupBool (name : string) (set : flag.FlagSet) (h : Heap) : bool :=
  match flag.Lookup set name with
  | Some f =>
      match Go.ParseBool (FlagPkg.String_ (flag.FValue f) h) with
      | Some parsed => parsed
      | None => false
      end
  | None => false
  end.

(** [c.Bool(name)]. *)
Definition Bool (c : Cli.Context) (name : string) (h : Heap) : bool :=
  match Cli.lookupFlagSet c name with
  | Some fs => lookupBool name fs h
  | None => false
  end.

(** The resolution of one flag on a fresh flag set: [Apply], then the
    parse of the command-line arguments, then the lookup of [name];
    the result is the flag's [IsSet] and the value looked up. *)
Definition applyAndParse (w : FlagBool.World) (f : FlagBool.BoolFlag)
    (arguments : list string) (name : string) : outcome (bool * bool) :=
  match FlagBool.Apply w f flag.NewFlagSet emptyHeap with
  | Done (f', set', h') =>
      match FlagPkg.Parse set' h' arguments with
      | Done (set'', h'') => Done (FlagBool.IsSet f', lookupBool name set'' h'')
      | Failed e => Failed e
      | Panicked m => Panicked m
      end
  | Failed e => Failed e
  | Panicked m => Panicked m
  end.

End ContextBool.

(** ** [Command.Run] and [Command.startApp] *)

Module CommandRun.

Import Cli.

(** What a run does that is visible from outside. *)
Inductive event :=
| Printf (s : string)
| Println (s : string)
| PrintlnError (e : error)
| ShowCommandHelp (ctx : Context) (name : string)
| CallAction (action : handler) (context : Context)
| CallNilAction (context : Context).

(** The result of [Run]: the events in order, how the call returned
    ([Done tt] is the nil error), and the heap. *)
Record Result := mkResult {
  events : list event;
  returned : outcome unit;
  heap : Heap
}.

Section Collaborators.

(** Functions and values of the repository that are not among the
    sources. *)
Variable NewApp : App.
Variable helpSubcommandAction : option handler.
Variable HelpFlag BashCompletionFlag : Flag.
Variable flagSetOf : string → list Flag → Heap → flag.FlagSet * Heap.
Variable normalizeFlags : list Flag → flag.FlagSet → option error.
Variable checkCommandCompletions checkCommandHelp : Context → string → bool.
Variable RunAsSubcommand : App → Context → Heap → Result.

(** The [App] that [startApp] builds. *)
Definition subApp (c : Command) (ctx : Context) : App :=
  let app := NewApp in
  mkApp
    (AppName (CtxApp ctx) +:+ " " +:+ Name c)
    (if decide (Description c = "") then Usage c else Description c)
    (Subcommands c)
    (Flags c)
    (HideHelp c)
    (EnableBashCompletion (CtxApp ctx))
    (match BashComplete c with
     | Some bc => Some bc
     | None => AppBashComplete app
     end)
    (Before c)
    (match Action c with
     | Some a => Some a
     | None => helpSubcommandAction
     end)
    (CommandNotFound (CtxApp ctx)).

(** [c.startApp(ctx)]. *)
Definition startApp (c : Command) (ctx : Context) (h : Heap) : Result :=
  RunAsSubcommand (subApp c ctx) ctx h.

(** [c.Flags] after the two conditional appends. *)
Definition leafFlags (c : Command) (ctx : Context) : list Flag :=
  let flags1 := if negb (HideHelp c) then Flags c ++ [HelpFlag] else Flags c in
  if EnableBashCompletion (CtxApp ctx) then flags1 ++ [BashCompletionFlag] else flags1.

(** The arguments handed to [set.Parse]. *)
Definition parsedArgs (c : Command) (ctx : Context) (set : flag.FlagSet) : list string :=
  if negb (SkipFlagParsing c) then Reorder.reorder set (Args ctx)
  else Tail (Args ctx).

(** The command as assigned to [context.Command]: the receiver is a
    copy, with its [Flags] already extended. *)
Definition withFlags (c : Command) (flags : list Flag) : Command :=
  mkCommand (Name c) (ShortName c) (Usage c) (Description c) (BashComplete c)
    (Before c) (Action c) (Subcommands c) flags (SkipFlagParsing c) (HideHelp c).

Definition withCommand (ctx : Context) (c : Command) : Context :=
  mkContext (CtxApp ctx) (Some c) (flagSet ctx) (globalSet ctx) (parentContext ctx).

(** The part of [Run] after the test for an internal node. *)
Definition runLeaf (c : Command) (ctx : Context) (h : Heap) : Result :=
  let flags := leafFlags c ctx in
  let '(set, h1) := flagSetOf (Name c) flags h in
  match FlagPkg.Parse set h1 (parsedArgs c ctx set) with
  | Failed err =>
      mkResult [Printf ("Incorrect Usage." +:+ Go.newline +:+ Go.newline); ShowCommandHelp ctx (Name c); Println ""]
               (Failed err) h1
  | Panicked m => mkResult [] (Panicked m) h1
  | Done (set2, h2) =>
      match normalizeFlags flags set2 with
      | Some nerr =>
          mkResult [PrintlnError nerr; Println ""; ShowCommandHelp ctx (Name c); Println ""]
                   (Failed nerr) h2
      | None =>
          let context := NewContext (CtxApp ctx) set2 (globalSet ctx) in
          if checkCommandCompletions context (Name c) then mkResult [] (Done tt) h2
          else if checkCommandHelp context (Name c) then mkResult [] (Done tt) h2
          else
            let context' := withCommand context (withFlags c flags) in
            match Action c with
            | Some a => mkResult [CallAction a context'] (Done tt) h2
            | None => mkResult [CallNilAction context'] (Panicked "nil func call") h2
            end
      end
  end.

(** [c.Run(ctx)]. *)
Definition Run (c : Command) (ctx : Context) (h : Heap) : Result :=
  if Nat.ltb 0 (length (Subcommands c)) || bool_decide (Before c ≠ None) then
    startApp c ctx h
  else
    runLeaf c ctx h.

End Collaborators.

(** The run called an action. *)
Definition callsAction (r : Result) : Prop :=
  ∃ a context, CallAction a context ∈ events r.

(** The command is an internal node for [Run]. *)
Definition internal (c : Command) : Prop :=
  0 < length (Subcommands c) ∨ Before c ≠ None.

(** Sample data: an application, a context whose arguments are given,
    a pass-through command [run] with an action and no flags, and a
    command [parent] with a child, a hook and an action. *)
Definition sampleApp : App := mkApp "app" "" [] [] true false None None None None.

Definition contextWith (arguments : list string) : Context :=
  mkContext sampleApp None (flag.mkFlagSet ∅ arguments) flag.NewFlagSet None.

Definition passThrough : Command :=
  mkCommand "run" "" "" "" None None (Some 7) [] [] true true.

Definition parentCommand : Command :=
  mkCommand "parent" "" "" "" None (Some 1) (Some 2) [passThrough] [] false true.

(** Sample collaborators: a flag set built from no flags is empty. *)
Definition emptyFlagSetOf (name : string) (flags : list Flag) (h : Heap)
  : flag.FlagSet * Heap := (flag.NewFlagSet, h).
Definition noNormalizeError (flags : list Flag) (set : flag.FlagSet) : option error := None.
Definition neverChecked (context : Context) (name : string) : bool := false.
Definition recordSubcommand (app : App) (ctx : Context) (h : Heap) : Result :=
  mkResult [] (Done tt) h.

End CommandRun.

(** ** The map-backed input source *)

Module InputSource.

(** A key of a [map[interface{}]interface{}]: a string or an integer.
    The getters index with strings only. *)
Inductive key := KString (s : string) | KInt (n : Z).

#[global] Instance key_eq_dec : EqDecision key.
Proof. solve_decision. Defined.

#[global] Instance key_countable : Countable key.
Proof.
  refine (inj_countable'
    (λ k, match k with KString s => inl s | KInt n => inr n end)
    (λ x, match x with inl s => KString s | inr n => KInt n end) _).
  intros []; reflexivity.
Defined.

(** A value held in an [interface{}], by dynamic type.  A [float64] is
    kept as its 64-bit pattern and a [time.Duration] as its count of
    nanoseconds; [IGeneric] is a value of a named type that implements
    [cli.Generic]; [IOther] is a value of any other named type. *)
Inductive iface :=
| INil
| IBool (b : bool)
| IInt (n : Z)
| IInt64 (n : Z)
| IUint (n : Z)
| IUint64 (n : Z)
| IFloat64 (bits : Z)
| IString (s : string)
| IDuration (d : Z)
| IGeneric (typeName : string) (text : string)
| ISlice (l : list iface)
| IMap (m : gmap key iface)
| IOther (typeName : string).

Record mapInputSource := mkMapInputSource {
  file : string;
  valueMap : gmap key iface
}.

(** [Source()]. *)
Definition Source (fsm : mapInputSource) : string := file fsm.

(** [strings.Split(name, ".")]. *)
Fixpoint Split (name : string) : list string :=
  match name with
  | EmptyString => [EmptyString]
  | String c rest =>
      if Ascii.eqb c "." then EmptyString :: Split rest
      else
        match Split rest with
        | first :: more => String c first :: more
        | [] => [String c EmptyString]
        end
  end.

(** The loop of [nestedVal] over [sections[:len(sections)-1]]: the node
    reached, [None] for the early [return nil, false]. *)
Fixpoint descend (node : gmap key iface) (sections : list string)
  : option (gmap key iface) :=
  match sections with
  | [] => Some node
  | section :: rest =>
      match node !! KString section with
      | None => None
      | Some child =>
          match child with
          | IMap ctype => descend ctype rest
          | _ => None
          end
      end
  end.

(** [nestedVal(name, tree)]: [None] is the result [nil, false]. *)
Definition nestedVal (name : string) (tree : gmap key iface) : option iface :=
  let sections := Split name in
  if Nat.ltb 1 (length sections) then
    match descend tree (take (length sections - 1) sections) with
    | None => None
    | Some node =>
        match sections !! (length sections - 1) with
        | Some last => node !! KString last
        | None => None
        end
    end
  else None.

(** [reflect.TypeOf(value).Name()], the empty string for the nil
    interface and for the unnamed slice and map types. *)
Definition typeName (value : iface) : string :=
  match value with
  | INil => ""
  | IBool _ => "bool"
  | IInt _ => "int"
  | IInt64 _ => "int64"
  | IUint _ => "uint"
  | IUint64 _ => "uint64"
  | IFloat64 _ => "float64"
  | IString _ => "string"
  | IDuration _ => "Duration"
  | IGeneric n _ => n
  | ISlice _ => ""
  | IMap _ => ""
  | IOther n => n
  end.

(** [incorrectTypeForFlagError(name, expectedTypeName, value)]. *)
Definition incorrectTypeForFlagError (name expectedTypeName : string) (value : iface)
  : error :=
  MismatchedType name expectedTypeName (typeName value).


(** [%d] (and [%v]) of a non-negative index. *)
Definition decimal (i : nat) : string := NilEmpty.string_of_uint (Nat.to_uint i).

(** [fmt.Sprintf("%s[%d]", name, i)]. *)
Definition indexed (name : string) (i : nat) : string :=
  name +:+ "[" +:+ decimal i +:+ "]".

(** [castDuration(name, value)], with [time.ParseDuration] taken as
    given: [None] stands for its error, also on the empty string that
    the failed type assertion leaves. *)
Definition castDuration (ParseDuration : string → option Z) (name : string) (value : iface)
  : Z * option error :=
  match value with
  | IDuration otherValue => (otherValue, None)
  | _ =>
      let '(otherStringValue, isType) :=
        match value with
        | IString x => (x, true)
        | _ => (EmptyString, false)
        end in
      match ParseDuration otherStringValue with
      | Some parsedValue =>
          if negb isType then (0%Z, Some (incorrectTypeForFlagError name "duration" value))
          else (parsedValue, None)
      | None => (0%Z, Some (incorrectTypeForFlagError name "duration" value))
      end
  end.

(** [Duration(name)]. *)
Definition Duration (ParseDuration : string → option Z) (fsm : mapInputSource)
    (name : string) : Z * option error :=
  match valueMap fsm !! KString name with
  | Some otherGenericValue => castDuration ParseDuration name otherGenericValue
  | None =>
      match nestedVal name (valueMap fsm) with
      | Some nestedGenericValue => castDuration ParseDuration name nestedGenericValue
      | None => (0%Z, None)
      end
  end.


(** [Bool(name)]. *)
Definition Bool (fsm : mapInputSource) (name : string) : bool * option error :=
  match valueMap fsm !! KString name with
  | Some otherGenericValue =>
      match otherGenericValue with
      | IBool otherValue => (otherValue, None)
      | _ => (false, Some (incorrectTypeForFlagError name "bool" otherGenericValue))
      end
  | None =>
      match nestedVal name (valueMap fsm) with
      | Some nestedGenericValue =>
          match nestedGenericValue with
          | IBool otherValue => (otherValue, None)
          | _ => (false, Some (incorrectTypeForFlagError name "bool" nestedGenericValue))
          end
      | None => (false, None)
      end
  end.

(** [Float64(name)]. *)
Definition Float64 (fsm : mapInputSource) (name : string) : Z * option error :=
  match valueMap fsm !! KString name with
  | Some otherGenericValue =>
      match otherGenericValue with
      | IFloat64 otherValue => (otherValue, None)
      | _ => (0%Z, Some (incorrectTypeForFlagError name "float64" otherGenericValue))
      end
  | None =>
      match nestedVal name (valueMap fsm) with
      | Some nestedGenericValue =>
          match nestedGenericValue with
          | IFloat64 otherValue => (otherValue, None)
          | _ => (0%Z, Some (incorrectTypeForFlagError name "float64" nestedGenericValue))
          end
      | None => (0%Z, None)
      end
  end.

(** The loop of [Float64Slice] from index [i], with the slice built so far. *)
Fixpoint float64Loop (name : string) (i : nat) (rest : list iface) (acc : list Z)
  : option (list Z) * option error :=
  match rest with
  | [] => (Some acc, None)
  | v :: rest' =>
      match v with
      | IFloat64 x => float64Loop name (S i) rest' (acc ++ [x])
      | _ => (None, Some (incorrectTypeForFlagError (indexed name i) "float64" v))
      end
  end.

(** [Float64Slice(name)]: [None] is the nil slice. *)
Definition Float64Slice (fsm : mapInputSource) (name : string)
  : option (list Z) * option error :=
  match
    match valueMap fsm !! KString name with
    | Some v => Some v
    | None => nestedVal name (valueMap fsm)
    end
  with
  | None => (None, None)
  | Some otherGenericValue =>
      match otherGenericValue with
      | ISlice otherValue => float64Loop name 0 otherValue []
      | _ => (None, Some (incorrectTypeForFlagError name "[]interface{}" otherGenericValue))
      end
  end.

(** [Int(name)]. *)
Definition Int (fsm : mapInputSource) (name : string) : Z * option error :=
  match valueMap fsm !! KString name with
  | Some otherGenericValue =>
      match otherGenericValue with
      | IInt otherValue => (otherValue, None)
      | _ => (0%Z, Some (incorrectTypeForFlagError name "int" otherGenericValue))
      end
  | None =>
      match nestedVal name (valueMap fsm) with
      | Some nestedGenericValue =>
          match nestedGenericValue with
          | IInt otherValue => (otherValue, None)
          | _ => (0%Z, Some (incorrectTypeForFlagError name "int" nestedGenericValue))
          end
      | None => (0%Z, None)
      end
  end.

(** The loop of [IntSlice] from index [i], with the slice built so far. *)
Fixpoint intLoop (name : string) (i : nat) (rest : list iface) (acc : list Z)
  : option (list Z) * option error :=
  match rest with
  | [] => (Some acc, None)
  | v :: rest' =>
      match v with
      | IInt x => intLoop name (S i) rest' (acc ++ [x])
      | _ => (None, Some (incorrectTypeForFlagError (indexed name i) "int" v))
      end
  end.

(** [IntSlice(name)]: [None] is the nil slice. *)
Definition IntSlice (fsm : mapInputSource) (name : string)
  : option (list Z) * option error :=
  match
    match valueMap fsm !! KString name with
    | Some v => Some v
    | None => nestedVal name (valueMap fsm)
    end
  with
  | None => (None, None)
  | Some otherGenericValue =>
      match otherGenericValue with
      | ISlice otherValue => intLoop name 0 otherValue []
      | _ => (None, Some (incorrectTypeForFlagError name "[]interface{}" otherGenericValue))
      end
  end.

(** [Int64(name)]. *)
Definition Int64 (fsm : mapInputSource) (name : string) : Z * option error :=
  match valueMap fsm !! KString name with
  | Some otherGenericValue =>
      match otherGenericValue with
      | IInt64 otherValue => (otherValue, None)
      | _ => (0%Z, Some (incorrectTypeForFlagError name "int64" otherGenericValue))
      end
  | None =>
      match nestedVal name (valueMap fsm) with
      | Some nestedGenericValue =>
          match nestedGenericValue with
          | IInt64 otherValue => (otherValue, None)
          | _ => (0%Z, Some (incorrectTypeForFlagError name "int64" nestedGenericValue))
          end
      | None => (0%Z, None)
      end
  end.

(** The loop of [Int64Slice] from index [i], with the slice built so far. *)
Fixpoint int64Loop (name : string) (i : nat) (rest : list iface) (acc : list Z)
  : option (list Z) * option error :=
  match rest with
  | [] => (Some acc, None)
  | v :: rest' =>
      match v with
      | IInt64 x => int64Loop name (S i) rest' (acc ++ [x])
      | _ => (None, Some (incorrectTypeForFlagError (indexed name i) "int64" v))
      end
  end.

(** [Int64Slice(name)]: [None] is the nil slice. *)
Definition Int64Slice (fsm : mapInputSource) (name : string)
  : option (list Z) * option error :=
  match
    match valueMap fsm !! KString name with
    | Some v => Some v
    | None => nestedVal name (valueMap fsm)
    end
  with
  | None => (None, None)
  | Some otherGenericValue =>
      match otherGenericValue with
      | ISlice otherValue => int64Loop name 0 otherValue []
      | _ => (None, Some (incorrectTypeForFlagError name "[]interface{}" otherGenericValue))
      end
  end.

(** [String(name)]. *)
Definition String_ (fsm : mapInputSource) (name : string) : string * option error :=
  match valueMap fsm !! KString name with
  | Some otherGenericValue =>
      match otherGenericValue with
      | IString otherValue => (otherValue, None)
      | _ => ("", Some (incorrectTypeForFlagError name "string" otherGenericValue))
      end
  | None =>
      match nestedVal name (valueMap fsm) with
      | Some nestedGenericValue =>
          match nestedGenericValue with
          | IString otherValue => (otherValue, None)
          | _ => ("", Some (incorrectTypeForFlagError name "string" nestedGenericValue))
          end
      | None => ("", None)
      end
  end.

(** The loop of [StringSlice] from index [i], with the slice built so far. *)
Fixpoint stringLoop (name : string) (i : nat) (rest : list iface) (acc : list string)
  : option (list string) * option error :=
  match rest with
  | [] => (Some acc, None)
  | v :: rest' =>
      match v with
      | IString x => stringLoop name (S i) rest' (acc ++ [x])
      | _ => (None, Some (incorrectTypeForFlagError (indexed name i) "string" v))
      end
  end.

(** [StringSlice(name)]: [None] is the nil slice. *)
Definition StringSlice (fsm : mapInputSource) (name : string)
  : option (list string) * option error :=
  match
    match valueMap fsm !! KString name with
    | Some v => Some v
    | None => nestedVal name (valueMap fsm)
    end
  with
  | None => (None, None)
  | Some otherGenericValue =>
      match otherGenericValue with
      | ISlice otherValue => stringLoop name 0 otherValue []
      | _ => (None, Some (incorrectTypeForFlagError name "[]interface{}" otherGenericValue))
      end
  end.

(** [Uint(name)]. *)
Definition Uint (fsm : mapInputSource) (name : string) : Z * option error :=
  match valueMap fsm !! KString name with
  | Some otherGenericValue =>
      match otherGenericValue with
      | IUint otherValue => (otherValue, None)
      | _ => (0%Z, Some (incorrectTypeForFlagError name "uint" otherGenericValue))
      end
  | None =>
      match nestedVal name (valueMap fsm) with
      | Some nestedGenericValue =>
          match nestedGenericValue with
          | IUint otherValue => (otherValue, None)
          | _ => (0%Z, Some (incorrectTypeForFlagError name "uint" nestedGenericValue))
          end
      | None => (0%Z, None)
      end
  end.

(** [Uint64(name)]. *)
Definition Uint64 (fsm : mapInputSource) (name : string) : Z * option error :=
  match valueMap fsm !! KString name with
  | Some otherGenericValue =>
      match otherGenericValue with
      | IUint64 otherValue => (otherValue, None)
      | _ => (0%Z, Some (incorrectTypeForFlagError name "uint64" otherGenericValue))
      end
  | None =>
      match nestedVal name (valueMap fsm) with
      | Some nestedGenericValue =>
          match nestedGenericValue with
          | IUint64 otherValue => (otherValue, None)
          | _ => (0%Z, Some (incorrectTypeForFlagError name "uint64" nestedGenericValue))
          end
      | None => (0%Z, None)
      end
  end.

(** *** The lookup rule in the specification's words *)

(** The name contains the delimiter. *)
Fixpoint containsDot (name : string) : bool :=
  match name with
  | EmptyString => false
  | String c rest => if Ascii.eqb c "." then true else containsDot rest
  end.

(** Walk the nested mappings with all segments but the last, then
    retrieve the leaf with the last segment; a missing or non-mapping
    intermediate node makes the key absent. *)
Fixpoint specWalk (node : gmap key iface) (segments : list string) : option iface :=
  match segments with
  | [] => None
  | [last] => node !! KString last
  | segment :: rest =>
      match node !! KString segment with
      | Some (IMap child) => specWalk child rest
      | _ => None
      end
  end.

(** A direct top-level lookup first; if that is absent and the name
    contains the delimiter, the walk along its segments. *)
Definition specLookup (tree : gmap key iface) (name : string) : option iface :=
  match tree !! KString name with
  | Some v => Some v
  | None => if containsDot name then specWalk tree (Split name) else None
  end.

(** The first element that is not of the element kind, with its index. *)
Fixpoint firstMismatch {A} (proj : iface → option A) (l : list iface)
  : option (nat * iface) :=
  match l with
  | [] => None
  | v :: rest =>
      match proj v with
      | Some _ => prod_map S id <$> firstMismatch proj rest
      | None => Some (0, v)
      end
  end.

(** What a slice getter returns for a stored value, in the
    specification's words: every element decoded, or the index of the
    first ill-typed element named and no slice. *)
Definition specSlice {A} (proj : iface → option A) (elemKind : string)
    (name : string) (found : option iface) : option (list A) * option error :=
  match found with
  | None => (None, None)
  | Some (ISlice l) =>
      match firstMismatch proj l with
      | Some (i, v) => (None, Some (MismatchedType (indexed name i) elemKind (typeName v)))
      | None => (Some (omap proj l), None)
      end
  | Some v => (None, Some (MismatchedType name "[]interface{}" (typeName v)))
  end.

Definition asInt (v : iface) : option Z := match v with IInt n => Some n | _ => None end.
Definition asInt64 (v : iface) : option Z := match v with IInt64 n => Some n | _ => None end.
Definition asFloat64 (v : iface) : option Z := match v with IFloat64 n => Some n | _ => None end.
Definition asString (v : iface) : option string := match v with IString n => Some n | _ => None end.

(** 1 when a getter's result carries no error, 0 otherwise. *)
Definition accepts {A} (r : A * option error) : nat :=
  match r.2 with
  | None => 1
  | Some _ => 0
  end.

(** The tree [{a: {b: {c: 5}}}]. *)
Definition sampleTree : gmap key iface :=
  {[ KString "a" := IMap {[ KString "b" := IMap {[ KString "c" := IInt 5 ]} ]} ]}.

End InputSource.

(** ** Properties of the reordering loop *)

Section ReorderFacts.

Import flag Reorder.

Variable set : FlagSet.

Lemma insertAt_spec (fa : list string) (idx : nat) (val : string) :
  idx ≤ length fa →
  insertAt fa idx val = take idx fa ++ val :: drop idx fa.
Proof.
  intros Hle. unfold insertAt, Go.append, Go.copyWithin.
  assert (Hlen : length (fa ++ [""]) = S (length fa))
    by (rewrite length_app; simpl; lia).
  rewrite Hlen.
  replace (S (length fa) - (idx + 1)) with (length fa - idx) by lia.
  replace (S (length fa) - idx) with (S (length fa - idx)) by lia.
  rewrite Nat.min_l by lia.
  rewrite (drop_ge (fa ++ [""]) (idx + 1 + (length fa - idx))) by lia.
  rewrite app_nil_r.
  rewrite (drop_app_le fa [""] idx) by lia.
  rewrite (take_app_le (drop idx fa) [""] (length fa - idx))
    by (rewrite length_drop; lia).
  rewrite (take_ge (drop idx fa)) by (rewrite length_drop; lia).
  replace (idx + 1) with (S idx) by lia.
  assert (Hx : ∃ x, (fa ++ [""]) !! idx = Some x).
  { apply lookup_lt_is_Some_2. lia. }
  destruct Hx as [x Hx].
  rewrite (take_S_r (fa ++ [""]) idx x Hx).
  rewrite (take_app_le fa [""] idx) by lia.
  rewrite <- app_assoc. simpl.
  rewrite insert_app_r_alt by (rewrite length_take; lia).
  rewrite length_take.
  replace (idx - idx `min` length fa) with 0 by lia.
  reflexivity.
Qed.

Lemma ofRegions_eta (st : State) :
  wf st → st = ofRegions (flagRegion st) (positionals st) (boolF st).
Proof.
  intros Hwf. destruct st as [fa idx b]. unfold wf in Hwf. simpl in Hwf.
  unfold ofRegions, flagRegion, positionals. simpl.
  rewrite take_drop. rewrite length_take. f_equal. lia.
Qed.

Lemma wf_regions (st : State) : wf st → ∃ F P b, st = ofRegions F P b.
Proof. intros Hwf. eexists _, _, _. by apply ofRegions_eta. Qed.

Lemma flagRegion_ofRegions F P b : flagRegion (ofRegions F P b) = F.
Proof. unfold flagRegion, ofRegions. simpl. apply take_app_length. Qed.

Lemma positionals_ofRegions F P b : positionals (ofRegions F P b) = P.
Proof. unfold positionals, ofRegions. simpl. apply drop_app_length. Qed.

Lemma wf_ofRegions F P b : wf (ofRegions F P b).
Proof. unfold wf, ofRegions. simpl. rewrite length_app. lia. Qed.

Lemma insertAt_regions F P val : insertAt (F ++ P) (length F) val = (F ++ [val]) ++ P.
Proof.
  rewrite insertAt_spec by (rewrite length_app; lia).
  rewrite take_app_length, drop_app_length, <- app_assoc. reflexivity.
Qed.

(** The loop body, read on the two regions. *)
Lemma step_flagLike F P b val :
  flagLike val = true →
  step set (ofRegions F P b) val = ofRegions (F ++ [val]) P (negb (valueTaking set val)).
Proof.
  intros Hfl. unfold step, valueTaking, flagName, flagLike in *. rewrite Hfl.
  change (flagArgs (ofRegions F P b)) with (F ++ P).
  change (flagIdx (ofRegions F P b)) with (length F).
  rewrite insertAt_regions, andb_true_l.
  replace (S (length F)) with (length (F ++ [val]))
    by (rewrite length_app; simpl; lia).
  destruct (Nat.ltb 1 (Go.len val) && Go.HasPrefix val "--");
    match goal with
    | |- context [Lookup set ?n] => destruct (Lookup set n) as [f|]
    end; try reflexivity; destruct (notBool f); reflexivity.
Qed.

Lemma step_value F P val :
  flagLike val = false →
  step set (ofRegions F P false) val = ofRegions (F ++ [val]) P true.
Proof.
  intros Hfl. unfold flagLike in Hfl. unfold step. rewrite Hfl.
  change (flagArgs (ofRegions F P false)) with (F ++ P).
  change (flagIdx (ofRegions F P false)) with (length F).
  rewrite insertAt_regions.
  replace (S (length F)) with (length (F ++ [val]))
    by (rewrite length_app; simpl; lia).
  reflexivity.
Qed.

Lemma step_positional F P val :
  flagLike val = false →
  step set (ofRegions F P true) val = ofRegions F (P ++ [val]) true.
Proof.
  intros Hfl. unfold flagLike in Hfl. unfold step. rewrite Hfl.
  unfold Go.append, ofRegions. cbn [flagArgs flagIdx boolF negb].
  rewrite app_assoc. reflexivity.
Qed.

Lemma step_wf st val : wf st → wf (step set st val).
Proof.
  intros Hwf. rewrite (ofRegions_eta st Hwf).
  destruct (flagLike val) eqn:Hfl.
  - rewrite step_flagLike by done. apply wf_ofRegions.
  - destruct (boolF st).
    + rewrite step_positional by done. apply wf_ofRegions.
    + rewrite step_value by done. apply wf_ofRegions.
Qed.

Lemma loop_wf toks : ∀ st, wf st → wf (loop set st toks).
Proof.
  induction toks as [|t toks IH]; intros st Hwf; simpl; [done|].
  apply IH, step_wf, Hwf.
Qed.

Lemma init_wf : wf init.
Proof. unfold wf, init. simpl. lia. Qed.

Lemma loop_app st xs ys : loop set st (xs ++ ys) = loop set (loop set st xs) ys.
Proof. unfold loop. apply fold_left_app. Qed.

(** The three cases of the loop body at once. *)
Lemma step_regions F P b val :
  step set (ofRegions F P b) val
  = if flagLike val then ofRegions (F ++ [val]) P (negb (valueTaking set val))
    else if b then ofRegions F (P ++ [val]) true
    else ofRegions (F ++ [val]) P true.
Proof.
  destruct (flagLike val) eqn:Hfl.
  - by apply step_flagLike.
  - destruct b; [by apply step_positional | by apply step_value].
Qed.

(** Framing: what the loop adds to the two regions does not depend on
    what they already hold. *)
Lemma loop_frame toks : ∀ F P b,
  loop set (ofRegions F P b) toks
  = ofRegions (F ++ flagRegion (loop set (ofRegions [] [] b) toks))
              (P ++ positionals (loop set (ofRegions [] [] b) toks))
              (boolF (loop set (ofRegions [] [] b) toks)).
Proof.
  induction toks as [|t toks IH]; intros F P b.
  - simpl. rewrite flagRegion_ofRegions, positionals_ofRegions, !app_nil_r.
    reflexivity.
  - simpl. rewrite !step_regions.
    destruct (flagLike t); [|destruct b].
    + rewrite (IH (F ++ [t])), (IH ([] ++ [t])).
      rewrite flagRegion_ofRegions, positionals_ofRegions. simpl.
      rewrite <- app_assoc. reflexivity.
    + rewrite (IH F), (IH [] ([] ++ [t])).
      rewrite flagRegion_ofRegions, positionals_ofRegions. simpl.
      rewrite <- app_assoc. reflexivity.
    + rewrite (IH (F ++ [t])), (IH ([] ++ [t])).
      rewrite flagRegion_ofRegions, positionals_ofRegions. simpl.
      rewrite <- app_assoc. reflexivity.
Qed.

Lemma loop_snoc st toks t : loop set st (toks ++ [t]) = step set (loop set st toks) t.
Proof. rewrite loop_app. reflexivity. Qed.

(** Only non-flag tokens reach the positional region. *)
Lemma positionals_nonflag toks : ∀ b,
  Forall (λ t, flagLike t = false) (positionals (loop set (ofRegions [] [] b) toks)).
Proof.
  intros b. induction toks as [|t toks IH] using rev_ind.
  - simpl. rewrite positionals_ofRegions. constructor.
  - rewrite loop_snoc.
    assert (Hwf : wf (loop set (ofRegions [] [] b) toks))
      by apply loop_wf, wf_ofRegions.
    rewrite (ofRegions_eta _ Hwf), step_regions.
    destruct (flagLike t) eqn:Hfl; [|destruct (boolF _)];
      rewrite positionals_ofRegions; try done.
    apply Forall_app. split; [done|]. by constructor.
Qed.

(** Run on its own, the flag region is reproduced as a flag region, and
    leaves the loop in the same [boolF]. *)
Lemma flagRegion_fixed toks : ∀ b,
  loop set (ofRegions [] [] b) (flagRegion (loop set (ofRegions [] [] b) toks))
  = ofRegions (flagRegion (loop set (ofRegions [] [] b) toks)) []
              (boolF (loop set (ofRegions [] [] b) toks)).
Proof.
  intros b. induction toks as [|t toks IH] using rev_ind.
  - simpl. rewrite flagRegion_ofRegions. reflexivity.
  - rewrite loop_snoc.
    assert (Hwf : wf (loop set (ofRegions [] [] b) toks))
      by apply loop_wf, wf_ofRegions.
    destruct (wf_regions _ Hwf) as (F & P & c & E).
    rewrite E in IH |- *. clear E Hwf.
    rewrite flagRegion_ofRegions in IH. simpl in IH.
    rewrite step_regions.
    destruct (flagLike t) eqn:Hfl; [|destruct c eqn:Hc].
    + rewrite flagRegion_ofRegions. simpl.
      rewrite loop_snoc, IH, step_regions, Hfl. reflexivity.
    + rewrite flagRegion_ofRegions. simpl. exact IH.
    + rewrite flagRegion_ofRegions. simpl.
      rewrite loop_snoc, IH, step_regions, Hfl. reflexivity.
Qed.

(** Non-flag tokens met with [boolF] set are appended in order. *)
Lemma loop_positionals P : ∀ F Q,
  Forall (λ t, flagLike t = false) P →
  loop set (ofRegions F Q true) P = ofRegions F (Q ++ P) true.
Proof.
  induction P as [|p P IH]; intros F Q HP.
  - simpl. rewrite app_nil_r. reflexivity.
  - inversion HP as [|? ? Hp HP']; subst. simpl.
    rewrite step_regions, Hp, IH by done.
    rewrite <- app_assoc. reflexivity.
Qed.

(** Each iteration adds exactly the token it reads. *)
Lemma step_Permutation st val :
  wf st → flagArgs (step set st val) ≡ₚ flagArgs st ++ [val].
Proof.
  intros Hwf. rewrite (ofRegions_eta st Hwf), step_regions.
  destruct (flagLike val); [|destruct (boolF st)]; unfold ofRegions; simpl.
  - rewrite <- !app_assoc. apply Permutation_app_head, Permutation_app_comm.
  - rewrite app_assoc. reflexivity.
  - rewrite <- !app_assoc. apply Permutation_app_head, Permutation_app_comm.
Qed.

Lemma loop_Permutation toks : ∀ st,
  wf st → flagArgs (loop set st toks) ≡ₚ flagArgs st ++ toks.
Proof.
  induction toks as [|t toks IH]; intros st Hwf; simpl.
  - rewrite app_nil_r. reflexivity.
  - rewrite IH by apply step_wf, Hwf.
    rewrite step_Permutation by done.
    rewrite <- app_assoc. reflexivity.
Qed.

Lemma init_ofRegions : init = ofRegions [] [] true.
Proof. reflexivity. Qed.

Lemma boolOrUnknown_valueTaking f :
  boolOrUnknown set f = true → flagLike f = true ∧ valueTaking set f = false.
Proof.
  unfold boolOrUnknown, valueTaking. destruct (flagLike f); simpl; [|done].
  destruct (Lookup set (flagName f)) as [fl|]; [|done].
  destruct (notBool fl); done.
Qed.

Lemma valueTaking_flagLike f : valueTaking set f = true → flagLike f = true.
Proof. unfold valueTaking. destruct (flagLike f); done. Qed.

Lemma valueTaking_nonflag t : flagLike t = false → valueTaking set t = false.
Proof. intros Ht. unfold valueTaking. by rewrite Ht. Qed.

(** The loop splits the tokens it reads into the two sides, keeping
    the order of each. *)
Lemma loop_sides toks : ∀ F P b,
  flagRegion (loop set (ofRegions F P b) toks) = F ++ flagSide set (negb b) toks
  ∧ positionals (loop set (ofRegions F P b) toks) = P ++ positionalSide set (negb b) toks.
Proof.
  induction toks as [|t toks IH]; intros F P b.
  - cbn [loop fold_left flagSide positionalSide].
    by rewrite flagRegion_ofRegions, positionals_ofRegions, !app_nil_r.
  - cbn [loop fold_left flagSide positionalSide].
    change (fold_left (step set) toks) with (λ st, loop set st toks). cbn beta.
    rewrite step_regions.
    destruct (flagLike t); [|destruct b; cbn [negb]].
    + destruct (IH (F ++ [t]) P (negb (valueTaking set t))) as [-> ->].
      by rewrite negb_involutive, <- app_assoc.
    + destruct (IH F (P ++ [t]) true) as [-> ->].
      by rewrite <- app_assoc.
    + destruct (IH (F ++ [t]) P true) as [-> ->].
      by rewrite <- app_assoc.
Qed.

Lemma reorderTokens_sides toks :
  reorderTokens set toks = flagSide set false toks ++ positionalSide set false toks.
Proof.
  unfold reorderTokens. rewrite init_ofRegions.
  destruct (loop_sides toks [] [] true) as [HF HP]. cbn [negb app] in HF, HP.
  rewrite <- HF, <- HP. unfold flagRegion, positionals. by rewrite take_drop.
Qed.

End ReorderFacts.

(** ** Properties of the input source *)

Section InputSourceFacts.

Import InputSource.

Lemma Split_nonempty name : Split name ≠ [].
Proof.
  destruct name as [|c rest]; simpl; [done|].
  destruct (Ascii.eqb c "."); [done|]. destruct (Split rest); done.
Qed.

Lemma Split_length name : Nat.ltb 1 (length (Split name)) = containsDot name.
Proof.
  induction name as [|c rest IH]; simpl; [done|].
  destruct (Ascii.eqb c ".").
  - pose proof (Split_nonempty rest). destruct (Split rest); done.
  - pose proof (Split_nonempty rest). destruct (Split rest) as [|x l]; [done|].
    exact IH.
Qed.

(** The loop over all segments but the last, followed by the lookup of
    the last, is the walk. *)
Lemma descend_specWalk sections : ∀ node,
  sections ≠ [] →
  match descend node (take (length sections - 1) sections) with
  | None => None
  | Some n =>
      match sections !! (length sections - 1) with
      | Some last => n !! KString last
      | None => None
      end
  end = specWalk node sections.
Proof.
  induction sections as [|s rest IH]; intros node Hne; [done|].
  destruct rest as [|s' rest'].
  - reflexivity.
  - replace (length (s :: s' :: rest') - 1) with (S (length (s' :: rest') - 1))
      by (simpl; lia).
    remember (s' :: rest') as tl eqn:Etl.
    cbn [take descend specWalk]. rewrite lookup_cons_ne_0 by lia.
    replace (Nat.pred (S (length tl - 1))) with (length tl - 1) by lia.
    assert (Htl : tl ≠ []) by (subst tl; done).
    clear Etl. destruct tl as [|x tl']; [done|].
    destruct (node !! KString s) as [child|]; [|reflexivity].
    destruct child; try reflexivity.
    apply IH. done.
Qed.

Lemma nestedVal_spec name tree :
  nestedVal name tree = if containsDot name then specWalk tree (Split name) else None.
Proof.
  unfold nestedVal. rewrite Split_length.
  destruct (containsDot name); [|reflexivity].
  apply descend_specWalk, Split_nonempty.
Qed.

Lemma found_specLookup name tree :
  match tree !! KString name with
  | Some v => Some v
  | None => nestedVal name tree
  end = specLookup tree name.
Proof. unfold specLookup. rewrite nestedVal_spec. reflexivity. Qed.

(** The scalar getters all have the shape: a value found is returned
    when it is of the kind, and reported otherwise. *)
Ltac scalar_getter fsm name :=
  rewrite <- (found_specLookup name (valueMap fsm));
  destruct (valueMap fsm !! KString name) as [[]|]; try reflexivity;
  destruct (nestedVal name (valueMap fsm)) as [[]|]; reflexivity.

Lemma Int_spec fsm name :
  Int fsm name
  = match specLookup (valueMap fsm) name with
    | Some (IInt n) => (n, None)
    | Some v => (0%Z, Some (MismatchedType name "int" (typeName v)))
    | None => (0%Z, None)
    end.
Proof. unfold Int, incorrectTypeForFlagError. scalar_getter fsm name. Qed.

Lemma String_spec fsm name :
  String_ fsm name
  = match specLookup (valueMap fsm) name with
    | Some (IString x) => (x, None)
    | Some v => ("", Some (MismatchedType name "string" (typeName v)))
    | None => ("", None)
    end.
Proof. unfold String_, incorrectTypeForFlagError. scalar_getter fsm name. Qed.

Lemma Bool_spec fsm name :
  Bool fsm name
  = match specLookup (valueMap fsm) name with
    | Some (IBool x) => (x, None)
    | Some v => (false, Some (MismatchedType name "bool" (typeName v)))
    | None => (false, None)
    end.
Proof. unfold Bool, incorrectTypeForFlagError. scalar_getter fsm name. Qed.

Lemma Float64_spec fsm name :
  Float64 fsm name
  = match specLookup (valueMap fsm) name with
    | Some (IFloat64 x) => (x, None)
    | Some v => (0%Z, Some (MismatchedType name "float64" (typeName v)))
    | None => (0%Z, None)
    end.
Proof. unfold Float64, incorrectTypeForFlagError. scalar_getter fsm name. Qed.

Lemma Int64_spec fsm name :
  Int64 fsm name
  = match specLookup (valueMap fsm) name with
    | Some (IInt64 x) => (x, None)
    | Some v => (0%Z, Some (MismatchedType name "int64" (typeName v)))
    | None => (0%Z, None)
    end.
Proof. unfold Int64, incorrectTypeForFlagError. scalar_getter fsm name. Qed.

Lemma Uint_spec fsm name :
  Uint fsm name
  = match specLookup (valueMap fsm) name with
    | Some (IUint x) => (x, None)
    | Some v => (0%Z, Some (MismatchedType name "uint" (typeName v)))
    | None => (0%Z, None)
    end.
Proof. unfold Uint, incorrectTypeForFlagError. scalar_getter fsm name. Qed.

Lemma Uint64_spec fsm name :
  Uint64 fsm name
  = match specLookup (valueMap fsm) name with
    | Some (IUint64 x) => (x, None)
    | Some v => (0%Z, Some (MismatchedType name "uint64" (typeName v)))
    | None => (0%Z, None)
    end.
Proof. unfold Uint64, incorrectTypeForFlagError. scalar_getter fsm name. Qed.


Lemma Duration_spec ParseDuration fsm name :
  Duration ParseDuration fsm name
  = match specLookup (valueMap fsm) name with
    | Some (IDuration d) => (d, None)
    | Some (IString x) =>
        match ParseDuration x with
        | Some d => (d, None)
        | None => (0%Z, Some (MismatchedType name "duration" "string"))
        end
    | Some v => (0%Z, Some (MismatchedType name "duration" (typeName v)))
    | None => (0%Z, None)
    end.
Proof.
  unfold Duration, castDuration, incorrectTypeForFlagError.
  rewrite <- (found_specLookup name (valueMap fsm)).
  destruct (valueMap fsm !! KString name) as [[]|]; simpl;
    try (destruct (ParseDuration _); reflexivity); try reflexivity;
  destruct (nestedVal name (valueMap fsm)) as [[]|]; simpl;
    try (destruct (ParseDuration _); reflexivity); reflexivity.
Qed.

(** What [firstMismatch] finds is the first ill-typed element. *)
Lemma firstMismatch_Some {A} (proj : iface → option A) l : ∀ i v,
  firstMismatch proj l = Some (i, v)
  ↔ l !! i = Some v ∧ proj v = None
    ∧ ∀ j, j < i → ∃ w x, l !! j = Some w ∧ proj w = Some x.
Proof.
  induction l as [|u l IH]; intros i v; simpl.
  - split; [done|]. intros [H _]. done.
  - destruct (proj u) as [x|] eqn:Hu.
    + split.
      * intros H. destruct (firstMismatch proj l) as [[i' v']|] eqn:E; [|done].
        simpl in H. injection H as <- <-.
        destruct (proj1 (IH i' v') eq_refl) as (Hl & Hv & Hlt).
        split; [done|]. split; [done|].
        intros [|j] Hj; [eauto|]. simpl. apply Hlt. lia.
      * intros (Hl & Hv & Hlt). destruct i as [|i].
        -- simpl in Hl. injection Hl as ->. congruence.
        -- simpl in Hl.
           assert (E : firstMismatch proj l = Some (i, v)).
           { apply IH. split; [done|]. split; [done|].
             intros j Hj. apply (Hlt (S j)). lia. }
           rewrite E. reflexivity.
    + split.
      * intros H. injection H as <- <-. split; [done|]. split; [done|]. lia.
      * intros (Hl & Hv & Hlt). destruct i as [|i].
        -- simpl in Hl. by injection Hl as ->.
        -- destruct (Hlt 0) as (w & x & Hw & Hx); [lia|].
           simpl in Hw. injection Hw as ->. congruence.
Qed.

(** Without an ill-typed element, the decoded slice holds the elements
    one for one. *)
Lemma firstMismatch_None {A} (proj : iface → option A) l :
  firstMismatch proj l = None →
  Forall2 (λ v x, proj v = Some x) l (omap proj l).
Proof.
  induction l as [|u l IH]; simpl; [constructor|].
  destruct (proj u) as [x|] eqn:Hu; [|done].
  destruct (firstMismatch proj l); [done|]. intros _.
  constructor; [done|]. by apply IH.
Qed.

Ltac slice_loop IH :=
  let v := fresh "v" in
  intros rest; induction rest as [|v rest IH]; intros i acc; simpl;
  [ rewrite app_nil_r; reflexivity
  | destruct v; simpl;
    try (rewrite Nat.add_0_r; reflexivity);
    rewrite IH;
    match goal with
    | |- context [firstMismatch ?p rest] =>
        destruct (firstMismatch p rest) as [[? ?]|]; simpl
    end;
    [ rewrite Nat.add_succ_r; reflexivity
    | rewrite <- app_assoc; reflexivity ] ].

Lemma intLoop_spec name : ∀ rest i acc,
  intLoop name i rest acc
  = match firstMismatch asInt rest with
    | Some (j, v) => (None, Some (MismatchedType (indexed name (i + j)) "int" (typeName v)))
    | None => (Some (acc ++ omap asInt rest), None)
    end.
Proof. unfold incorrectTypeForFlagError. slice_loop IH. Qed.

Lemma int64Loop_spec name : ∀ rest i acc,
  int64Loop name i rest acc
  = match firstMismatch asInt64 rest with
    | Some (j, v) => (None, Some (MismatchedType (indexed name (i + j)) "int64" (typeName v)))
    | None => (Some (acc ++ omap asInt64 rest), None)
    end.
Proof. unfold incorrectTypeForFlagError. slice_loop IH. Qed.

Lemma float64Loop_spec name : ∀ rest i acc,
  float64Loop name i rest acc
  = match firstMismatch asFloat64 rest with
    | Some (j, v) => (None, Some (MismatchedType (indexed name (i + j)) "float64" (typeName v)))
    | None => (Some (acc ++ omap asFloat64 rest), None)
    end.
Proof. unfold incorrectTypeForFlagError. slice_loop IH. Qed.

Lemma stringLoop_spec name : ∀ rest i acc,
  stringLoop name i rest acc
  = match firstMismatch asString rest with
    | Some (j, v) => (None, Some (MismatchedType (indexed name (i + j)) "string" (typeName v)))
    | None => (Some (acc ++ omap asString rest), None)
    end.
Proof. unfold incorrectTypeForFlagError. slice_loop IH. Qed.

Ltac slice_getter fsm name loop_spec :=
  unfold specSlice, incorrectTypeForFlagError;
  rewrite <- (found_specLookup name (valueMap fsm));
  destruct (valueMap fsm !! KString name) as [[]|];
  try reflexivity; try (rewrite loop_spec; reflexivity);
  destruct (nestedVal name (valueMap fsm)) as [[]|];
  try reflexivity; rewrite loop_spec; reflexivity.

Lemma IntSlice_spec fsm name :
  IntSlice fsm name = specSlice asInt "int" name (specLookup (valueMap fsm) name).
Proof. unfold IntSlice. slice_getter fsm name intLoop_spec. Qed.

Lemma Int64Slice_spec fsm name :
  Int64Slice fsm name = specSlice asInt64 "int64" name (specLookup (valueMap fsm) name).
Proof. unfold Int64Slice. slice_getter fsm name int64Loop_spec. Qed.

Lemma Float64Slice_spec fsm name :
  Float64Slice fsm name = specSlice asFloat64 "float64" name (specLookup (valueMap fsm) name).
Proof. unfold Float64Slice. slice_getter fsm name float64Loop_spec. Qed.

Lemma StringSlice_spec fsm name :
  StringSlice fsm name = specSlice asString "string" name (specLookup (valueMap fsm) name).
Proof. unfold StringSlice. slice_getter fsm name stringLoop_spec. Qed.

End InputSourceFacts.

(** ** Properties of the [Bool] lookup *)

Section ContextBoolFacts.

Import Cli.

(** Induction along the parent chain. *)
Lemma Context_chain_ind (P : Context → Prop) :
  (∀ a cmd fs gs, P (mkContext a cmd fs gs None)) →
  (∀ a cmd fs gs p, P p → P (mkContext a cmd fs gs (Some p))) →
  ∀ c, P c.
Proof.
  intros Hroot Hchild. fix IH 1.
  intros [a cmd fs gs [p|]]; [apply Hchild, IH | apply Hroot].
Qed.

Lemma lookupFlagSet_firstRegistered c name :
  (lookupFlagSet c name ≫= λ fs, flag.Lookup fs name)
  = firstRegistered (Lineage c) name
  ∧ (lookupFlagSet c name = None → firstRegistered (Lineage c) name = None).
Proof.
  induction c as [a cmd fs gs|a cmd fs gs p IH] using Context_chain_ind; simpl.
  - destruct (flag.Lookup fs name) eqn:E; simpl; [by rewrite E|done].
  - destruct (flag.Lookup fs name) eqn:E; simpl; [by rewrite E|]. exact IH.
Qed.

Lemma firstRegistered_None scopes name :
  firstRegistered scopes name = None
  ↔ ∀ scope, scope ∈ scopes → flag.Lookup (flagSet scope) name = None.
Proof.
  induction scopes as [|s rest IH]; simpl.
  - split; [|done]. intros _ scope H. by apply elem_of_nil in H.
  - destruct (flag.Lookup (flagSet s) name) eqn:E.
    + split; [done|]. intros H. rewrite <- E. apply H. by left.
    + rewrite IH. split.
      * intros H scope Hin. apply elem_of_cons in Hin as [->|Hin]; [done|by apply H].
      * intros H scope Hin. apply H. by right.
Qed.

Lemma Bool_firstRegistered c name h :
  ContextBool.Bool c name h
  = match firstRegistered (Lineage c) name with
    | Some f =>
        match Go.ParseBool (FlagPkg.String_ (flag.FValue f) h) with
        | Some parsed => parsed
        | None => false
        end
    | None => false
    end.
Proof.
  destruct (lookupFlagSet_firstRegistered c name) as [Hsome Hnone].
  unfold ContextBool.Bool, ContextBool.lookupBool.
  destruct (lookupFlagSet c name) as [fs|].
  - simpl in Hsome. rewrite <- Hsome. reflexivity.
  - by rewrite Hnone.
Qed.

End ContextBoolFacts.

(** ** Properties of [BoolFlag.Apply] and of the parse of one token *)

Section FlagBoolFacts.

Import flag.

Lemma splitAtEq_bare n :
  FlagPkg.containsEq n = false → FlagPkg.splitAtEq n = (n, None).
Proof.
  induction n as [|c n IH]; simpl; [done|].
  destruct (Ascii.eqb c "="); [done|]. intros H. by rewrite IH.
Qed.

Lemma splitAtEq_assign n text :
  FlagPkg.containsEq n = false →
  FlagPkg.splitAtEq (n +:+ "=" +:+ text) = (n, Some text).
Proof.
  induction n as [|c n IH]; simpl; [done|].
  destruct (Ascii.eqb c "="); [done|]. intros H. by rewrite IH.
Qed.

Lemma goodName_cons n :
  FlagPkg.goodName n →
  ∃ c n', n = String c n' ∧ c ≠ "-"%char ∧ c ≠ "="%char
          ∧ FlagPkg.containsEq n' = false.
Proof.
  intros (Hne & Hdash & Heq). destruct n as [|c n']; [done|].
  exists c, n'. split; [done|].
  cbn [Go.HasPrefix FlagPkg.containsEq] in Hdash, Heq.
  rewrite andb_true_r in Hdash.
  destruct (Ascii.eqb c "=") eqn:E; [done|].
  apply Ascii.eqb_neq in E. apply Ascii.eqb_neq in Hdash.
  repeat split; done.
Qed.

Local Arguments Ascii.eqb : simpl never.
Local Arguments Nat.ltb : simpl nomatch.

(** [parseOne] on the token [-n=text], for a registered boolean flag
    [n]: the text is handed to [Set]. *)
Lemma parseArgs_bool_assign fm h n fl bv text :
  FlagPkg.goodName n →
  fm !! n = Some fl →
  FValue fl = VBool bv →
  FlagPkg.parseArgs fm h ["-" +:+ n +:+ "=" +:+ text]
  = match BoolValue.Set_ bv text h with
    | Done h' =>
        Done (mkFlagSet (<[n := mkFlag (Name fl) (Usage fl) (VBool bv) (DefValue fl)]> fm) [], h')
    | Failed _ => Failed (InvalidBooleanValue text n)
    | Panicked m => Panicked m
    end.
Proof.
  intros Hn Hfl Hv. destruct (goodName_cons n Hn) as (c & n' & -> & Hc1 & Hc2 & Hn').
  apply Ascii.eqb_neq in Hc1, Hc2. rewrite Ascii.eqb_sym in Hc1.
  pose proof Hc2 as Hc3. rewrite Ascii.eqb_sym in Hc3.
  simpl. rewrite (Ascii.eqb_sym c "-"), Hc1. simpl. rewrite Hc1, Hc3. simpl.
  rewrite splitAtEq_assign by done. rewrite Hfl, Hv. simpl.
  destruct (BoolValue.Set_ bv text h); reflexivity.
Qed.

(** [parseOne] on the bare token [-n], for a registered boolean flag
    [n]: [Set] is called with [true]. *)
Lemma parseArgs_bool_bare fm h n fl bv :
  FlagPkg.goodName n →
  fm !! n = Some fl →
  FValue fl = VBool bv →
  FlagPkg.parseArgs fm h ["-" +:+ n]
  = match BoolValue.Set_ bv "true" h with
    | Done h' =>
        Done (mkFlagSet (<[n := mkFlag (Name fl) (Usage fl) (VBool bv) (DefValue fl)]> fm) [], h')
    | Failed _ => Failed (InvalidBooleanFlag n)
    | Panicked m => Panicked m
    end.
Proof.
  intros Hn Hfl Hv. destruct (goodName_cons n Hn) as (c & n' & -> & Hc1 & Hc2 & Hn').
  apply Ascii.eqb_neq in Hc1, Hc2. rewrite Ascii.eqb_sym in Hc1.
  pose proof Hc2 as Hc3. rewrite Ascii.eqb_sym in Hc3.
  simpl. rewrite (Ascii.eqb_sym c "-"), Hc1. simpl. rewrite Hc1, Hc3. simpl.
  rewrite splitAtEq_bare by done. rewrite Hfl, Hv. simpl.
  destruct (BoolValue.Set_ bv "true" h); reflexivity.
Qed.

(** [parseOne] on the token [-n] for a name that is not registered. *)
Lemma parseArgs_undefined fm h n rest :
  FlagPkg.goodName n →
  fm !! n = None →
  n ≠ "help" → n ≠ "h" →
  FlagPkg.parseArgs fm h (("-" +:+ n) :: rest) = Failed (NotDefined n).
Proof.
  intros Hn Hfl Hhelp Hh.
  destruct (goodName_cons n Hn) as (c & n' & -> & Hc1 & Hc2 & Hn').
  apply Ascii.eqb_neq in Hc1, Hc2. rewrite Ascii.eqb_sym in Hc1.
  pose proof Hc2 as Hc3. rewrite Ascii.eqb_sym in Hc3.
  simpl. rewrite (Ascii.eqb_sym c "-"), Hc1. simpl. rewrite Hc1, Hc3. simpl.
  rewrite splitAtEq_bare by done. rewrite Hfl.
  rewrite decide_False; [done|]. intros [?|?]; done.
Qed.

Import FlagBool.

Lemma ParseBool_FormatBool b : Go.ParseBool (Go.FormatBool b) = Some b.
Proof. by destruct b. Qed.

End FlagBoolFacts.

(** C1: applying the reordering pass to its own output changes nothing:
    on the token vector, on the arguments re-fed under a command name,
    and with the flag region built by the first pass kept in place (a
    prefix of the flag region of the second pass). *)
Theorem reorder_idempotent (set : flag.FlagSet) (v : list string) :
  Reorder.reorderTokens set (Reorder.reorderTokens set v) = Reorder.reorderTokens set v
  ∧ (∀ c c', Reorder.reorder set (c' :: Reorder.reorder set (c :: v))
             = Reorder.reorder set (c :: v))
  ∧ Reorder.flagRegion (Reorder.loop set Reorder.init v)
      `prefix_of`
    Reorder.flagRegion (Reorder.loop set Reorder.init (Reorder.reorderTokens set v)).
Proof.
  assert (Htwice :
    Reorder.reorderTokens set (Reorder.reorderTokens set v) = Reorder.reorderTokens set v
    ∧ Reorder.flagRegion (Reorder.loop set Reorder.init v)
        `prefix_of`
      Reorder.flagRegion (Reorder.loop set Reorder.init (Reorder.reorderTokens set v))).
  { unfold Reorder.reorderTokens. rewrite init_ofRegions.
    pose proof (flagRegion_fixed set v true) as Hfix.
    pose proof (positionals_nonflag set v true) as Hpos.
    pose proof (loop_wf set v _ (wf_ofRegions [] [] true)) as Hwf.
    destruct (wf_regions _ Hwf) as (F & P & b & E).
    rewrite E in Hfix, Hpos |- *. clear E Hwf.
    rewrite flagRegion_ofRegions in *. rewrite positionals_ofRegions in Hpos.
    cbn [Reorder.ofRegions Reorder.flagArgs Reorder.boolF] in Hfix |- *.
    fold (Reorder.ofRegions F [] b) in Hfix.
    rewrite loop_app, Hfix.
    destruct P as [|p P].
    - simpl. rewrite flagRegion_ofRegions. done.
    - inversion Hpos as [|? ? Hp HP]; subst. simpl.
      rewrite step_regions, Hp. destruct b.
      + rewrite loop_positionals by done.
        rewrite flagRegion_ofRegions. done.
      + rewrite loop_positionals by done.
        rewrite flagRegion_ofRegions. simpl. split.
        * rewrite <- app_assoc. reflexivity.
        * by apply prefix_app_r. }
  destruct Htwice as [Heq Hpre].
  split; [exact Heq|]. split; [|exact Hpre].
  intros c c'. unfold Reorder.reorder. simpl. rewrite !drop_0. exact Heq.
Qed.

(** C2, as stated, fails: with [x] a registered value-taking flag the
    arguments [cmd a b -x] are reordered to [-x a b].  No token follows
    [-x] in the input and the non-flag token nearest to it is [b], yet
    in the output [-x] is not left unpaired (it is not the last token)
    and it stands directly before [a], not before [b]; the flag parser
    then takes [a] as the value of [x] instead of reporting a missing
    value. *)
Lemma reorder_trailing_flag_counterexample :
  Reorder.valueTaking Reorder.sampleSet "-x" = true
  ∧ Reorder.reorder Reorder.sampleSet ["cmd"; "a"; "b"; "-x"] = ["-x"; "a"; "b"]
  ∧ Reorder.pairedWith (Reorder.reorder Reorder.sampleSet ["cmd"; "a"; "b"; "-x"]) "-x" "a"
  ∧ ¬ Reorder.pairedWith (Reorder.reorder Reorder.sampleSet ["cmd"; "a"; "b"; "-x"]) "-x" "b"
  ∧ last (Reorder.reorder Reorder.sampleSet ["cmd"; "a"; "b"; "-x"]) ≠ Some "-x"
  ∧ match FlagPkg.Parse Reorder.sampleSet emptyHeap
            (Reorder.reorder Reorder.sampleSet ["cmd"; "a"; "b"; "-x"]) with
    | Done (parsed, _) => (flag.FValue <$> flag.Lookup parsed "x", flag.Args parsed)
    | _ => (None, [])
    end = (Some (flag.VOther flag.stringValue "a"), ["b"]).
Proof.
  assert (E : Reorder.reorder Reorder.sampleSet ["cmd"; "a"; "b"; "-x"] = ["-x"; "a"; "b"])
    by (vm_compute; reflexivity).
  rewrite E. split; [vm_compute; reflexivity|]. split; [reflexivity|].
  split; [exists [], ["b"]; reflexivity|].
  split; [|split; [discriminate|vm_compute; reflexivity]].
  intros (o1 & o2 & H).
  destruct o1 as [|a [|b [|c o1]]]; simpl in H; try discriminate.
  destruct o1; discriminate.
Qed.

(** C2, amended: the output for a vector that holds the registered
    value-taking flag token [f] is, in this order: the flag side of the
    tokens before [f] (every flag-like token, and every token that
    directly follows a value-taking flag token), [f], the token that
    directly followed [f] in the input whatever it is, the flag side of
    the tokens after that one, and then the positional side of the
    whole input; every side keeps the order of the input.  So when [f]
    is the last input token it closes the flag region and is directly
    followed by the positional tokens displaced from before it, in
    their original order.  The output is a permutation of the input
    tokens. *)
Theorem reorder_value_taking (set : flag.FlagSet) (pre post : list string) (f : string) :
  Reorder.valueTaking set f = true →
  Reorder.reorderTokens set (pre ++ f :: post) ≡ₚ pre ++ f :: post
  ∧ (∀ c, Reorder.reorder set (c :: pre ++ f :: post) ≡ₚ pre ++ f :: post)
  ∧ (∀ c, Reorder.reorder set (c :: pre ++ f :: post)
          = Reorder.reorderTokens set (pre ++ f :: post))
  ∧ Reorder.flagRegion (Reorder.loop set Reorder.init pre) = Reorder.flagSide set false pre
  ∧ Reorder.positionals (Reorder.loop set Reorder.init pre)
    = Reorder.positionalSide set false pre
  ∧ match post with
    | t :: rest =>
        Reorder.reorderTokens set (pre ++ f :: post)
        = Reorder.flagSide set false pre
          ++ f :: t :: Reorder.flagSide set (Reorder.valueTaking set t) rest
          ++ Reorder.positionalSide set false pre
          ++ Reorder.positionalSide set (Reorder.valueTaking set t) rest
    | [] =>
        Reorder.reorderTokens set (pre ++ f :: post)
        = Reorder.flagSide set false pre ++ f :: Reorder.positionalSide set false pre
    end.
Proof.
  intros Hvt.
  assert (Hperm : Reorder.reorderTokens set (pre ++ f :: post) ≡ₚ pre ++ f :: post).
  { unfold Reorder.reorderTokens.
    rewrite (loop_Permutation set _ _ init_wf). reflexivity. }
  split; [exact Hperm|]. split.
  { intros c. unfold Reorder.reorder. simpl. rewrite drop_0. exact Hperm. }
  split.
  { intros c. unfold Reorder.reorder. simpl. by rewrite drop_0. }
  destruct (loop_sides set pre [] [] true) as [HF HP].
  rewrite <- init_ofRegions in HF, HP. cbn [negb app] in HF, HP.
  split; [exact HF|]. split; [exact HP|].
  pose proof (valueTaking_flagLike set f Hvt) as Hfl.
  unfold Reorder.reorderTokens. rewrite loop_app.
  pose proof (loop_wf set pre _ init_wf) as Hwf.
  rewrite (ofRegions_eta _ Hwf), HF, HP.
  cbn [Reorder.loop fold_left].
  rewrite step_regions, Hfl, Hvt. cbn [negb].
  destruct post as [|t rest].
  - cbn [fold_left Reorder.ofRegions Reorder.flagArgs].
    rewrite <- app_assoc. reflexivity.
  - cbn [fold_left].
    change (fold_left (Reorder.step set) rest) with (λ st, Reorder.loop set st rest).
    cbn beta. rewrite step_regions.
    assert (E : ∀ F P,
      (if Reorder.flagLike t
       then Reorder.ofRegions F P (negb (Reorder.valueTaking set t))
       else Reorder.ofRegions F P true)
      = Reorder.ofRegions F P (negb (Reorder.valueTaking set t))).
    { intros F P. destruct (Reorder.flagLike t) eqn:Ht; [done|].
      by rewrite (valueTaking_nonflag set t Ht). }
    rewrite E.
    pose proof (loop_wf set rest _
                  (wf_ofRegions ((Reorder.flagSide set false pre ++ [f]) ++ [t])
                     (Reorder.positionalSide set false pre)
                     (negb (Reorder.valueTaking set t)))) as Hwf'.
    destruct (loop_sides set rest
                ((Reorder.flagSide set false pre ++ [f]) ++ [t])
                (Reorder.positionalSide set false pre)
                (negb (Reorder.valueTaking set t))) as [HF' HP'].
    rewrite negb_involutive in HF', HP'.
    rewrite (ofRegions_eta _ Hwf'), HF', HP'.
    cbn [Reorder.ofRegions Reorder.flagArgs].
    rewrite <- !app_assoc. reflexivity.
Qed.

Lemma reorder_value_taking_witness :
  Reorder.valueTaking Reorder.sampleSet "-x" = true
  ∧ Reorder.reorderTokens Reorder.sampleSet (["a"; "-v"; "b"] ++ "-x" :: ["1"; "c"])
    = ["-v"; "-x"; "1"; "a"; "b"; "c"]
  ∧ Reorder.reorderTokens Reorder.sampleSet (["a"; "-v"; "b"] ++ "-x" :: [])
    = ["-v"; "-x"; "a"; "b"].
Proof.
  assert (Hx : Reorder.valueTaking Reorder.sampleSet "-x" = true)
    by (vm_compute; reflexivity).
  split; [exact Hx|]. split.
  - destruct (reorder_value_taking Reorder.sampleSet ["a"; "-v"; "b"] ["1"; "c"] "-x" Hx)
      as (_ & _ & _ & _ & _ & ->).
    vm_compute. reflexivity.
  - destruct (reorder_value_taking Reorder.sampleSet ["a"; "-v"; "b"] [] "-x" Hx)
      as (_ & _ & _ & _ & _ & ->).
    vm_compute. reflexivity.
Defined.

(** C6: a non-flag token that follows a flag-like token naming a
    registered boolean flag, or no registered flag, is not placed next
    to that flag token in the flag region: it is appended to the
    positional region, after the positionals met before it and before
    those met after it, and the flag token itself stays in the flag
    region in its original order. *)
Theorem reorder_bool_or_unknown (set : flag.FlagSet) (pre post : list string) (f t : string) :
  Reorder.boolOrUnknown set f = true →
  Reorder.flagLike t = false →
  Reorder.loop set Reorder.init (pre ++ f :: t :: post)
  = Reorder.ofRegions
      (Reorder.flagRegion (Reorder.loop set Reorder.init pre)
         ++ f :: Reorder.flagRegion (Reorder.loop set Reorder.init post))
      (Reorder.positionals (Reorder.loop set Reorder.init pre)
         ++ t :: Reorder.positionals (Reorder.loop set Reorder.init post))
      (Reorder.boolF (Reorder.loop set Reorder.init post)).
Proof.
  intros Hbu Ht. destruct (boolOrUnknown_valueTaking set f Hbu) as [Hfl Hvt].
  rewrite loop_app.
  pose proof (loop_wf set pre _ init_wf) as Hwf.
  destruct (wf_regions _ Hwf) as (F & P & b & E). rewrite E. clear E Hwf.
  rewrite flagRegion_ofRegions, positionals_ofRegions. simpl.
  rewrite step_regions, Hfl, Hvt. simpl.
  rewrite step_regions, Ht. rewrite loop_frame, init_ofRegions.
  rewrite <- !app_assoc. reflexivity.
Qed.

Lemma reorder_bool_or_unknown_witness :
  Reorder.boolOrUnknown Reorder.sampleSet "-v" = true
  ∧ Reorder.boolOrUnknown Reorder.sampleSet "--zzz" = true
  ∧ Reorder.reorderTokens Reorder.sampleSet (["a"] ++ "-v" :: "b" :: ["--zzz"; "c"])
    = ["-v"; "--zzz"; "a"; "b"; "c"].
Proof.
  split; [vm_compute; reflexivity|]. split; [vm_compute; reflexivity|].
  unfold Reorder.reorderTokens.
  rewrite (reorder_bool_or_unknown Reorder.sampleSet ["a"] ["--zzz"; "c"] "-v" "b");
    vm_compute; reflexivity.
Defined.

(** C9, as stated, fails for the token [-]: it has the prefix [-], so
    the loop classifies it as flag-like and moves it into the flag
    region, ahead of a positional that preceded it. *)
Lemma dash_token_counterexample :
  Reorder.flagLike "-" = true
  ∧ Reorder.reorder flag.NewFlagSet ["cmd"; "a"; "-"] = ["-"; "a"]
  ∧ Reorder.flagRegion (Reorder.loop flag.NewFlagSet Reorder.init ["a"; "-"]) = ["-"].
Proof. vm_compute. done. Qed.

(** C9, amended: the empty string is a non-flag token: it is never
    classified as flag-like, and it goes to the positional region unless
    it directly follows a value-taking flag, whose companion it then
    becomes.  The token [-] is classified as flag-like: it goes to the
    flag region, and the name looked up for it is the empty string. *)
Theorem empty_and_dash_tokens (set : flag.FlagSet) (F P : list string) (b : bool) :
  Reorder.flagLike "" = false
  ∧ Reorder.step set (Reorder.ofRegions F P true) "" = Reorder.ofRegions F (P ++ [""]) true
  ∧ Reorder.step set (Reorder.ofRegions F P false) "" = Reorder.ofRegions (F ++ [""]) P true
  ∧ Reorder.flagLike "-" = true
  ∧ Reorder.flagName "-" = ""
  ∧ Reorder.step set (Reorder.ofRegions F P b) "-"
    = Reorder.ofRegions (F ++ ["-"]) P (negb (Reorder.valueTaking set "-")).
Proof.
  split; [reflexivity|].
  split; [by apply step_positional|].
  split; [by apply step_value|].
  split; [reflexivity|]. split; [reflexivity|].
  by apply step_flagLike.
Qed.

(** C10: the [Bool] lookup always returns a boolean: false when no
    context of the chain, from the context itself out to its
    ancestors, registers the name; otherwise the value parsed from the
    string of the flag registered in the innermost such context, and
    false when that string does not parse as a boolean. *)
Theorem Bool_total (c : Cli.Context) (name : string) (h : Heap) :
  ContextBool.Bool c name h
  = match Cli.firstRegistered (Cli.Lineage c) name with
    | Some f =>
        match Go.ParseBool (FlagPkg.String_ (flag.FValue f) h) with
        | Some parsed => parsed
        | None => false
        end
    | None => false
    end
  ∧ (Cli.firstRegistered (Cli.Lineage c) name = None
     ↔ ∀ scope, scope ∈ Cli.Lineage c → flag.Lookup (Cli.flagSet scope) name = None)
  ∧ ((∀ scope, scope ∈ Cli.Lineage c → flag.Lookup (Cli.flagSet scope) name = None)
     → ContextBool.Bool c name h = false).
Proof.
  split; [apply Bool_firstRegistered|]. split; [apply firstRegistered_None|].
  intros H. rewrite Bool_firstRegistered.
  apply firstRegistered_None in H. by rewrite H.
Qed.


(** C7: each slice getter decodes the stored sequence element by
    element; the first element that is not of the element kind (every
    element before it is) ends the decoding with an error that names
    the key together with the index of that element, and the slice
    returned is nil. *)
Theorem slice_getters (fsm : InputSource.mapInputSource) (name : string) :
  InputSource.IntSlice fsm name
  = InputSource.specSlice InputSource.asInt "int" name
      (InputSource.specLookup (InputSource.valueMap fsm) name)
  ∧ InputSource.Int64Slice fsm name
    = InputSource.specSlice InputSource.asInt64 "int64" name
        (InputSource.specLookup (InputSource.valueMap fsm) name)
  ∧ InputSource.Float64Slice fsm name
    = InputSource.specSlice InputSource.asFloat64 "float64" name
        (InputSource.specLookup (InputSource.valueMap fsm) name)
  ∧ InputSource.StringSlice fsm name
    = InputSource.specSlice InputSource.asString "string" name
        (InputSource.specLookup (InputSource.valueMap fsm) name)
  ∧ (∀ A (proj : InputSource.iface → option A) l i v,
       InputSource.firstMismatch proj l = Some (i, v)
       ↔ l !! i = Some v ∧ proj v = None
         ∧ ∀ j, j < i → ∃ w x, l !! j = Some w ∧ proj w = Some x)
  ∧ InputSource.IntSlice
      (InputSource.mkMapInputSource ""
         {[ InputSource.KString "k" :=
              InputSource.ISlice [InputSource.IInt 1; InputSource.IString "x";
                                  InputSource.IInt 3] ]})
      "k"
    = (None, Some (MismatchedType "k[1]" "int" "string")).
Proof.
  split; [apply IntSlice_spec|]. split; [apply Int64Slice_spec|].
  split; [apply Float64Slice_spec|]. split; [apply StringSlice_spec|].
  split; [intros; apply firstMismatch_Some|].
  vm_compute. reflexivity.
Qed.

(** C5: a command with at least one subcommand, or with a [Before]
    hook, is run as an internal node whatever its [Action]: [Run] is
    the call of [RunAsSubcommand] on the nested application built by
    [startApp] (the command's subcommands, flags and hook, and its
    action or the help action), and nothing of the leaf path takes
    part: the result is the same under any other flag-set builder,
    normaliser, help and completion checks and built-in flags. *)
Theorem internal_node_dispatch
    (NewApp : Cli.App) (helpAction : option Cli.handler)
    (HelpFlag BashCompletionFlag : Cli.Flag)
    (flagSetOf : string → list Cli.Flag → Heap → flag.FlagSet * Heap)
    (normalizeFlags : list Cli.Flag → flag.FlagSet → option error)
    (checkCompletions checkHelp : Cli.Context → string → bool)
    (RunAsSubcommand : Cli.App → Cli.Context → Heap → CommandRun.Result)
    (c : Cli.Command) (ctx : Cli.Context) (h : Heap) :
  CommandRun.internal c →
  CommandRun.Run NewApp helpAction HelpFlag BashCompletionFlag flagSetOf
    normalizeFlags checkCompletions checkHelp RunAsSubcommand c ctx h
  = RunAsSubcommand (CommandRun.subApp NewApp helpAction c ctx) ctx h
  ∧ Cli.AppCommands (CommandRun.subApp NewApp helpAction c ctx) = Cli.Subcommands c
  ∧ Cli.AppFlags (CommandRun.subApp NewApp helpAction c ctx) = Cli.Flags c
  ∧ Cli.AppBefore (CommandRun.subApp NewApp helpAction c ctx) = Cli.Before c
  ∧ Cli.AppAction (CommandRun.subApp NewApp helpAction c ctx)
    = match Cli.Action c with Some a => Some a | None => helpAction end
  ∧ ∀ HelpFlag' BashCompletionFlag' flagSetOf' normalizeFlags' checkCompletions' checkHelp',
      CommandRun.Run NewApp helpAction HelpFlag' BashCompletionFlag' flagSetOf'
        normalizeFlags' checkCompletions' checkHelp' RunAsSubcommand c ctx h
      = CommandRun.Run NewApp helpAction HelpFlag BashCompletionFlag flagSetOf
          normalizeFlags checkCompletions checkHelp RunAsSubcommand c ctx h.
Proof.
  intros Hint.
  assert (Htest : Nat.ltb 0 (length (Cli.Subcommands c))
                  || bool_decide (Cli.Before c ≠ None) = true).
  { destruct Hint as [Hlen|Hbefore].
    - apply Nat.ltb_lt in Hlen. by rewrite Hlen.
    - rewrite (bool_decide_eq_true_2 _ Hbefore). by rewrite orb_true_r. }
  unfold CommandRun.Run. rewrite Htest. unfold CommandRun.startApp.
  repeat split; reflexivity.
Qed.

Lemma internal_node_dispatch_witness :
  CommandRun.internal CommandRun.parentCommand
  ∧ CommandRun.Run CommandRun.sampleApp None (Cli.FOther ["help"]) (Cli.FOther ["c"])
      CommandRun.emptyFlagSetOf CommandRun.noNormalizeError
      CommandRun.neverChecked CommandRun.neverChecked CommandRun.recordSubcommand
      CommandRun.parentCommand (CommandRun.contextWith ["parent"; "run"]) emptyHeap
    = CommandRun.recordSubcommand
        (CommandRun.subApp CommandRun.sampleApp None CommandRun.parentCommand
           (CommandRun.contextWith ["parent"; "run"]))
        (CommandRun.contextWith ["parent"; "run"]) emptyHeap.
Proof.
  assert (Hint : CommandRun.internal CommandRun.parentCommand).
  { left. simpl. lia. }
  split; [exact Hint|].
  apply (internal_node_dispatch CommandRun.sampleApp None (Cli.FOther ["help"])
           (Cli.FOther ["c"]) CommandRun.emptyFlagSetOf CommandRun.noNormalizeError
           CommandRun.neverChecked CommandRun.neverChecked CommandRun.recordSubcommand
           CommandRun.parentCommand (CommandRun.contextWith ["parent"; "run"])
           emptyHeap Hint).
Defined.

(** C8, at a failing input: the leaf command [run] has
    [SkipFlagParsing] set, an action and no flags, and is given the
    arguments [run -x 1].  The tokens after the command name are still
    handed to [set.Parse]; [-x] is parsed as a flag, the parse fails
    with "flag provided but not defined", and the action is never
    called.  More generally, with [SkipFlagParsing] set the arguments
    parsed are those after the command name, not reordered. *)
Theorem skip_flag_parsing_still_parses
    (NewApp : Cli.App) (helpAction : option Cli.handler)
    (HelpFlag BashCompletionFlag : Cli.Flag)
    (flagSetOf : string → list Cli.Flag → Heap → flag.FlagSet * Heap)
    (normalizeFlags : list Cli.Flag → flag.FlagSet → option error)
    (checkCompletions checkHelp : Cli.Context → string → bool)
    (RunAsSubcommand : Cli.App → Cli.Context → Heap → CommandRun.Result)
    (h : Heap) :
  flag.Lookup (flagSetOf "run" [] h).1 "x" = None →
  let ctx := CommandRun.contextWith ["run"; "-x"; "1"] in
  let r := CommandRun.Run NewApp helpAction HelpFlag BashCompletionFlag flagSetOf
             normalizeFlags checkCompletions checkHelp RunAsSubcommand
             CommandRun.passThrough ctx h in
  Cli.SkipFlagParsing CommandRun.passThrough = true
  ∧ CommandRun.parsedArgs CommandRun.passThrough ctx (flagSetOf "run" [] h).1
    = ["-x"; "1"]
  ∧ CommandRun.returned r = Failed (NotDefined "x")
  ∧ CommandRun.events r
    = [CommandRun.Printf ("Incorrect Usage." +:+ Go.newline +:+ Go.newline);
       CommandRun.ShowCommandHelp ctx "run"; CommandRun.Println ""]
  ∧ ¬ CommandRun.callsAction r.
Proof.
  intros Hx ctx r.
  assert (Hr : r = CommandRun.mkResult
                     [CommandRun.Printf ("Incorrect Usage." +:+ Go.newline +:+ Go.newline);
                      CommandRun.ShowCommandHelp ctx "run"; CommandRun.Println ""]
                     (Failed (NotDefined "x")) (flagSetOf "run" [] h).2).
  { subst r. unfold CommandRun.Run, CommandRun.runLeaf.
    change (CommandRun.leafFlags HelpFlag BashCompletionFlag CommandRun.passThrough ctx)
      with (@nil Cli.Flag).
    change (Cli.Name CommandRun.passThrough) with "run".
    cbn [Cli.Subcommands CommandRun.passThrough length Nat.ltb Nat.leb Cli.Before orb].
    rewrite bool_decide_eq_false_2 by (intros H; by apply H).
    destruct (flagSetOf "run" [] h) as [set h1] eqn:E. simpl in Hx.
    change (CommandRun.parsedArgs CommandRun.passThrough ctx set)
      with (("-" +:+ "x") :: ["1"]).
    unfold FlagPkg.Parse.
    rewrite parseArgs_undefined; [reflexivity| |exact Hx|done|done].
    repeat split; done. }
  rewrite Hr. cbn [CommandRun.events CommandRun.returned].
  change (CommandRun.parsedArgs CommandRun.passThrough ctx (flagSetOf "run" [] h).1)
    with ["-x"; "1"].
  repeat split; try reflexivity.
  intros (a & context & Hin). simpl in Hin.
  repeat (apply elem_of_cons in Hin as [Hin|Hin]; [discriminate Hin|]).
  by apply elem_of_nil in Hin.
Qed.

Lemma skip_flag_parsing_still_parses_witness :
  flag.Lookup (CommandRun.emptyFlagSetOf "run" [] emptyHeap).1 "x" = None
  ∧ CommandRun.returned
      (CommandRun.Run CommandRun.sampleApp None (Cli.FOther ["help"]) (Cli.FOther ["c"])
         CommandRun.emptyFlagSetOf CommandRun.noNormalizeError
         CommandRun.neverChecked CommandRun.neverChecked CommandRun.recordSubcommand
         CommandRun.passThrough (CommandRun.contextWith ["run"; "-x"; "1"]) emptyHeap)
    = Failed (NotDefined "x").
Proof.
  split; [reflexivity|].
  apply (skip_flag_parsing_still_parses CommandRun.sampleApp None (Cli.FOther ["help"])
           (Cli.FOther ["c"]) CommandRun.emptyFlagSetOf CommandRun.noNormalizeError
           CommandRun.neverChecked CommandRun.neverChecked CommandRun.recordSubcommand
           emptyHeap).
  reflexivity.
Defined.

(** * Further properties *)

(** ** The reordering loop *)

Section ReorderMore.

Import flag Reorder.

Variable set : FlagSet.

Lemma filter_flagLike_nonflag (P : list string) :
  Forall (λ t, flagLike t = false) P → filter (λ t, flagLike t = true) P = [].
Proof.
  induction 1 as [|t P Ht _ IH]; [done|].
  rewrite filter_cons_False; [done|]. by rewrite Ht.
Qed.

Lemma loop_flag_order v : ∀ F P b,
  filter (λ t, flagLike t = true) (flagRegion (loop set (ofRegions F P b) v))
  = filter (λ t, flagLike t = true) F ++ filter (λ t, flagLike t = true) v.
Proof.
  induction v as [|t v IH]; intros F P b; simpl.
  - by rewrite flagRegion_ofRegions, app_nil_r.
  - rewrite step_regions. destruct (flagLike t) eqn:Ht; [|destruct b].
    + rewrite IH, filter_app, filter_cons_True, <- app_assoc by done.
      rewrite filter_cons_True by done. reflexivity.
    + rewrite IH, filter_cons_False; [done|]. by rewrite Ht.
    + rewrite IH, filter_app, (filter_cons_False _ t), filter_nil, app_nil_r.
      * rewrite filter_cons_False; [done|]. by rewrite Ht.
      * by rewrite Ht.
Qed.

Lemma loop_no_value_flags v : ∀ F P,
  Forall (λ t, valueTaking set t = false) v →
  loop set (ofRegions F P true) v
  = ofRegions (F ++ filter (λ t, flagLike t = true) v)
              (P ++ filter (λ t, flagLike t = false) v) true.
Proof.
  induction v as [|t v IH]; intros F P Hv; simpl.
  - by rewrite !app_nil_r.
  - inversion Hv as [|? ? Ht Hv']; subst.
    rewrite step_regions, Ht. destruct (flagLike t) eqn:Hfl; simpl.
    + rewrite IH by done. rewrite filter_cons_True by done.
      rewrite filter_cons_False by (by rewrite Hfl).
      by rewrite <- app_assoc.
    + rewrite IH by done. rewrite filter_cons_False by (by rewrite Hfl).
      rewrite filter_cons_True by done. by rewrite <- app_assoc.
Qed.

Lemma from_option_last_cons {A B} (f : A → B) (F : list A) : ∀ d u,
  from_option f d (last (u :: F)) = from_option f (f u) (last F).
Proof.
  induction F as [|w F IH]; intros d u; [done|].
  rewrite last_cons_cons. rewrite (IH d w), (IH (f u) w). reflexivity.
Qed.

Lemma pairedRegion_snoc F : ∀ p t,
  pairedRegion set p (F ++ [t])
  = pairedRegion set p F
    && (flagLike t || from_option (valueTaking set) p (last F)).
Proof.
  induction F as [|u F IH]; intros p t.
  - simpl. destruct (flagLike t); simpl; [done|]. by rewrite andb_true_r.
  - cbn [app pairedRegion]. rewrite from_option_last_cons.
    destruct (flagLike u) eqn:Hu.
    + by rewrite IH.
    + rewrite IH, andb_assoc. unfold valueTaking at 3. rewrite Hu. reflexivity.
Qed.

(** The shape of every state the loop reaches from the start. *)
Lemma loop_shape v :
  pairedRegion set false (flagRegion (loop set init v)) = true
  ∧ boolF (loop set init v)
    = negb (from_option (valueTaking set) false (last (flagRegion (loop set init v)))).
Proof.
  induction v as [|t v IH] using rev_ind.
  - done.
  - rewrite loop_snoc.
    pose proof (loop_wf set v _ init_wf) as Hwf.
    destruct (wf_regions _ Hwf) as (F & P & b & E). rewrite E in IH |- *.
    rewrite flagRegion_ofRegions in IH. cbn [boolF ofRegions] in IH.
    destruct IH as [Hp Hb]. rewrite step_regions.
    destruct (flagLike t) eqn:Ht; [|destruct b eqn:Eb].
    + rewrite flagRegion_ofRegions. cbn [boolF ofRegions].
      rewrite pairedRegion_snoc, Hp, Ht, last_snoc. done.
    + rewrite flagRegion_ofRegions. done.
    + rewrite flagRegion_ofRegions. cbn [boolF ofRegions].
      rewrite pairedRegion_snoc, Hp, Ht, last_snoc. cbn [from_option].
      unfold valueTaking at 2. rewrite Ht. simpl.
      destruct (from_option (valueTaking set) false (last F)); done.
Qed.

End ReorderMore.

(** X1: the reordering pass neither drops nor duplicates a token: its
    output is a permutation of its input, of the same length; and the
    flag-like tokens keep their relative order. *)
Theorem reorder_keeps_tokens (set : flag.FlagSet) (v : list string) :
  Reorder.reorderTokens set v ≡ₚ v
  ∧ length (Reorder.reorderTokens set v) = length v
  ∧ filter (λ t, Reorder.flagLike t = true) (Reorder.reorderTokens set v)
    = filter (λ t, Reorder.flagLike t = true) v.
Proof.
  assert (Hperm : Reorder.reorderTokens set v ≡ₚ v).
  { unfold Reorder.reorderTokens. by rewrite (loop_Permutation set _ _ init_wf). }
  split; [exact Hperm|]. split; [by rewrite Hperm|].
  unfold Reorder.reorderTokens.
  pose proof (loop_wf set v _ init_wf) as Hwf.
  pose proof (positionals_nonflag set v true) as Hpos.
  pose proof (loop_flag_order set v [] [] true) as Hord.
  rewrite <- init_ofRegions in Hpos, Hord.
  rewrite (ofRegions_eta _ Hwf) at 1. cbn [Reorder.flagArgs Reorder.ofRegions].
  rewrite filter_app, Hord, (filter_flagLike_nonflag _ Hpos), app_nil_r.
  reflexivity.
Qed.

(** X2: when no token of the vector is a registered value-taking flag,
    the pass is a stable partition: the flag-like tokens in their
    order, then the other tokens in theirs; a vector without any
    flag-like token is returned as it is. *)
Theorem reorder_stable_partition (set : flag.FlagSet) (v : list string) :
  Forall (λ t, Reorder.valueTaking set t = false) v →
  Reorder.reorderTokens set v
  = filter (λ t, Reorder.flagLike t = true) v
    ++ filter (λ t, Reorder.flagLike t = false) v
  ∧ (Forall (λ t, Reorder.flagLike t = false) v → Reorder.reorderTokens set v = v).
Proof.
  intros Hv.
  assert (E : Reorder.reorderTokens set v
              = filter (λ t, Reorder.flagLike t = true) v
                ++ filter (λ t, Reorder.flagLike t = false) v).
  { unfold Reorder.reorderTokens. rewrite init_ofRegions.
    rewrite (loop_no_value_flags set v [] [] Hv). reflexivity. }
  split; [exact E|]. intros Hpos. rewrite E.
  rewrite (filter_flagLike_nonflag _ Hpos). simpl.
  clear E Hv. induction Hpos as [|t v Ht _ IH]; [done|].
  rewrite filter_cons_True by done. by rewrite IH.
Qed.

Lemma reorder_stable_partition_witness :
  Forall (λ t, Reorder.valueTaking Reorder.sampleSet t = false) ["a"; "-v"; "b"; "--zzz"]
  ∧ Reorder.reorderTokens Reorder.sampleSet ["a"; "-v"; "b"; "--zzz"]
    = ["-v"; "--zzz"; "a"; "b"].
Proof.
  assert (H : Forall (λ t, Reorder.valueTaking Reorder.sampleSet t = false)
                ["a"; "-v"; "b"; "--zzz"]).
  { repeat constructor. }
  split; [exact H|].
  rewrite (proj1 (reorder_stable_partition Reorder.sampleSet _ H)).
  reflexivity.
Defined.

(** X3: in every state the loop reaches, [flagIdx] is within
    [flagArgs] (so the slice expressions of the insertion never go out
    of range), the positional region holds non-flag tokens only, and
    in the flag region a non-flag token only ever stands directly
    after a registered value-taking flag token. *)
Theorem reorder_regions_shape (set : flag.FlagSet) (v : list string) :
  Reorder.wf (Reorder.loop set Reorder.init v)
  ∧ Forall (λ t, Reorder.flagLike t = false)
      (Reorder.positionals (Reorder.loop set Reorder.init v))
  ∧ Reorder.pairedRegion set false
      (Reorder.flagRegion (Reorder.loop set Reorder.init v)) = true.
Proof.
  split; [apply loop_wf, init_wf|]. split.
  - rewrite init_ofRegions. apply positionals_nonflag.
  - apply loop_shape.
Qed.

(** ** The reordering pass followed by the flag parser *)

Section ParseMore.

Import flag.

Local Arguments Ascii.eqb : simpl never.
Local Arguments Nat.ltb : simpl nomatch.

(** [parseOne] on a token without the prefix [-]: parsing stops. *)
Lemma parseArgs_stop fm h t rest :
  Reorder.flagLike t = false →
  FlagPkg.parseArgs fm h (t :: rest) = Done (mkFlagSet fm (t :: rest), h).
Proof.
  intros Ht. unfold Reorder.flagLike in Ht. cbn [FlagPkg.parseArgs].
  rewrite Ht. cbn [negb]. by rewrite orb_true_r.
Qed.

(** [parseOne] on the token [-n] with more arguments behind it. *)
Lemma parseArgs_flag_cons fm h n rest :
  FlagPkg.goodName n →
  FlagPkg.parseArgs fm h (("-" +:+ n) :: rest)
  = match fm !! n with
    | None =>
        if decide (n = "help" ∨ n = "h") then Failed ErrHelp
        else Failed (NotDefined n)
    | Some fl =>
        match FlagPkg.IsBoolFlag (FValue fl) with
        | Some true =>
            match FlagPkg.Set_ (FValue fl) "true" h with
            | Done (val', h') =>
                FlagPkg.parseArgs
                  (<[n := mkFlag (Name fl) (Usage fl) val' (DefValue fl)]> fm) h' rest
            | Failed _ => Failed (InvalidBooleanFlag n)
            | Panicked m => Panicked m
            end
        | _ =>
            match rest with
            | [] => Failed (NeedsArgument n)
            | v :: rest' =>
                match FlagPkg.Set_ (FValue fl) v h with
                | Done (val', h') =>
                    FlagPkg.parseArgs
                      (<[n := mkFlag (Name fl) (Usage fl) val' (DefValue fl)]> fm) h' rest'
                | Failed _ => Failed (InvalidValue v n)
                | Panicked m => Panicked m
                end
            end
        end
    end.
Proof.
  intros Hn. destruct (goodName_cons n Hn) as (c & n' & -> & Hc1 & Hc2 & Hn').
  apply Ascii.eqb_neq in Hc1, Hc2. rewrite Ascii.eqb_sym in Hc1.
  pose proof Hc2 as Hc3. rewrite Ascii.eqb_sym in Hc3.
  cbn [FlagPkg.parseArgs].
  change ("-" +:+ String c n') with (String "-" (String c n')).
  cbn [Go.len String.length Nat.ltb Nat.leb Go.HasPrefix orb negb andb
       String.eqb Go.sliceFrom Nat.eqb].
  rewrite (Ascii.eqb_refl "-"), Hc1, (Ascii.eqb_sym c "-"), Hc1.
  cbn [orb negb andb String.length Nat.eqb].
  rewrite Hc1, Hc3.
  cbn [orb negb andb FlagPkg.nameAndValue].
  rewrite splitAtEq_bare by done.
  destruct (fm !! String c n') as [fl|]; [|reflexivity].
  destruct (FlagPkg.IsBoolFlag (FValue fl)) as [[|]|]; reflexivity.
Qed.

Lemma flagLike_dash n : Reorder.flagLike ("-" +:+ n) = true.
Proof. reflexivity. Qed.

Lemma flagName_dash n : FlagPkg.goodName n → Reorder.flagName ("-" +:+ n) = n.
Proof.
  intros Hn. destruct (goodName_cons n Hn) as (c & n' & -> & Hc1 & _ & _).
  apply Ascii.eqb_neq in Hc1. rewrite Ascii.eqb_sym in Hc1.
  unfold Reorder.flagName.
  change ("-" +:+ String c n') with (String "-" (String c n')).
  cbn [Go.HasPrefix Go.sliceFrom]. rewrite Hc1. cbn [andb].
  by rewrite andb_false_r.
Qed.

Lemma valueTaking_dash set n f :
  FlagPkg.goodName n → Lookup set n = Some f →
  Reorder.valueTaking set ("-" +:+ n) = Reorder.notBool f.
Proof.
  intros Hn Hf. unfold Reorder.valueTaking.
  rewrite flagLike_dash, (flagName_dash n Hn), Hf. reflexivity.
Qed.

(** On an interleaved command line the loop collects the flag items in
    the flag region and the plain arguments in the positional region. *)
Lemma loop_Interleaved set v :
  Reorder.Interleaved set v →
  ∀ F P,
    Reorder.loop set (Reorder.ofRegions F P true) v
    = Reorder.ofRegions (F ++ Reorder.flagItems set v) (P ++ Reorder.plainArgs set v) true.
Proof.
  induction 1 as [|t v Ht _ IH|n f v Hn Hf Hb _ IH|n f t v Hn Hf Hb Ht _ IH];
    intros F P.
  - simpl. by rewrite !app_nil_r.
  - cbn [Reorder.loop fold_left Reorder.flagItems Reorder.plainArgs].
    rewrite (valueTaking_nonflag set t Ht), Ht.
    rewrite step_regions, Ht. fold (Reorder.loop set).
    change (fold_left (Reorder.step set) v) with (λ st, Reorder.loop set st v).
    cbn beta. rewrite IH, <- app_assoc. reflexivity.
  - cbn [Reorder.loop fold_left Reorder.flagItems Reorder.plainArgs].
    rewrite (valueTaking_dash set n f Hn Hf), Hb, flagLike_dash.
    rewrite step_regions, flagLike_dash, (valueTaking_dash set n f Hn Hf), Hb.
    change (fold_left (Reorder.step set) v) with (λ st, Reorder.loop set st v).
    cbn beta. cbn [negb]. rewrite IH, <- app_assoc. reflexivity.
  - cbn [Reorder.loop fold_left Reorder.flagItems Reorder.plainArgs].
    rewrite (valueTaking_dash set n f Hn Hf), Hb.
    rewrite step_regions, flagLike_dash, (valueTaking_dash set n f Hn Hf), Hb.
    cbn [negb]. rewrite step_regions, Ht.
    change (fold_left (Reorder.step set) v) with (λ st, Reorder.loop set st v).
    cbn beta. rewrite IH, <- !app_assoc. reflexivity.
Qed.

Lemma plainArgs_nonflag set v :
  Reorder.Interleaved set v →
  Forall (λ t, Reorder.flagLike t = false) (Reorder.plainArgs set v).
Proof.
  induction 1 as [|t v Ht _ IH|n f v Hn Hf Hb _ IH|n f t v Hn Hf Hb Ht _ IH];
    cbn [Reorder.plainArgs].
  - constructor.
  - rewrite (valueTaking_nonflag set t Ht), Ht. by constructor.
  - by rewrite (valueTaking_dash set n f Hn Hf), Hb, flagLike_dash.
  - by rewrite (valueTaking_dash set n f Hn Hf), Hb.
Qed.

(** [Set] keeps the type of a value, and with it the answer of
    [IsBoolFlag] and the texts the value takes. *)
Lemma Set_typeOf val s h val' h' :
  FlagPkg.Set_ val s h = Done (val', h') →
  Reorder.typeOf val' = Reorder.typeOf val.
Proof.
  destruct val as [bv0|T st]; cbn [FlagPkg.Set_].
  - destruct (BoolValue.Set_ bv0 s h); intros [= <- <-]. done.
  - destruct (setMethod T s st); intros [= <- <-]. done.
Qed.

Lemma typeOf_IsBoolFlag val val' :
  Reorder.typeOf val' = Reorder.typeOf val →
  FlagPkg.IsBoolFlag val' = FlagPkg.IsBoolFlag val.
Proof. destruct val, val'; intros [= <-]; reflexivity. Qed.

Lemma typeOf_takes val val' s :
  Reorder.typeOf val' = Reorder.typeOf val →
  Reorder.takes val s → Reorder.takes val' s.
Proof. destruct val, val'; intros [= <-]; done. Qed.

Lemma typeAt_update fm n fl val' :
  fm !! n = Some fl →
  Reorder.typeOf val' = Reorder.typeOf (FValue fl) →
  ∀ m, Reorder.typeAt (<[n := mkFlag (Name fl) (Usage fl) val' (DefValue fl)]> fm) m
       = Reorder.typeAt fm m.
Proof.
  intros Hfl Hk m. unfold Reorder.typeAt.
  destruct (decide (n = m)) as [<-|Hne].
  - rewrite lookup_insert_eq, Hfl. simpl. by rewrite Hk.
  - by rewrite lookup_insert_ne.
Qed.

(** A value that takes a text is set by it. *)
Lemma takes_Done val s h :
  Reorder.takes val s → ∃ val' h', FlagPkg.Set_ val s h = Done (val', h').
Proof.
  destruct val as [bv|T st]; cbn [Reorder.takes FlagPkg.Set_].
  - intros [Hd [b Hb]]. unfold BoolValue.Set_. rewrite Hb.
    destruct (destination bv) as [d|]; [|done].
    destruct (count bv); eauto.
  - intros Hst. destruct (Hst st) as [st' ->]. eauto.
Qed.

(** The flag registered under a name of the original set, as the
    parser finds it later. *)
Lemma typeAt_lookup set fm n f :
  (∀ m, Reorder.typeAt fm m = Reorder.typeAt (formal set) m) →
  Lookup set n = Some f →
  ∃ fl, fm !! n = Some fl ∧ Reorder.typeOf (FValue fl) = Reorder.typeOf (FValue f).
Proof.
  intros Hk Hf. pose proof (Hk n) as Hkn. unfold Reorder.typeAt in Hkn.
  unfold Lookup in Hf. rewrite Hf in Hkn.
  destruct (fm !! n) as [fl|]; [|done]. injection Hkn as Hkn. eauto.
Qed.

(** The parser takes every flag item and stops at the plain arguments. *)
Lemma parse_flagItems set v :
  Reorder.Interleaved set v →
  Reorder.accepted set v →
  ∀ fm h P,
    (∀ m, Reorder.typeAt fm m = Reorder.typeAt (formal set) m) →
    Forall (λ t, Reorder.flagLike t = false) P →
    ∃ fm' h',
      FlagPkg.parseArgs fm h (Reorder.flagItems set v ++ P) = Done (mkFlagSet fm' P, h')
      ∧ (∀ m, Reorder.typeAt fm' m = Reorder.typeAt (formal set) m).
Proof.
  induction 1 as [|t v Ht _ IH|n f v Hn Hf Hb _ IH|n f t v Hn Hf Hb Ht _ IH];
    intros Hacc fm h P Hk HP.
  - exists fm, h. split; [|done]. simpl.
    destruct HP as [|t P Ht HP]; [done|]. by apply parseArgs_stop.
  - cbn [Reorder.flagItems Reorder.accepted] in *.
    rewrite (valueTaking_nonflag set t Ht), Ht in *.
    by apply IH.
  - cbn [Reorder.flagItems Reorder.accepted] in *.
    rewrite (valueTaking_dash set n f Hn Hf), Hb, flagLike_dash in *.
    destruct Hacc as [Htakes Hacc].
    cbn [app]. rewrite (parseArgs_flag_cons _ _ _ _ Hn).
    destruct (typeAt_lookup set fm n f Hk Hf) as (fl & Hfl & Hty).
    rewrite Hfl, (typeOf_IsBoolFlag _ _ Hty).
    assert (Hbool : FlagPkg.IsBoolFlag (FValue f) = Some true).
    { unfold Reorder.notBool in Hb.
      by destruct (FlagPkg.IsBoolFlag (FValue f)) as [[|]|]. }
    rewrite Hbool.
    assert (Ht' : Reorder.takes (FValue fl) "true").
    { apply (typeOf_takes _ _ _ Hty), Htakes. by rewrite (flagName_dash n Hn). }
    destruct (takes_Done _ _ h Ht') as (val' & h' & HSet).
    rewrite HSet. apply IH; [done| |done].
    intros m. rewrite typeAt_update; [apply Hk|done|by eapply Set_typeOf].
  - cbn [Reorder.flagItems Reorder.accepted] in *.
    rewrite (valueTaking_dash set n f Hn Hf), Hb in *.
    destruct Hacc as [Htakes Hacc].
    cbn [app]. rewrite (parseArgs_flag_cons _ _ _ _ Hn).
    destruct (typeAt_lookup set fm n f Hk Hf) as (fl & Hfl & Hty).
    rewrite Hfl, (typeOf_IsBoolFlag _ _ Hty).
    assert (Ht' : Reorder.takes (FValue fl) t).
    { apply (typeOf_takes _ _ _ Hty), Htakes. by rewrite (flagName_dash n Hn). }
    destruct (takes_Done _ _ h Ht') as (val' & h' & HSet).
    unfold Reorder.notBool in Hb.
    destruct (FlagPkg.IsBoolFlag (FValue f)) as [[|]|]; [done| |];
      rewrite HSet;
      (apply IH; [done| |done]);
      intros m; (rewrite typeAt_update; [apply Hk|done|by eapply Set_typeOf]).
Qed.

End ParseMore.

(** X4: on a command line that interleaves positional tokens with
    tokens [-n] of registered boolean flags and tokens [-n value] of
    registered value-taking flags in any order, and on which every flag
    takes what the parser hands it, the reordering pass followed by
    the flag parser succeeds, parses every flag, and leaves as
    arguments exactly the positional tokens, in their order. *)
Theorem reorder_then_parse (set : flag.FlagSet) (h : Heap) (v : list string) :
  Reorder.Interleaved set v →
  Reorder.accepted set v →
  ∃ set' h',
    FlagPkg.Parse set h (Reorder.reorderTokens set v) = Done (set', h')
    ∧ flag.Args set' = Reorder.plainArgs set v
    ∧ Reorder.reorderTokens set v
      = Reorder.flagItems set v ++ Reorder.plainArgs set v
    ∧ ∀ n, Reorder.typeAt (flag.formal set') n = Reorder.typeAt (flag.formal set) n.
Proof.
  intros Hv Hacc.
  assert (E : Reorder.reorderTokens set v
              = Reorder.flagItems set v ++ Reorder.plainArgs set v).
  { unfold Reorder.reorderTokens. rewrite init_ofRegions.
    rewrite (loop_Interleaved set v Hv [] []). reflexivity. }
  destruct (parse_flagItems set v Hv Hacc (flag.formal set) h (Reorder.plainArgs set v))
    as (fm' & h' & HP & Hk); [done|by apply plainArgs_nonflag|].
  exists (flag.mkFlagSet fm' (Reorder.plainArgs set v)), h'.
  unfold FlagPkg.Parse. rewrite E, HP. repeat split; done.
Qed.

Lemma reorder_then_parse_witness :
  Reorder.Interleaved Reorder.sampleSet ["a"; "-" +:+ "x"; "1"; "b"; "-" +:+ "v"; "c"]
  ∧ Reorder.accepted Reorder.sampleSet ["a"; "-" +:+ "x"; "1"; "b"; "-" +:+ "v"; "c"]
  ∧ ∃ set' h',
      FlagPkg.Parse Reorder.sampleSet emptyHeap
        (Reorder.reorderTokens Reorder.sampleSet
           ["a"; "-" +:+ "x"; "1"; "b"; "-" +:+ "v"; "c"])
      = Done (set', h')
      ∧ flag.Args set' = ["a"; "b"; "c"].
Proof.
  assert (Hx : FlagPkg.goodName "x") by (repeat split; done).
  assert (Hv : FlagPkg.goodName "v") by (repeat split; done).
  assert (Hi : Reorder.Interleaved Reorder.sampleSet
                 ["a"; "-" +:+ "x"; "1"; "b"; "-" +:+ "v"; "c"]).
  { apply Reorder.Interleaved_positional; [reflexivity|].
    eapply Reorder.Interleaved_value; [exact Hx|reflexivity|reflexivity|reflexivity|].
    apply Reorder.Interleaved_positional; [reflexivity|].
    eapply Reorder.Interleaved_bool; [exact Hv|reflexivity|reflexivity|].
    apply Reorder.Interleaved_positional; [reflexivity|].
    apply Reorder.Interleaved_nil. }
  assert (Ha : Reorder.accepted Reorder.sampleSet
                 ["a"; "-" +:+ "x"; "1"; "b"; "-" +:+ "v"; "c"]).
  { change (Reorder.tokenTakes Reorder.sampleSet "-x" "1"
            ∧ Reorder.tokenTakes Reorder.sampleSet "-v" "true" ∧ True).
    split; [|split; [|done]].
    - intros f Hf. vm_compute in Hf. injection Hf as <-.
      intros st. by exists "1".
    - intros f Hf. vm_compute in Hf. injection Hf as <-.
      split; [done|by exists true]. }
  split; [exact Hi|]. split; [exact Ha|].
  destruct (reorder_then_parse Reorder.sampleSet emptyHeap _ Hi Ha)
    as (set' & h' & HP & HA & _ & _).
  exists set', h'. split; [exact HP|]. rewrite HA. reflexivity.
Defined.

(** ** [boolValue]: [Set], [Get], [String] and the counter *)

Section BoolValueMore.

Import flag.

Lemma wrapInt_small z :
  (- 2 ^ 63 ≤ z < 2 ^ 63)%Z → Go.wrapInt z = z.
Proof. intros Hz. unfold Go.wrapInt. rewrite Z.mod_small; lia. Qed.

Lemma loadBool_storeBool d v h :
  d < length (bools h) → loadBool d (storeBool d v h) = v.
Proof.
  intros Hd. unfold loadBool, storeBool. simpl.
  by rewrite list_lookup_insert_eq.
Qed.

Lemma loadBool_storeBool_ne d p v h :
  p ≠ d → loadBool p (storeBool d v h) = loadBool p h.
Proof.
  intros Hp. unfold loadBool, storeBool. simpl.
  by rewrite list_lookup_insert_ne.
Qed.

Lemma loadBool_storeInt c z p h : loadBool p (storeInt c z h) = loadBool p h.
Proof. reflexivity. Qed.

Lemma loadInt_storeInt c z h :
  c < length (ints h) → loadInt c (storeInt c z h) = z.
Proof.
  intros Hc. unfold loadInt, storeInt. simpl.
  by rewrite list_lookup_insert_eq.
Qed.

(** One successful [Set] on a value with both pointers. *)
Lemma Set_true_counted d c h :
  BoolValue.Set_ (mkBoolValue (Some d) (Some c)) "true" h
  = Done (storeInt c (Go.wrapInt (loadInt c h + 1)) (storeBool d true h)).
Proof. reflexivity. Qed.

Lemma flag_eta (fl : Flag) : mkFlag (Name fl) (Usage fl) (FValue fl) (DefValue fl) = fl.
Proof. by destruct fl. Qed.

(** The parse of [k] tokens [-n] of a counted boolean flag. *)
Lemma parse_repeated fm n fl d c :
  FlagPkg.goodName n →
  fm !! n = Some fl →
  FValue fl = VBool (mkBoolValue (Some d) (Some c)) →
  ∀ k h,
    c < length (ints h) →
    (- 2 ^ 63 ≤ loadInt c h)%Z →
    (loadInt c h + Z.of_nat k < 2 ^ 63)%Z →
    ∃ h',
      FlagPkg.parseArgs fm h (replicate k ("-" +:+ n)) = Done (mkFlagSet fm [], h')
      ∧ loadInt c h' = (loadInt c h + Z.of_nat k)%Z
      ∧ length (ints h') = length (ints h)
      ∧ length (bools h') = length (bools h)
      ∧ (0 < k → d < length (bools h) → loadBool d h' = true).
Proof.
  intros Hn Hfl Hv. induction k as [|k IH]; intros h Hc Hlo Hhi.
  - exists h. simpl. repeat split; try done; lia.
  - cbn [replicate]. rewrite (parseArgs_flag_cons _ _ _ _ Hn), Hfl, Hv.
    cbn [FlagPkg.IsBoolFlag BoolValue.IsBoolFlag FlagPkg.Set_].
    rewrite Set_true_counted.
    rewrite <- Hv, flag_eta, (insert_id fm n fl Hfl).
    set (h1 := storeInt c _ _).
    assert (Hc1 : loadInt c h1 = (loadInt c h + 1)%Z).
    { subst h1. rewrite loadInt_storeInt by done.
      apply wrapInt_small. unfold loadInt in *. simpl. lia. }
    destruct (IH h1) as (h' & HP & Hcount & Hli & Hlb & Hd).
    { subst h1. simpl. by rewrite length_insert. }
    { lia. }
    { lia. }
    exists h'. split; [exact HP|]. split; [lia|].
    split; [subst h1; simpl in *; by rewrite Hli, length_insert|].
    split; [subst h1; simpl in *; by rewrite Hlb, length_insert|].
    intros _ Hdlen. destruct k as [|k].
    + simpl in HP. injection HP as <-. subst h1.
      rewrite loadBool_storeInt. by apply loadBool_storeBool.
    + apply Hd; [lia|]. subst h1. simpl. by rewrite length_insert.
Qed.

End BoolValueMore.

(** X5: every occurrence of a counted boolean flag on the command line
    adds one to its counter: after the parse of [k] tokens [-n] the cell
    behind [Count] holds its previous content plus [k] (as long as that
    stays below 2^63), the destination holds true, and the flag set is
    as it was. *)
Theorem count_occurrences (fm : gmap string flag.Flag) (n : string) (fl : flag.Flag)
    (d c : loc) (k : nat) (h : Heap) :
  FlagPkg.goodName n →
  fm !! n = Some fl →
  flag.FValue fl = flag.VBool (flag.mkBoolValue (Some d) (Some c)) →
  d < length (bools h) →
  c < length (ints h) →
  (- 2 ^ 63 ≤ loadInt c h)%Z →
  (loadInt c h + Z.of_nat k < 2 ^ 63)%Z →
  ∃ h',
    FlagPkg.Parse (flag.mkFlagSet fm []) h (replicate k ("-" +:+ n))
    = Done (flag.mkFlagSet fm [], h')
    ∧ loadInt c h' = (loadInt c h + Z.of_nat k)%Z
    ∧ (0 < k → loadBool d h' = true).
Proof.
  intros Hn Hfl Hv Hd Hc Hlo Hhi.
  destruct (parse_repeated fm n fl d c Hn Hfl Hv k h Hc Hlo Hhi)
    as (h' & HP & Hcount & _ & _ & Hdest).
  exists h'. split; [exact HP|]. split; [exact Hcount|].
  intros Hk. by apply Hdest.
Qed.

Lemma count_occurrences_witness :
  ∃ h',
    FlagPkg.Parse
      (flag.mkFlagSet
         {[ "v" := flag.mkFlag "v" "" (flag.VBool (flag.mkBoolValue (Some 0) (Some 0)))
                     "false" ]} [])
      (mkHeap [false] [0%Z]) (replicate 3 ("-" +:+ "v"))
    = Done (flag.mkFlagSet
              {[ "v" := flag.mkFlag "v" "" (flag.VBool (flag.mkBoolValue (Some 0) (Some 0)))
                          "false" ]} [], h')
    ∧ loadInt 0 h' = 3%Z.
Proof.
  destruct (count_occurrences
              {[ "v" := flag.mkFlag "v" "" (flag.VBool (flag.mkBoolValue (Some 0) (Some 0)))
                          "false" ]}
              "v" (flag.mkFlag "v" "" (flag.VBool (flag.mkBoolValue (Some 0) (Some 0)))
                     "false")
              0 0 3 (mkHeap [false] [0%Z]))
    as (h' & HP & Hc & _).
  - repeat split; done.
  - apply lookup_singleton_eq.
  - reflexivity.
  - simpl. lia.
  - simpl. lia.
  - unfold loadInt. simpl. lia.
  - unfold loadInt. simpl. lia.
  - exists h'. split; [exact HP|exact Hc].
Defined.

(** X6: [Set] followed by [Get] and [String]: a text that parses as a
    boolean is stored through the destination, read back by [Get],
    printed by [String] in a form that parses to the same boolean, and
    no other [bool] cell changes; a text that does not parse gives the
    error "parse error". *)
Theorem boolValue_Set_Get (b : flag.boolValue) (d : loc) (s : string) (h : Heap) :
  flag.destination b = Some d →
  d < length (bools h) →
  match Go.ParseBool s with
  | Some v =>
      ∃ h', BoolValue.Set_ b s h = Done h'
            ∧ BoolValue.Get b h' = Done v
            ∧ Go.ParseBool (BoolValue.String_ b h') = Some v
            ∧ (∀ p, p ≠ d → loadBool p h' = loadBool p h)
            ∧ length (bools h') = length (bools h)
  | None => BoolValue.Set_ b s h = Failed ParseError
  end.
Proof.
  intros Hd Hlen. unfold BoolValue.Set_, BoolValue.Get, BoolValue.String_.
  rewrite Hd. destruct (Go.ParseBool s) as [v|]; [|reflexivity].
  destruct (flag.count b) as [c|]; eexists; (split; [reflexivity|]).
  - rewrite loadBool_storeInt, loadBool_storeBool by done.
    rewrite ParseBool_FormatBool. repeat split; try done.
    + intros p Hp. by rewrite loadBool_storeInt, loadBool_storeBool_ne.
    + simpl. by rewrite length_insert.
  - rewrite loadBool_storeBool by done.
    rewrite ParseBool_FormatBool. repeat split; try done.
    + intros p Hp. by rewrite loadBool_storeBool_ne.
    + simpl. by rewrite length_insert.
Qed.

Lemma boolValue_Set_Get_witness :
  ∃ h', BoolValue.Set_ (flag.mkBoolValue (Some 0) None) "T" (mkHeap [false] []) = Done h'
        ∧ BoolValue.Get (flag.mkBoolValue (Some 0) None) h' = Done true.
Proof.
  pose proof (boolValue_Set_Get (flag.mkBoolValue (Some 0) None) 0 "T"
                (mkHeap [false] []) eq_refl) as H.
  destruct H as (h' & HS & HG & _); [simpl; lia|].
  exists h'. split; [exact HS|exact HG].
Defined.

(** X7: for a registered boolean flag the lookup returns the content of
    its destination cell (false for a nil destination): what [String]
    prints always parses, so the error branch of [lookupBool] is never
    taken for it. *)
Theorem lookupBool_bool_flag (name : string) (set : flag.FlagSet) (f : flag.Flag)
    (bv : flag.boolValue) (h : Heap) :
  flag.Lookup set name = Some f →
  flag.FValue f = flag.VBool bv →
  ContextBool.lookupBool name set h
  = match flag.destination bv with
    | Some d => loadBool d h
    | None => false
    end
  ∧ Go.ParseBool (FlagPkg.String_ (flag.FValue f) h)
    = Some (ContextBool.lookupBool name set h).
Proof.
  intros Hf Hv. unfold ContextBool.lookupBool. rewrite Hf, Hv.
  cbn [FlagPkg.String_]. unfold BoolValue.String_.
  destruct (flag.destination bv) as [d|]; by rewrite ParseBool_FormatBool.
Qed.

Lemma lookupBool_bool_flag_witness :
  ContextBool.lookupBool "v" Reorder.sampleSet (mkHeap [true] []) = true.
Proof.
  apply (lookupBool_bool_flag "v" Reorder.sampleSet _ _ (mkHeap [true] []) eq_refl eq_refl).
Defined.

(** ** [BoolFlag.Apply]: outcomes, cells and frame *)

Section ApplyMore.

Import flag FlagBool.

Lemma Var_Done value name usage set h set1 :
  FlagPkg.Var value name usage set h = Done set1 →
  acceptable name ∧ formal set !! name = None
  ∧ set1 = mkFlagSet
             (<[name := mkFlag name usage value (FlagPkg.String_ value h)]> (formal set))
             (args set).
Proof.
  unfold FlagPkg.Var, acceptable.
  destruct (Go.HasPrefix name "-"); [done|].
  destruct (FlagPkg.containsEq name); [done|].
  destruct (formal set !! name); [done|]. by intros [= <-].
Qed.

Lemma Var_not_Failed value name usage set h e :
  FlagPkg.Var value name usage set h ≠ Failed e.
Proof.
  unfold FlagPkg.Var.
  destruct (Go.HasPrefix name "-"); [done|].
  destruct (FlagPkg.containsEq name); [done|].
  by destruct (formal set !! name).
Qed.

(** The first iteration of the loop: the value and the heap. *)
Lemma registerNames_cons f n rest set h :
  registerNames f (n :: rest) set h
  = match FlagPkg.Var (VBool (mkBoolValue (Some (cellOf f h 0)) (Count f))) n (Usage f)
            set (registeredHeap f 1 h) with
    | Done set1 => registerNames f rest set1 (registeredHeap f 1 h)
    | Failed e => Failed e
    | Panicked m => Panicked m
    end.
Proof.
  cbn [registerNames]. unfold cellOf, registeredHeap.
  destruct (Destination f) as [d|]; [reflexivity|].
  unfold newBool, BoolValue.newBoolValue, storeBool. cbn [bools ints fst snd].
  rewrite insert_app_r_alt by lia. rewrite Nat.sub_diag, Nat.add_0_r.
  reflexivity.
Qed.

Lemma registeredHeap_0 f h : registeredHeap f 0 h = h.
Proof.
  unfold registeredHeap. destruct (Destination f); [done|].
  cbn [replicate]. rewrite app_nil_r. by destruct h.
Qed.

Lemma registeredHeap_S f k h :
  registeredHeap f k (registeredHeap f 1 h) = registeredHeap f (S k) h.
Proof.
  unfold registeredHeap. destruct (Destination f) as [d|].
  - destruct k; [done|]. unfold storeBool. cbn [bools ints].
    by rewrite list_insert_insert_eq.
  - cbn [bools ints]. by rewrite <- app_assoc.
Qed.

Lemma cellOf_S f h i : cellOf f (registeredHeap f 1 h) i = cellOf f h (S i).
Proof.
  unfold cellOf, registeredHeap. destruct (Destination f) as [d|]; [done|].
  cbn [bools]. rewrite length_app. simpl. lia.
Qed.

Lemma registerNames_not_Failed f names : ∀ set h e,
  registerNames f names set h ≠ Failed e.
Proof.
  induction names as [|n rest IH]; intros set h e; [done|].
  rewrite registerNames_cons.
  destruct (FlagPkg.Var _ n (Usage f) set _) as [set1|e'|m] eqn:EV; [apply IH| |done].
  by apply Var_not_Failed in EV.
Qed.

(** What a completed loop has done. *)
Lemma registerNames_exact f names : ∀ set h set' h',
  registerNames f names set h = Done (set', h') →
  NoDup names
  ∧ (∀ n, n ∈ names → acceptable n ∧ formal set !! n = None)
  ∧ h' = registeredHeap f (length names) h
  ∧ args set' = args set
  ∧ (∀ n, n ∉ names → formal set' !! n = formal set !! n)
  ∧ (∀ i n, names !! i = Some n →
       ∃ dv, formal set' !! n
             = Some (mkFlag n (Usage f)
                       (VBool (mkBoolValue (Some (cellOf f h i)) (Count f))) dv)).
Proof.
  induction names as [|n rest IH]; intros set h set' h' HD.
  - injection HD as <- <-. split; [constructor|]. split.
    { intros n Hn. by apply elem_of_nil in Hn. }
    split; [by rewrite registeredHeap_0|].
    repeat split; done.
  - rewrite registerNames_cons in HD.
    destruct (FlagPkg.Var _ n (Usage f) set _) as [set1| |] eqn:EV; [|done|done].
    apply Var_Done in EV as (Hacc & Hfree & ->).
    apply IH in HD as (Hnd & Hrest & -> & Hargs & Hout & Hin).
    assert (Hn : n ∉ rest).
    { intros Hn. destruct (Hrest n Hn) as [_ Hf]. simpl in Hf.
      by rewrite lookup_insert_eq in Hf. }
    split; [by constructor|]. split.
    { intros m Hm. apply elem_of_cons in Hm as [->|Hm]; [done|].
      destruct (Hrest m Hm) as [Ha Hf]. split; [done|]. simpl in Hf.
      rewrite lookup_insert_ne in Hf; [done|]. intros ->. done. }
    split; [by rewrite registeredHeap_S|]. split; [done|]. split.
    { intros m Hm. apply not_elem_of_cons in Hm as [Hmn Hm].
      rewrite Hout by done. simpl. by rewrite lookup_insert_ne. }
    intros [|i] m Hm.
    + injection Hm as <-. rewrite Hout by done. simpl.
      rewrite lookup_insert_eq. eauto.
    + simpl in Hm. destruct (Hin i m Hm) as [dv Hdv].
      exists dv. by rewrite Hdv, cellOf_S.
Qed.

(** When the loop completes. *)
Lemma registerNames_Done f names : ∀ set h,
  NoDup names →
  (∀ n, n ∈ names → acceptable n ∧ formal set !! n = None) →
  ∃ set' h', registerNames f names set h = Done (set', h').
Proof.
  induction names as [|n rest IH]; intros set h Hnd Hnames; [by eauto|].
  apply NoDup_cons in Hnd as [Hn Hnd].
  destruct (Hnames n) as [[Hdash Heq] Hfree]; [by left|].
  rewrite registerNames_cons. unfold FlagPkg.Var. rewrite Hdash, Heq, Hfree.
  apply IH; [done|]. intros m Hm.
  destruct (Hnames m) as [Ha Hf]; [by right|]. split; [done|].
  simpl. rewrite lookup_insert_ne; [done|]. intros ->. done.
Qed.

(** The flag that [Apply] registers: [None] when the text of the
    environment or the file does not parse. *)
Lemma Apply_cases w f set h :
  (∃ val, flagFromEnvOrFile w (EnvVars f) (FilePath f) = (val, true)
          ∧ val ≠ "" ∧ Go.ParseBool val = None
          ∧ Apply w f set h = Failed (CouldNotParseBool val (Name f)))
  ∨ (sourceUsable w f
     ∧ ∃ f1, Names f1 = Names f ∧ Usage f1 = Usage f
             ∧ Destination f1 = Destination f ∧ Count f1 = Count f
             ∧ Apply w f set h
               = match registerNames f1 (Names f1) set h with
                 | Done (set1, h1) => Done (f1, set1, h1)
                 | Failed e => Failed e
                 | Panicked m => Panicked m
                 end).
Proof.
  unfold Apply, sourceUsable.
  destruct (flagFromEnvOrFile w (EnvVars f) (FilePath f)) as [val [|]] eqn:E.
  - destruct (decide (val = "")) as [->|Hval].
    + right. split; [by intros ? [= <-]|]. exists f. done.
    + destruct (Go.ParseBool val) as [b|] eqn:Eb.
      * right. split; [intros ? [= <-] _; by eauto|].
        exists (setFromSource f b). done.
      * left. exists val. done.
  - right. split; [done|]. exists f. done.
Qed.

(** What a completed [Apply] has run. *)
Lemma Apply_Done_inv w f set h f' set' h' :
  Apply w f set h = Done (f', set', h') →
  Names f' = Names f ∧ Usage f' = Usage f
  ∧ Destination f' = Destination f ∧ Count f' = Count f
  ∧ registerNames f' (Names f') set h = Done (set', h').
Proof.
  intros HA. destruct (Apply_cases w f set h) as [(val & _ & _ & _ & HF)|(_ & f1 & Hf1)].
  - rewrite HF in HA. discriminate HA.
  - destruct Hf1 as (Hn & Hu & Hd & Hc & E). rewrite E in HA.
    destruct (registerNames f1 (Names f1) set h) as [[set1 h1]| |] eqn:ER;
      [|done|done].
    injection HA as <- <- <-. done.
Qed.

Lemma registeredHeap_ints f k h : ints (registeredHeap f k h) = ints h.
Proof. unfold registeredHeap. destruct (Destination f), k; reflexivity. Qed.

Lemma registeredHeap_length f k h :
  length (bools (registeredHeap f k h))
  = length (bools h) + match Destination f with Some _ => 0 | None => k end.
Proof.
  unfold registeredHeap. destruct (Destination f) as [d|].
  - destruct k; simpl; [lia|]. rewrite length_insert. lia.
  - simpl. rewrite length_app, length_replicate. lia.
Qed.

Lemma registeredHeap_other f k h p :
  p < length (bools h) → Destination f ≠ Some p →
  loadBool p (registeredHeap f k h) = loadBool p h.
Proof.
  intros Hp Hd. unfold registeredHeap. destruct (Destination f) as [d|].
  - destruct k; [done|]. apply loadBool_storeBool_ne. intros ->. by apply Hd.
  - unfold loadBool. simpl. by rewrite lookup_app_l.
Qed.

(** Every cell given to a name holds the flag's value. *)
Lemma registeredHeap_cell f k h i :
  i < k →
  (∀ d, Destination f = Some d → d < length (bools h)) →
  cellOf f h i < length (bools (registeredHeap f k h))
  ∧ loadBool (cellOf f h i) (registeredHeap f k h) = Value f.
Proof.
  intros Hi Hd. rewrite registeredHeap_length.
  unfold cellOf, registeredHeap. destruct (Destination f) as [d|].
  - specialize (Hd d eq_refl). split; [lia|].
    destruct k; [lia|]. by apply loadBool_storeBool.
  - split; [lia|]. unfold loadBool. simpl.
    rewrite lookup_app_r by lia.
    replace (length (bools h) + i - length (bools h)) with i by lia.
    by rewrite lookup_replicate_2.
Qed.

(** A command-line token for one registered name, and the lookup of
    another afterwards. *)
Lemma token_then_lookup fm a h n1 n2 u1 u2 p1 p2 c1 c2 dv1 dv2 text b :
  FlagPkg.goodName n1 →
  fm !! n1 = Some (mkFlag n1 u1 (VBool (mkBoolValue (Some p1) c1)) dv1) →
  fm !! n2 = Some (mkFlag n2 u2 (VBool (mkBoolValue (Some p2) c2)) dv2) →
  Go.ParseBool text = Some b →
  p1 < length (bools h) →
  ∃ set'' h'',
    FlagPkg.Parse (mkFlagSet fm a) h ["-" +:+ n1 +:+ "=" +:+ text] = Done (set'', h'')
    ∧ ContextBool.lookupBool n2 set'' h''
      = (if decide (p1 = p2) then b else loadBool p2 h)
    ∧ loadBool p1 h'' = b.
Proof.
  intros Hn H1 H2 Hb Hp. unfold FlagPkg.Parse. cbn [formal].
  rewrite (parseArgs_bool_assign _ _ _ _ _ _ Hn H1 eq_refl).
  unfold BoolValue.Set_. rewrite Hb. cbn [destination count flag.Name flag.Usage DefValue].
  rewrite (insert_id fm n1 _ H1).
  assert (Hl : ∀ h2, (∀ p, loadBool p h2 = loadBool p (storeBool p1 b h)) →
    ContextBool.lookupBool n2 (mkFlagSet fm []) h2
    = (if decide (p1 = p2) then b else loadBool p2 h) ∧ loadBool p1 h2 = b).
  { intros h2 Hh2. unfold ContextBool.lookupBool, Lookup. cbn [formal].
    rewrite H2. cbn [FValue FlagPkg.String_]. unfold BoolValue.String_.
    cbn [destination]. rewrite ParseBool_FormatBool, !Hh2.
    rewrite (loadBool_storeBool p1 b h Hp). split; [|done].
    destruct (decide (p1 = p2)) as [<-|Hne].
    - by apply loadBool_storeBool.
    - by apply loadBool_storeBool_ne. }
  destruct c1 as [c|]; eexists _, _; (split; [reflexivity|]); apply Hl; done.
Qed.

End ApplyMore.

(** ** [BoolFlag.Apply]: the precedence of the sources *)

Section Precedence.

Import flag FlagBool.

(** The lookup of a registered [boolValue] reads its cell. *)
Lemma lookupBool_cell n set h u p c dv :
  formal set !! n = Some (mkFlag n u (VBool (mkBoolValue (Some p) c)) dv) →
  ContextBool.lookupBool n set h = loadBool p h.
Proof.
  intros Hn. unfold ContextBool.lookupBool, Lookup. rewrite Hn.
  cbn [FValue FlagPkg.String_]. unfold BoolValue.String_. cbn [destination].
  by rewrite ParseBool_FormatBool.
Qed.

(** The bare token [-n] of a boolean flag is parsed as [-n=true]. *)
Lemma parse_bare_token fm a h n u p c dv :
  FlagPkg.goodName n →
  fm !! n = Some (mkFlag n u (VBool (mkBoolValue (Some p) c)) dv) →
  FlagPkg.Parse (mkFlagSet fm a) h ["-" +:+ n]
  = FlagPkg.Parse (mkFlagSet fm a) h ["-" +:+ n +:+ "=" +:+ "true"].
Proof.
  intros Hn Hfl. unfold FlagPkg.Parse. cbn [formal].
  rewrite (parseArgs_bool_bare _ _ _ _ _ Hn Hfl eq_refl).
  rewrite (parseArgs_bool_assign _ _ _ _ _ _ Hn Hfl eq_refl).
  unfold BoolValue.Set_. cbn [Go.ParseBool destination count].
  by destruct c.
Qed.

(** The flag that [Apply] goes on to register, when the text supplied
    by the environment or the file is usable. *)
Lemma Apply_resolved w f set h :
  sourceUsable w f →
  ∃ f1,
    Apply w f set h
    = match registerNames f1 (Names f1) set h with
      | Done (set1, h1) => Done (f1, set1, h1)
      | Failed e => Failed e
      | Panicked m => Panicked m
      end
    ∧ Names f1 = Names f ∧ Destination f1 = Destination f
    ∧ HasBeenSet f1 = HasBeenSet f || bool_decide (is_Some (supplied w f))
    ∧ Value f1 = highestPriority None (supplied w f ≫= Go.ParseBool) (Value f).
Proof.
  intros Hu. unfold Apply, supplied, sourceUsable in *.
  destruct (flagFromEnvOrFile w (EnvVars f) (FilePath f)) as [val [|]] eqn:E.
  - destruct (decide (val = "")) as [->|Hval].
    + exists f. split_and!; try done.
      rewrite bool_decide_eq_false_2; [by rewrite orb_false_r|by intros [? ?]].
    + destruct (Hu val eq_refl Hval) as [b Hb]. rewrite Hb.
      exists (setFromSource f b). split_and!; try done.
      * rewrite bool_decide_eq_true_2 by eauto. by rewrite orb_true_r.
      * cbn [mbind option_bind]. by rewrite Hb.
  - exists f. split_and!; try done.
    rewrite bool_decide_eq_false_2; [by rewrite orb_false_r|by intros [? ?]].
Qed.

End Precedence.

(** C3, as stated, fails: a value given by a command-line token becomes
    the effective value, yet the flag's [HasBeenSet] marker stays
    false, although a source above the default supplied the value. *)
Lemma cli_token_counterexample :
  FlagBool.flagFromEnvOrFile FlagBool.emptyWorld
    (FlagBool.EnvVars FlagBool.sampleFlag) (FlagBool.FilePath FlagBool.sampleFlag)
  = ("", false)
  ∧ FlagBool.Value FlagBool.sampleFlag = false
  ∧ ContextBool.applyAndParse FlagBool.emptyWorld FlagBool.sampleFlag
      ["--verbose"] "verbose"
    = Done (false, true).
Proof. repeat split; vm_compute; reflexivity. Qed.

(** C3, amended.  Take a boolean flag whose names can be registered
    (they are distinct, do not begin with [-], contain no [=] and are
    not in the set yet), whose text from the environment or the file,
    when there is one, parses as a boolean, and whose [Destination],
    when there is one, points to an allocated cell.  Then [Apply]
    completes, and the value resolved under each name of the flag is
    the one of the highest-priority source present, in the order:
    command-line token, then the non-empty text that
    [flagFromEnvOrFile] returns for the flag's environment variables
    and file path, then the flag's [Value] (the default).  A
    command-line token [-n=text] or [-n] counts for the name [n] it
    uses, and for the other names of the flag exactly when the flag has
    a [Destination], whose cell all names then share; without one,
    the value under another name stays the one of the lower sources.
    [Apply] consults no other source.  [HasBeenSet] is true after
    [Apply] exactly when it was true before or the environment or the
    file supplied a text; the flag is out of the reach of the parser,
    so a command-line token does not set it. *)
Theorem bool_flag_precedence (w : FlagBool.World) (f : FlagBool.BoolFlag)
    (set : flag.FlagSet) (h : Heap) :
  FlagBool.registrable f set →
  FlagBool.sourceUsable w f →
  (∀ d, FlagBool.Destination f = Some d → d < length (bools h)) →
  let source := FlagBool.supplied w f ≫= Go.ParseBool in
  ∃ f' set' h',
    FlagBool.Apply w f set h = Done (f', set', h')
    ∧ FlagBool.IsSet f'
      = FlagBool.HasBeenSet f || bool_decide (is_Some (FlagBool.supplied w f))
    ∧ FlagBool.Value f' = FlagBool.highestPriority None source (FlagBool.Value f)
    ∧ (∀ n, n ∈ FlagBool.Names f →
         ContextBool.lookupBool n set' h'
         = FlagBool.highestPriority None source (FlagBool.Value f))
    ∧ (∀ n1 text b,
         n1 ∈ FlagBool.Names f → n1 ≠ "" → Go.ParseBool text = Some b →
         ∃ set'' h'',
           FlagPkg.Parse set' h' ["-" +:+ n1 +:+ "=" +:+ text] = Done (set'', h'')
           ∧ ∀ n2, n2 ∈ FlagBool.Names f →
               ContextBool.lookupBool n2 set'' h''
               = FlagBool.highestPriority
                   (if FlagBool.reaches f n1 n2 then Some b else None)
                   source (FlagBool.Value f))
    ∧ (∀ n1,
         n1 ∈ FlagBool.Names f → n1 ≠ "" →
         ∃ set'' h'',
           FlagPkg.Parse set' h' ["-" +:+ n1] = Done (set'', h'')
           ∧ ∀ n2, n2 ∈ FlagBool.Names f →
               ContextBool.lookupBool n2 set'' h''
               = FlagBool.highestPriority
                   (if FlagBool.reaches f n1 n2 then Some true else None)
                   source (FlagBool.Value f)).
Proof.
  intros [Hnd Hnames] Hu Hvalid source. subst source.
  destruct (Apply_resolved w f set h Hu) as (f1 & HA & Hn1 & Hd1 & HS & HV).
  rewrite <- Hn1 in Hnd, Hnames.
  destruct (registerNames_Done f1 (FlagBool.Names f1) set h Hnd Hnames)
    as (set' & h' & HR).
  rewrite HR in HA. exists f1, set', h'. split; [exact HA|].
  split; [exact HS|]. split; [exact HV|].
  apply registerNames_exact in HR as (_ & _ & Hh' & _ & _ & Hin).
  rewrite <- Hn1.
  assert (Hvalid1 : ∀ d, FlagBool.Destination f1 = Some d → d < length (bools h))
    by (intros d Hd; apply Hvalid; by rewrite <- Hd1).
  assert (Hcell : ∀ i n, FlagBool.Names f1 !! i = Some n →
    ∃ dv, flag.formal set' !! n
          = Some (flag.mkFlag n (FlagBool.Usage f1)
                    (flag.VBool (flag.mkBoolValue (Some (FlagBool.cellOf f1 h i))
                                   (FlagBool.Count f1))) dv)
          ∧ FlagBool.cellOf f1 h i < length (bools h')
          ∧ loadBool (FlagBool.cellOf f1 h i) h' = FlagBool.Value f1).
  { intros i n Hi. destruct (Hin i n Hi) as [dv Hdv]. exists dv. split; [exact Hdv|].
    rewrite Hh'. apply registeredHeap_cell; [|exact Hvalid1].
    by eapply lookup_lt_Some. }
  assert (Htok : ∀ n1 text b,
    n1 ∈ FlagBool.Names f1 → n1 ≠ "" → Go.ParseBool text = Some b →
    ∃ set'' h'',
      FlagPkg.Parse set' h' ["-" +:+ n1 +:+ "=" +:+ text] = Done (set'', h'')
      ∧ ∀ n2, n2 ∈ FlagBool.Names f1 →
          ContextBool.lookupBool n2 set'' h''
          = FlagBool.highestPriority
              (if FlagBool.reaches f n1 n2 then Some b else None)
              (FlagBool.supplied w f ≫= Go.ParseBool) (FlagBool.Value f)).
  { intros n1 text b H1 Hne Hb.
    pose proof H1 as H1'. apply list_elem_of_lookup in H1' as [i1 Hi1].
    destruct (Hcell i1 n1 Hi1) as (dv1 & Hf1 & Hc1 & _).
    destruct (Hnames n1 H1) as [[Hdash Heq] _].
    assert (Hgood : FlagPkg.goodName n1) by done.
    destruct (token_then_lookup (flag.formal set') (flag.args set') h' n1 n1 _ _ _ _ _ _
                dv1 dv1 text b Hgood Hf1 Hf1 Hb Hc1) as (set'' & h'' & HP & _ & _).
    exists set'', h''. split; [by destruct set'|].
    intros n2 H2. apply list_elem_of_lookup in H2 as [i2 Hi2].
    destruct (Hcell i2 n2 Hi2) as (dv2 & Hf2 & _ & Hv2).
    destruct (token_then_lookup (flag.formal set') (flag.args set') h' n1 n2 _ _ _ _ _ _
                dv1 dv2 text b Hgood Hf1 Hf2 Hb Hc1) as (set3 & h3 & HP3 & HL & _).
    rewrite HP in HP3. injection HP3 as <- <-. rewrite HL, Hv2, HV.
    unfold FlagBool.reaches, FlagBool.cellOf. rewrite <- Hd1.
    destruct (FlagBool.Destination f1) as [d|].
    - by rewrite decide_True.
    - destruct (decide (n1 = n2)) as [<-|Hn12].
      + rewrite bool_decide_eq_true_2 by done.
        rewrite (NoDup_lookup _ _ _ _ Hnd Hi1 Hi2). by rewrite decide_True.
      + rewrite bool_decide_eq_false_2 by done.
        rewrite decide_False; [done|]. intros Hc.
        assert (i1 = i2) as -> by lia. rewrite Hi1 in Hi2. by injection Hi2. }
  split; [|split].
  - intros n Hn. apply list_elem_of_lookup in Hn as [i Hi].
    destruct (Hcell i n Hi) as (dv & Hf & _ & Hv).
    by rewrite (lookupBool_cell _ _ _ _ _ _ _ Hf), Hv.
  - exact Htok.
  - intros n1 H1 Hne.
    destruct (Htok n1 "true" true H1 Hne eq_refl) as (set'' & h'' & HP & HL).
    exists set'', h''. split; [|exact HL].
    pose proof H1 as H1'. apply list_elem_of_lookup in H1' as [i1 Hi1].
    destruct (Hcell i1 n1 Hi1) as (dv1 & Hf1 & _ & _).
    destruct (Hnames n1 H1) as [[Hdash Heq] _].
    assert (Hgood : FlagPkg.goodName n1) by done.
    destruct set' as [fm' a']. cbn [flag.formal] in Hf1.
    by rewrite (parse_bare_token fm' a' h' n1 _ _ _ _ Hgood Hf1).
Qed.

Lemma bool_flag_precedence_witness :
  FlagBool.registrable FlagBool.sampleFlag flag.NewFlagSet
  ∧ FlagBool.sourceUsable FlagBool.sampleWorld FlagBool.sampleFlag
  ∧ FlagBool.supplied FlagBool.sampleWorld FlagBool.sampleFlag = Some "true"
  ∧ ∃ f' set' h' set'' h'',
      FlagBool.Apply FlagBool.sampleWorld FlagBool.sampleFlag flag.NewFlagSet emptyHeap
      = Done (f', set', h')
      ∧ FlagBool.IsSet f' = true
      ∧ ContextBool.lookupBool "verbose" set' h' = true
      ∧ FlagPkg.Parse set' h' ["-" +:+ "V" +:+ "=" +:+ "false"] = Done (set'', h'')
      ∧ ContextBool.lookupBool "V" set'' h'' = false
      ∧ ContextBool.lookupBool "verbose" set'' h'' = true.
Proof.
  assert (HV : "V" ∈ FlagBool.Names FlagBool.sampleFlag)
    by (apply elem_of_cons; right; apply elem_of_cons; by left).
  assert (Hverbose : "verbose" ∈ FlagBool.Names FlagBool.sampleFlag)
    by (apply elem_of_cons; by left).
  assert (Hreg : FlagBool.registrable FlagBool.sampleFlag flag.NewFlagSet).
  { split.
    - apply (bool_decide_unpack _). vm_compute. reflexivity.
    - intros n Hn. split; [|reflexivity].
      apply elem_of_cons in Hn as [->|Hn]; [by vm_compute|].
      apply elem_of_cons in Hn as [->|Hn]; [by vm_compute|].
      by apply elem_of_nil in Hn. }
  assert (Hu : FlagBool.sourceUsable FlagBool.sampleWorld FlagBool.sampleFlag).
  { intros val Hval _. vm_compute in Hval. injection Hval as <-. by exists true. }
  split; [exact Hreg|]. split; [exact Hu|]. split; [vm_compute; reflexivity|].
  destruct (bool_flag_precedence FlagBool.sampleWorld FlagBool.sampleFlag
              flag.NewFlagSet emptyHeap Hreg Hu)
    as (f' & set' & h' & HA & HS & _ & HN & HT & _).
  { intros d Hd. discriminate Hd. }
  destruct (HT "V" "false" false HV) as (set'' & h'' & HP & HL); [done|reflexivity|].
  exists f', set', h', set'', h''. split; [exact HA|]. split; [exact HS|].
  split; [exact (HN "verbose" Hverbose)|]. split; [exact HP|].
  split; [exact (HL "V" HV)|exact (HL "verbose" Hverbose)].
Defined.

(** X8: [Apply] returns an error in one case only: the environment or
    the file supplied a non-empty text that does not parse as a
    boolean; the error names that text and the flag.  In particular an
    unparsable text does not fall through to the default. *)
Theorem Apply_failure (w : FlagBool.World) (f : FlagBool.BoolFlag)
    (set : flag.FlagSet) (h : Heap) (e : error) :
  FlagBool.Apply w f set h = Failed e
  ↔ ∃ val, FlagBool.flagFromEnvOrFile w (FlagBool.EnvVars f) (FlagBool.FilePath f)
           = (val, true)
           ∧ val ≠ "" ∧ Go.ParseBool val = None
           ∧ e = CouldNotParseBool val (FlagBool.Name f).
Proof.
  destruct (Apply_cases w f set h) as [(val & Hs & Hv & Hp & HF)|(Hu & f1 & Hf1)].
  - rewrite HF. split.
    + intros [= <-]. exists val. done.
    + intros (val' & Hs' & _ & _ & ->). rewrite Hs in Hs'. by injection Hs' as <-.
  - destruct Hf1 as (_ & _ & _ & _ & E). rewrite E. split.
    + intros HF.
      destruct (FlagBool.registerNames f1 (FlagBool.Names f1) set h)
        as [[set1 h1]|e'|m] eqn:ER; [done| |done].
      by apply registerNames_not_Failed in ER.
    + intros (val & Hs & Hv & Hp & _).
      destruct (Hu val Hs Hv) as [b Hb]. rewrite Hp in Hb. discriminate Hb.
Qed.

(** X9: [Apply] completes exactly when what the environment or the file
    supplies is usable and the names of the flag are distinct, do not
    begin with [-], do not contain [=] and are not registered in the
    set yet (otherwise [set.Var] panics). *)
Theorem Apply_completes (w : FlagBool.World) (f : FlagBool.BoolFlag)
    (set : flag.FlagSet) (h : Heap) :
  (∃ f' set' h', FlagBool.Apply w f set h = Done (f', set', h'))
  ↔ FlagBool.sourceUsable w f ∧ FlagBool.registrable f set.
Proof.
  destruct (Apply_cases w f set h) as [(val & Hs & Hv & Hp & HF)|(Hu & f1 & Hf1)].
  - rewrite HF. split.
    + intros (f' & set' & h' & HD). discriminate HD.
    + intros [Hu _]. destruct (Hu val Hs Hv) as [b Hb].
      rewrite Hp in Hb. discriminate Hb.
  - destruct Hf1 as (Hn & _ & _ & _ & E). rewrite E. unfold FlagBool.registrable.
    rewrite <- Hn. split.
    + intros (f' & set' & h' & HD).
      destruct (FlagBool.registerNames f1 (FlagBool.Names f1) set h)
        as [[set1 h1]| |] eqn:ER; [|done|done].
      apply registerNames_exact in ER as (Hnd & Hnames & _). done.
    + intros [_ [Hnd Hnames]].
      destruct (registerNames_Done f1 (FlagBool.Names f1) set h Hnd Hnames)
        as (set' & h' & ->).
      eauto.
Qed.

(** X10: a completed [Apply] leaves alone what is not the flag's: the
    arguments of the set, the flags registered under other names, the
    [int] cells, and every [bool] cell other than the destination; it
    allocates one cell per name when there is no destination and none
    otherwise. *)
Theorem Apply_frame (w : FlagBool.World) (f f' : FlagBool.BoolFlag)
    (set set' : flag.FlagSet) (h h' : Heap) :
  FlagBool.Apply w f set h = Done (f', set', h') →
  FlagBool.Names f' = FlagBool.Names f
  ∧ flag.Args set' = flag.Args set
  ∧ (∀ n, n ∉ FlagBool.Names f → flag.Lookup set' n = flag.Lookup set n)
  ∧ ints h' = ints h
  ∧ (∀ p, p < length (bools h) → FlagBool.Destination f ≠ Some p →
          loadBool p h' = loadBool p h)
  ∧ length (bools h')
    = length (bools h)
      + match FlagBool.Destination f with
        | Some _ => 0
        | None => length (FlagBool.Names f)
        end.
Proof.
  intros HA. apply Apply_Done_inv in HA as (Hn & _ & Hd & _ & HR).
  apply registerNames_exact in HR as (_ & _ & -> & Hargs & Hout & _).
  rewrite Hn in *. split; [done|]. split; [exact Hargs|].
  split; [exact Hout|]. split; [apply registeredHeap_ints|]. split.
  - intros p Hp Hdp. apply registeredHeap_other; [done|]. by rewrite Hd.
  - rewrite registeredHeap_length, Hd. reflexivity.
Qed.

Lemma Apply_frame_witness :
  ∃ f' set' h',
    FlagBool.Apply FlagBool.sampleWorld FlagBool.sampleFlag Reorder.sampleSet
      (mkHeap [false] []) = Done (f', set', h')
    ∧ flag.Lookup set' "x" = flag.Lookup Reorder.sampleSet "x"
    ∧ length (bools h') = 3.
Proof.
  destruct (FlagBool.Apply FlagBool.sampleWorld FlagBool.sampleFlag Reorder.sampleSet
              (mkHeap [false] [])) as [[[f' set'] h']| |] eqn:E;
    [|vm_compute in E; discriminate E|vm_compute in E; discriminate E].
  exists f', set', h'. split; [reflexivity|].
  destruct (Apply_frame _ _ _ _ _ _ _ E) as (_ & _ & Hout & _ & _ & Hlen).
  split; [|exact Hlen]. apply Hout.
  intros Hx. apply elem_of_cons in Hx as [Hx|Hx]; [discriminate Hx|].
  apply elem_of_cons in Hx as [Hx|Hx]; [discriminate Hx|].
  by apply elem_of_nil in Hx.
Defined.

(** X11: with a [Destination], all names of the flag share that cell:
    after [Apply] it holds the flag's value, and a command-line token
    under any one name changes the value looked up under every name
    and the cell itself. *)
Theorem Apply_shared_destination (w : FlagBool.World) (f f' : FlagBool.BoolFlag)
    (set set' : flag.FlagSet) (h h' : Heap) (d : loc) (n1 n2 text : string) (b : bool) :
  FlagBool.Apply w f set h = Done (f', set', h') →
  FlagBool.Destination f = Some d →
  d < length (bools h) →
  n1 ∈ FlagBool.Names f → n2 ∈ FlagBool.Names f → n1 ≠ "" →
  Go.ParseBool text = Some b →
  loadBool d h' = FlagBool.Value f'
  ∧ ∃ set'' h'',
      FlagPkg.Parse set' h' ["-" +:+ n1 +:+ "=" +:+ text] = Done (set'', h'')
      ∧ ContextBool.lookupBool n2 set'' h'' = b
      ∧ loadBool d h'' = b.
Proof.
  intros HA Hd Hlen H1 H2 Hne Hb.
  apply Apply_Done_inv in HA as (Hn & _ & Hd' & _ & HR).
  apply registerNames_exact in HR as (_ & Hnames & Hh' & _ & _ & Hin).
  rewrite Hn in *. rewrite Hd in Hd'.
  apply list_elem_of_lookup in H1 as [i1 Hi1]. apply list_elem_of_lookup in H2 as [i2 Hi2].
  pose proof (lookup_lt_Some _ _ _ Hi1) as Hlt1.
  assert (Hvalid : ∀ d0, FlagBool.Destination f' = Some d0 → d0 < length (bools h)).
  { intros d0 Hd0. rewrite Hd' in Hd0. by injection Hd0 as <-. }
  destruct (registeredHeap_cell f' _ h i1 Hlt1 Hvalid) as [Hc1 Hv1].
  rewrite <- Hh' in Hc1, Hv1.
  assert (Hcell : ∀ i, FlagBool.cellOf f' h i = d)
    by (intros i; unfold FlagBool.cellOf; by rewrite Hd').
  rewrite Hcell in Hc1, Hv1. split; [exact Hv1|].
  destruct (Hin i1 n1 Hi1) as [dv1 Hf1]. destruct (Hin i2 n2 Hi2) as [dv2 Hf2].
  rewrite Hcell in Hf1, Hf2.
  destruct (Hnames n1) as [[Hdash Heq] _]; [by eapply list_elem_of_lookup_2|].
  assert (Hgood : FlagPkg.goodName n1) by done.
  destruct (token_then_lookup (flag.formal set') (flag.args set') h' n1 n2 _ _ d d _ _
              dv1 dv2 text b Hgood Hf1 Hf2 Hb Hc1) as (set'' & h'' & HP & HL & HD).
  exists set'', h''. rewrite decide_True in HL by done.
  destruct set'. done.
Qed.

(** X12: without a [Destination], every name of the flag gets a cell of
    its own: a command-line token under one name changes the value
    looked up under that name and leaves the value looked up under
    any other name of the flag as [Apply] set it. *)
Theorem Apply_separate_cells (w : FlagBool.World) (f f' : FlagBool.BoolFlag)
    (set set' : flag.FlagSet) (h h' : Heap) (n1 n2 text : string) (b : bool) :
  FlagBool.Apply w f set h = Done (f', set', h') →
  FlagBool.Destination f = None →
  n1 ∈ FlagBool.Names f → n2 ∈ FlagBool.Names f → n1 ≠ n2 → n1 ≠ "" →
  Go.ParseBool text = Some b →
  ∃ set'' h'',
    FlagPkg.Parse set' h' ["-" +:+ n1 +:+ "=" +:+ text] = Done (set'', h'')
    ∧ ContextBool.lookupBool n1 set'' h'' = b
    ∧ ContextBool.lookupBool n2 set'' h'' = FlagBool.Value f'.
Proof.
  intros HA Hd H1 H2 Hn12 Hne Hb.
  apply Apply_Done_inv in HA as (Hn & _ & Hd' & _ & HR).
  apply registerNames_exact in HR as (_ & Hnames & Hh' & _ & _ & Hin).
  rewrite Hn in *. rewrite Hd in Hd'.
  apply list_elem_of_lookup in H1 as [i1 Hi1]. apply list_elem_of_lookup in H2 as [i2 Hi2].
  pose proof (lookup_lt_Some _ _ _ Hi1) as Hlt1.
  pose proof (lookup_lt_Some _ _ _ Hi2) as Hlt2.
  assert (Hvalid : ∀ d0, FlagBool.Destination f' = Some d0 → d0 < length (bools h)).
  { intros d0 Hd0. rewrite Hd' in Hd0. discriminate Hd0. }
  destruct (registeredHeap_cell f' _ h i1 Hlt1 Hvalid) as [Hc1 _].
  destruct (registeredHeap_cell f' _ h i2 Hlt2 Hvalid) as [_ Hv2].
  rewrite <- Hh' in Hc1, Hv2.
  assert (Hcells : FlagBool.cellOf f' h i1 ≠ FlagBool.cellOf f' h i2).
  { unfold FlagBool.cellOf. rewrite Hd'. intros Heq.
    assert (i1 = i2) as -> by lia. rewrite Hi1 in Hi2. by injection Hi2. }
  destruct (Hin i1 n1 Hi1) as [dv1 Hf1]. destruct (Hin i2 n2 Hi2) as [dv2 Hf2].
  destruct (Hnames n1) as [[Hdash Heq] _]; [by eapply list_elem_of_lookup_2|].
  assert (Hgood : FlagPkg.goodName n1) by done.
  destruct (token_then_lookup (flag.formal set') (flag.args set') h' n1 n2 _ _ _ _ _ _
              dv1 dv2 text b Hgood Hf1 Hf2 Hb Hc1) as (set'' & h'' & HP & HL2 & _).
  destruct (token_then_lookup (flag.formal set') (flag.args set') h' n1 n1 _ _ _ _ _ _
              dv1 dv1 text b Hgood Hf1 Hf1 Hb Hc1) as (set3 & h3 & HP3 & HL1 & _).
  rewrite HP in HP3. injection HP3 as <- <-.
  exists set'', h''. rewrite decide_False in HL2 by done.
  rewrite decide_True in HL1 by done. rewrite Hv2 in HL2.
  destruct set'. done.
Qed.

Lemma Apply_shared_destination_witness :
  ∃ f' set' h' set'' h'',
    FlagBool.Apply FlagBool.emptyWorld FlagBool.sharedFlag flag.NewFlagSet
      (mkHeap [false] []) = Done (f', set', h')
    ∧ FlagPkg.Parse set' h' ["-" +:+ "V" +:+ "=" +:+ "true"] = Done (set'', h'')
    ∧ ContextBool.lookupBool "verbose" set'' h'' = true
    ∧ loadBool 0 h'' = true.
Proof.
  destruct (FlagBool.Apply FlagBool.emptyWorld FlagBool.sharedFlag flag.NewFlagSet
              (mkHeap [false] [])) as [[[f' set'] h']| |] eqn:E;
    [|vm_compute in E; discriminate E|vm_compute in E; discriminate E].
  destruct (Apply_shared_destination _ _ _ _ _ _ _ 0 "V" "verbose" "true" true E)
    as (_ & set'' & h'' & HP & HL & HD).
  - reflexivity.
  - simpl. lia.
  - apply elem_of_cons. right. apply elem_of_cons. by left.
  - apply elem_of_cons. by left.
  - discriminate.
  - reflexivity.
  - exists f', set', h', set'', h''. done.
Defined.

Lemma Apply_separate_cells_witness :
  ∃ f' set' h' set'' h'',
    FlagBool.Apply FlagBool.emptyWorld FlagBool.sampleFlag flag.NewFlagSet emptyHeap
    = Done (f', set', h')
    ∧ FlagPkg.Parse set' h' ["-" +:+ "V" +:+ "=" +:+ "true"] = Done (set'', h'')
    ∧ ContextBool.lookupBool "V" set'' h'' = true
    ∧ ContextBool.lookupBool "verbose" set'' h'' = FlagBool.Value f'.
Proof.
  destruct (FlagBool.Apply FlagBool.emptyWorld FlagBool.sampleFlag flag.NewFlagSet
              emptyHeap) as [[[f' set'] h']| |] eqn:E;
    [|vm_compute in E; discriminate E|vm_compute in E; discriminate E].
  destruct (Apply_separate_cells _ _ _ _ _ _ _ "V" "verbose" "true" true E)
    as (set'' & h'' & HP & HL1 & HL2).
  - reflexivity.
  - apply elem_of_cons. right. apply elem_of_cons. by left.
  - apply elem_of_cons. by left.
  - discriminate.
  - discriminate.
  - reflexivity.
  - exists f', set', h', set'', h''. done.
Defined.

(** ** The input source: slices, durations, kinds and frames *)

Section InputSourceMore.

Import InputSource.

Lemma intLoop_ints name zs : ∀ i acc,
  intLoop name i (IInt <$> zs) acc = (Some (acc ++ zs), None).
Proof.
  induction zs as [|z zs IH]; intros i acc; simpl.
  - by rewrite app_nil_r.
  - by rewrite IH, <- app_assoc.
Qed.

Lemma int64Loop_ints name zs : ∀ i acc,
  int64Loop name i (IInt64 <$> zs) acc = (Some (acc ++ zs), None).
Proof.
  induction zs as [|z zs IH]; intros i acc; simpl.
  - by rewrite app_nil_r.
  - by rewrite IH, <- app_assoc.
Qed.

Lemma float64Loop_floats name zs : ∀ i acc,
  float64Loop name i (IFloat64 <$> zs) acc = (Some (acc ++ zs), None).
Proof.
  induction zs as [|z zs IH]; intros i acc; simpl.
  - by rewrite app_nil_r.
  - by rewrite IH, <- app_assoc.
Qed.

Lemma stringLoop_strings name zs : ∀ i acc,
  stringLoop name i (IString <$> zs) acc = (Some (acc ++ zs), None).
Proof.
  induction zs as [|z zs IH]; intros i acc; simpl.
  - by rewrite app_nil_r.
  - by rewrite IH, <- app_assoc.
Qed.

(** [nestedVal] reads the tree only under the first segment. *)
Lemma nestedVal_insert_ne name tree k x :
  k ≠ KString (default "" (head (Split name))) →
  nestedVal name (<[k := x]> tree) = nestedVal name tree.
Proof.
  intros Hk. unfold nestedVal.
  destruct (Split name) as [|s0 [|s1 rest]]; [done|done|].
  cbn [head default] in Hk.
  replace (length (s0 :: s1 :: rest) - 1) with (S (length (s1 :: rest) - 1))
    by (simpl; lia).
  cbn [take descend]. by rewrite lookup_insert_ne.
Qed.

End InputSourceMore.

(** X13: a stored sequence whose elements all have the element kind is
    decoded to exactly those elements, in order; the empty sequence
    gives an empty, non-nil slice, whereas a missing key gives the nil
    slice; both without error. *)
Theorem slice_round_trip (fsm : InputSource.mapInputSource) (name : string) :
  (∀ zs, InputSource.valueMap fsm !! InputSource.KString name
         = Some (InputSource.ISlice (InputSource.IInt <$> zs)) →
         InputSource.IntSlice fsm name = (Some zs, None))
  ∧ (∀ zs, InputSource.valueMap fsm !! InputSource.KString name
           = Some (InputSource.ISlice (InputSource.IInt64 <$> zs)) →
           InputSource.Int64Slice fsm name = (Some zs, None))
  ∧ (∀ zs, InputSource.valueMap fsm !! InputSource.KString name
           = Some (InputSource.ISlice (InputSource.IFloat64 <$> zs)) →
           InputSource.Float64Slice fsm name = (Some zs, None))
  ∧ (∀ zs, InputSource.valueMap fsm !! InputSource.KString name
           = Some (InputSource.ISlice (InputSource.IString <$> zs)) →
           InputSource.StringSlice fsm name = (Some zs, None))
  ∧ (InputSource.valueMap fsm !! InputSource.KString name = None →
     InputSource.nestedVal name (InputSource.valueMap fsm) = None →
     InputSource.IntSlice fsm name = (None, None)
     ∧ InputSource.Int64Slice fsm name = (None, None)
     ∧ InputSource.Float64Slice fsm name = (None, None)
     ∧ InputSource.StringSlice fsm name = (None, None)).
Proof.
  split; [|split; [|split; [|split]]].
  - intros zs H. unfold InputSource.IntSlice. rewrite H. apply intLoop_ints.
  - intros zs H. unfold InputSource.Int64Slice. rewrite H. apply int64Loop_ints.
  - intros zs H. unfold InputSource.Float64Slice. rewrite H. apply float64Loop_floats.
  - intros zs H. unfold InputSource.StringSlice. rewrite H. apply stringLoop_strings.
  - intros H1 H2.
    unfold InputSource.IntSlice, InputSource.Int64Slice, InputSource.Float64Slice,
      InputSource.StringSlice.
    rewrite H1, H2. done.
Qed.

Lemma slice_round_trip_witness :
  InputSource.IntSlice
    (InputSource.mkMapInputSource "f"
       {[ InputSource.KString "k" := InputSource.ISlice (InputSource.IInt <$> [1; 2; 3]%Z) ]})
    "k"
  = (Some [1; 2; 3]%Z, None).
Proof.
  apply (proj1 (slice_round_trip
                  (InputSource.mkMapInputSource "f"
                     {[ InputSource.KString "k"
                        := InputSource.ISlice (InputSource.IInt <$> [1; 2; 3]%Z) ]})
                  "k")).
  apply lookup_singleton_eq.
Defined.

(** X14: the duration getter, whatever [time.ParseDuration] is: a stored
    duration is returned as it is; a stored string is parsed, and
    rejected with expected kind "duration" and actual kind "string"
    when it does not parse; a value of any other kind is rejected, even
    if the empty string were to parse; a missing key gives zero without
    error. *)
Theorem duration_getter (ParseDuration : string → option Z)
    (fsm : InputSource.mapInputSource) (name : string) :
  InputSource.Duration ParseDuration fsm name
  = match InputSource.specLookup (InputSource.valueMap fsm) name with
    | Some (InputSource.IDuration d) => (d, None)
    | Some (InputSource.IString x) =>
        match ParseDuration x with
        | Some d => (d, None)
        | None => (0%Z, Some (MismatchedType name "duration" "string"))
        end
    | Some v => (0%Z, Some (MismatchedType name "duration" (InputSource.typeName v)))
    | None => (0%Z, None)
    end.
Proof.
  unfold InputSource.Duration, InputSource.castDuration,
    InputSource.incorrectTypeForFlagError.
  rewrite <- (found_specLookup name (InputSource.valueMap fsm)).
  destruct (InputSource.valueMap fsm !! InputSource.KString name) as [[]|]; simpl;
    try (destruct (ParseDuration _); reflexivity); try reflexivity;
  destruct (InputSource.nestedVal name (InputSource.valueMap fsm)) as [[]|]; simpl;
    try (destruct (ParseDuration _); reflexivity); reflexivity.
Qed.

(** X15: the typed getters do not coerce between kinds: a value that is
    found is accepted by at most one of the getters for bool, int,
    int64, uint, uint64, float64 and string (so a stored int is an
    error for the int64 getter). *)
Theorem getters_exclusive (fsm : InputSource.mapInputSource) (name : string)
    (v : InputSource.iface) :
  InputSource.specLookup (InputSource.valueMap fsm) name = Some v →
  InputSource.accepts (InputSource.Bool fsm name)
  + InputSource.accepts (InputSource.Int fsm name)
  + InputSource.accepts (InputSource.Int64 fsm name)
  + InputSource.accepts (InputSource.Uint fsm name)
  + InputSource.accepts (InputSource.Uint64 fsm name)
  + InputSource.accepts (InputSource.Float64 fsm name)
  + InputSource.accepts (InputSource.String_ fsm name) ≤ 1
  ∧ (∀ n, v = InputSource.IInt n →
          InputSource.Int64 fsm name = (0%Z, Some (MismatchedType name "int64" "int"))).
Proof.
  intros Hv.
  rewrite Bool_spec, Int_spec, Int64_spec, Uint_spec, Uint64_spec, Float64_spec,
    String_spec, Hv.
  split; [destruct v; unfold InputSource.accepts; simpl; lia|].
  intros n ->. reflexivity.
Qed.

Lemma getters_exclusive_witness :
  InputSource.Int64 (InputSource.mkMapInputSource "f" InputSource.sampleTree) "a.b.c"
  = (0%Z, Some (MismatchedType "a.b.c" "int64" "int")).
Proof.
  apply (proj2 (getters_exclusive
                  (InputSource.mkMapInputSource "f" InputSource.sampleTree) "a.b.c"
                  (InputSource.IInt 5) eq_refl) 5%Z eq_refl).
Defined.

(** X16: a nested lookup reads the tree only through the entry of the
    first segment: adding or changing any other top-level entry leaves
    it unchanged; and an entry under a key that is not a string is
    never seen by a getter. *)
Theorem nested_lookup_frame (tree : gmap InputSource.key InputSource.iface)
    (k : InputSource.key) (x : InputSource.iface) (name : string) :
  (k ≠ InputSource.KString (default "" (head (InputSource.Split name))) →
   InputSource.nestedVal name (<[k := x]> tree) = InputSource.nestedVal name tree)
  ∧ (∀ n file, k = InputSource.KInt n →
       InputSource.Int (InputSource.mkMapInputSource file (<[k := x]> tree)) name
       = InputSource.Int (InputSource.mkMapInputSource file tree) name
       ∧ InputSource.String_ (InputSource.mkMapInputSource file (<[k := x]> tree)) name
         = InputSource.String_ (InputSource.mkMapInputSource file tree) name
       ∧ InputSource.IntSlice (InputSource.mkMapInputSource file (<[k := x]> tree)) name
         = InputSource.IntSlice (InputSource.mkMapInputSource file tree) name).
Proof.
  split; [apply nestedVal_insert_ne|].
  intros n file ->.
  unfold InputSource.Int, InputSource.String_, InputSource.IntSlice.
  cbn [InputSource.valueMap].
  rewrite nestedVal_insert_ne by done. rewrite lookup_insert_ne by done. done.
Qed.

Lemma nested_lookup_frame_witness :
  InputSource.nestedVal "a.b.c"
    (<[InputSource.KString "other" := InputSource.IInt 1]> InputSource.sampleTree)
  = InputSource.nestedVal "a.b.c" InputSource.sampleTree.
Proof.
  apply (proj1 (nested_lookup_frame InputSource.sampleTree (InputSource.KString "other")
                  (InputSource.IInt 1) "a.b.c")).
  discriminate.
Defined.

(** ** [Command.Run] on a leaf *)

Section RunMore.

Import flag.

Lemma reorderTokens_nonflag set v :
  Forall (λ t, Reorder.flagLike t = false) v → Reorder.reorderTokens set v = v.
Proof.
  intros Hv. unfold Reorder.reorderTokens. rewrite init_ofRegions.
  rewrite (loop_no_value_flags set v [] []).
  - rewrite (filter_flagLike_nonflag _ Hv). cbn [Reorder.ofRegions Reorder.flagArgs app].
    induction Hv as [|t v Ht _ IH]; [done|].
    rewrite filter_cons_True by done. by rewrite IH.
  - eapply Forall_impl; [exact Hv|]. intros t Ht. by apply valueTaking_nonflag.
Qed.

Lemma parseArgs_nonflag fm h toks :
  Forall (λ t, Reorder.flagLike t = false) toks →
  FlagPkg.parseArgs fm h toks = Done (mkFlagSet fm toks, h).
Proof. intros [|t v Ht _]; [done|]. by apply parseArgs_stop. Qed.

Lemma not_internal_test c :
  ¬ CommandRun.internal c →
  Nat.ltb 0 (length (Cli.Subcommands c)) || bool_decide (Cli.Before c ≠ None) = false.
Proof.
  intros Hc. apply orb_false_iff. split.
  - apply Nat.ltb_ge. destruct (length (Cli.Subcommands c)) eqn:E; [lia|].
    exfalso. apply Hc. left. lia.
  - apply bool_decide_eq_false_2. intros Hb. apply Hc. by right.
Qed.

End RunMore.

(** X17: a leaf command given only tokens without the prefix [-] calls
    its action, once and as its only event, on a context whose
    positional arguments are exactly the tokens after the command
    name, with the flag set built from the command's flags; this is so
    with and without [SkipFlagParsing] (provided normalisation reports
    no error and neither help nor completion is asked for). *)
Theorem positional_pass_through
    (NewApp : Cli.App) (helpAction : option Cli.handler)
    (HelpFlag BashCompletionFlag : Cli.Flag)
    (flagSetOf : string → list Cli.Flag → Heap → flag.FlagSet * Heap)
    (normalizeFlags : list Cli.Flag → flag.FlagSet → option error)
    (checkCompletions checkHelp : Cli.Context → string → bool)
    (RunAsSubcommand : Cli.App → Cli.Context → Heap → CommandRun.Result)
    (c : Cli.Command) (ctx : Cli.Context) (h : Heap) (a : Cli.handler) :
  let flags := CommandRun.leafFlags HelpFlag BashCompletionFlag c ctx in
  let built := flagSetOf (Cli.Name c) flags h in
  let parsed := flag.mkFlagSet (flag.formal built.1) (Cli.Tail (Cli.Args ctx)) in
  let context := Cli.NewContext (Cli.CtxApp ctx) parsed (Cli.globalSet ctx) in
  ¬ CommandRun.internal c →
  Cli.Action c = Some a →
  Forall (λ t, Reorder.flagLike t = false) (Cli.Tail (Cli.Args ctx)) →
  normalizeFlags flags parsed = None →
  checkCompletions context (Cli.Name c) = false →
  checkHelp context (Cli.Name c) = false →
  CommandRun.Run NewApp helpAction HelpFlag BashCompletionFlag flagSetOf
    normalizeFlags checkCompletions checkHelp RunAsSubcommand c ctx h
  = CommandRun.mkResult
      [CommandRun.CallAction a
         (CommandRun.withCommand context (CommandRun.withFlags c flags))]
      (Done tt) built.2
  ∧ Cli.Args (CommandRun.withCommand context (CommandRun.withFlags c flags))
    = Cli.Tail (Cli.Args ctx).
Proof.
  intros flags built parsed context Hleaf Ha Htoks Hnorm Hcomp Hhelp.
  split; [|reflexivity].
  unfold CommandRun.Run. rewrite (not_internal_test c Hleaf).
  unfold CommandRun.runLeaf. fold flags. fold built.
  destruct built as [set h1] eqn:Eb. cbn [fst snd] in *.
  assert (Hargs : CommandRun.parsedArgs c ctx set = Cli.Tail (Cli.Args ctx)).
  { unfold CommandRun.parsedArgs, Reorder.reorder, Cli.Tail in *.
    destruct (Cli.SkipFlagParsing c); cbn [negb]; [done|].
    by apply reorderTokens_nonflag. }
  rewrite Hargs. unfold FlagPkg.Parse.
  rewrite (parseArgs_nonflag _ _ _ Htoks).
  fold parsed. rewrite Hnorm. fold context. rewrite Hcomp, Hhelp, Ha.
  reflexivity.
Qed.

Lemma positional_pass_through_witness :
  CommandRun.events
    (CommandRun.Run CommandRun.sampleApp None (Cli.FOther ["help"]) (Cli.FOther ["c"])
       CommandRun.emptyFlagSetOf CommandRun.noNormalizeError
       CommandRun.neverChecked CommandRun.neverChecked CommandRun.recordSubcommand
       CommandRun.passThrough (CommandRun.contextWith ["run"; "a"; "b"]) emptyHeap)
  = [CommandRun.CallAction 7
       (CommandRun.withCommand
          (Cli.NewContext CommandRun.sampleApp (flag.mkFlagSet ∅ ["a"; "b"])
             flag.NewFlagSet)
          CommandRun.passThrough)].
Proof.
  rewrite (proj1 (positional_pass_through CommandRun.sampleApp None (Cli.FOther ["help"])
             (Cli.FOther ["c"]) CommandRun.emptyFlagSetOf CommandRun.noNormalizeError
             CommandRun.neverChecked CommandRun.neverChecked CommandRun.recordSubcommand
             CommandRun.passThrough (CommandRun.contextWith ["run"; "a"; "b"]) emptyHeap 7
             ltac:(intros [H|H]; [simpl in H; lia|by apply H])
             eq_refl
             ltac:(repeat constructor)
             eq_refl eq_refl eq_refl)).
  reflexivity.
Defined.

(** X18: a leaf command calls its action at most once and only as the
    last thing it does: whenever the run called an action, that call
    is its only event, the action is the command's own, and the run
    returned nil; so a run that returns an error (from the flag parser
    or from normalisation) has not called the action. *)
Theorem action_only_on_success
    (NewApp : Cli.App) (helpAction : option Cli.handler)
    (HelpFlag BashCompletionFlag : Cli.Flag)
    (flagSetOf : string → list Cli.Flag → Heap → flag.FlagSet * Heap)
    (normalizeFlags : list Cli.Flag → flag.FlagSet → option error)
    (checkCompletions checkHelp : Cli.Context → string → bool)
    (RunAsSubcommand : Cli.App → Cli.Context → Heap → CommandRun.Result)
    (c : Cli.Command) (ctx : Cli.Context) (h : Heap) :
  ¬ CommandRun.internal c →
  let r := CommandRun.Run NewApp helpAction HelpFlag BashCompletionFlag flagSetOf
             normalizeFlags checkCompletions checkHelp RunAsSubcommand c ctx h in
  (CommandRun.callsAction r →
   CommandRun.returned r = Done tt
   ∧ ∃ a context, Cli.Action c = Some a
                  ∧ CommandRun.events r = [CommandRun.CallAction a context])
  ∧ (∀ e, CommandRun.returned r = Failed e → ¬ CommandRun.callsAction r).
Proof.
  intros Hleaf r.
  assert (Hcall : CommandRun.callsAction r →
    CommandRun.returned r = Done tt
    ∧ ∃ a context, Cli.Action c = Some a
                   ∧ CommandRun.events r = [CommandRun.CallAction a context]).
  { subst r. unfold CommandRun.Run. rewrite (not_internal_test c Hleaf).
    unfold CommandRun.runLeaf, CommandRun.callsAction.
    destruct (flagSetOf _ _ h) as [set h1].
    destruct (FlagPkg.Parse set h1 _) as [[set2 h2]|e|m]; cbn [CommandRun.events].
    - destruct (normalizeFlags _ set2) as [nerr|]; cbn [CommandRun.events].
      + intros (a & context & Hin).
        repeat (apply elem_of_cons in Hin as [Hin|Hin]; [discriminate Hin|]).
        by apply elem_of_nil in Hin.
      + destruct (checkCompletions _ _); cbn [CommandRun.events].
        { intros (a & context & Hin). by apply elem_of_nil in Hin. }
        destruct (checkHelp _ _); cbn [CommandRun.events].
        { intros (a & context & Hin). by apply elem_of_nil in Hin. }
        destruct (Cli.Action c) as [a|]; cbn [CommandRun.events CommandRun.returned].
        * intros _. split; [done|]. eauto.
        * intros (a & context & Hin).
          apply elem_of_cons in Hin as [Hin|Hin]; [discriminate Hin|].
          by apply elem_of_nil in Hin.
    - intros (a & context & Hin).
      repeat (apply elem_of_cons in Hin as [Hin|Hin]; [discriminate Hin|]).
      by apply elem_of_nil in Hin.
    - intros (a & context & Hin). by apply elem_of_nil in Hin. }
  split; [exact Hcall|].
  intros e He Hc. destruct (Hcall Hc) as [Hr _]. rewrite Hr in He. discriminate He.
Qed.

Lemma action_only_on_success_witness :
  ¬ CommandRun.internal CommandRun.passThrough
  ∧ ¬ CommandRun.callsAction
        (CommandRun.Run CommandRun.sampleApp None (Cli.FOther ["help"]) (Cli.FOther ["c"])
           CommandRun.emptyFlagSetOf CommandRun.noNormalizeError
           CommandRun.neverChecked CommandRun.neverChecked CommandRun.recordSubcommand
           CommandRun.passThrough (CommandRun.contextWith ["run"; "-x"; "1"]) emptyHeap).
Proof.
  assert (Hleaf : ¬ CommandRun.internal CommandRun.passThrough).
  { intros [H|H]; [simpl in H; lia|by apply H]. }
  split; [exact Hleaf|].
  apply (proj2 (action_only_on_success CommandRun.sampleApp None (Cli.FOther ["help"])
                  (Cli.FOther ["c"]) CommandRun.emptyFlagSetOf CommandRun.noNormalizeError
                  CommandRun.neverChecked CommandRun.neverChecked
                  CommandRun.recordSubcommand CommandRun.passThrough
                  (CommandRun.contextWith ["run"; "-x"; "1"]) emptyHeap Hleaf)
           (NotDefined "x")).
  vm_compute. reflexivity.
Defined.

(** ** Vectors the reordering pass leaves as they are *)

Section ReorderFixpoints.

Import flag Reorder.

Variable set : FlagSet.

(** A paired region is taken into the flag region as it is. *)
Lemma loop_pairedRegion F : ∀ p F0 P0,
  pairedRegion set p F = true →
  loop set (ofRegions F0 P0 (negb p)) F
  = ofRegions (F0 ++ F) P0
      (negb (from_option (valueTaking set) p (last F))).
Proof.
  induction F as [|t F IH]; intros p F0 P0 HF.
  - simpl. by rewrite app_nil_r.
  - cbn [pairedRegion] in HF. cbn [loop fold_left].
    change (fold_left (step set) F) with (λ st, loop set st F). cbn beta.
    rewrite step_regions, from_option_last_cons.
    destruct (flagLike t) eqn:Ht.
    + rewrite (IH _ _ _ HF), <- app_assoc. reflexivity.
    + apply andb_true_iff in HF as [-> HF]. cbn [negb].
      change true with (negb false) at 1.
      rewrite (IH _ _ _ HF), <- app_assoc.
      by rewrite (valueTaking_nonflag set t Ht).
Qed.

(** A vector with its flags first is a fixed point. *)
Lemma reorderTokens_flags_first F P :
  pairedRegion set false F = true →
  Forall (λ t, flagLike t = false) P →
  reorderTokens set (F ++ P) = F ++ P.
Proof.
  intros HF HP. unfold reorderTokens. rewrite loop_app, init_ofRegions.
  change true with (negb false) at 1.
  rewrite (loop_pairedRegion F false [] [] HF). cbn [app].
  destruct HP as [|t P Ht HP]; [reflexivity|].
  cbn [loop fold_left].
  change (fold_left (step set) P) with (λ st, loop set st P). cbn beta.
  rewrite step_regions, Ht.
  destruct (negb _); rewrite loop_positionals by done;
    cbn [ofRegions flagArgs app]; [done|by rewrite <- app_assoc].
Qed.

End ReorderFixpoints.

(** X19: the vectors that the reordering pass returns unchanged are
    exactly those that already have their flags first: a region in
    which a non-flag token only stands directly after a registered
    value-taking flag token, followed by non-flag tokens only. *)
Theorem reorder_fixed_points (set : flag.FlagSet) (v : list string) :
  Reorder.reorderTokens set v = v
  ↔ ∃ F P, v = F ++ P
           ∧ Reorder.pairedRegion set false F = true
           ∧ Forall (λ t, Reorder.flagLike t = false) P.
Proof.
  split.
  - intros Hfix.
    exists (Reorder.flagRegion (Reorder.loop set Reorder.init v)),
           (Reorder.positionals (Reorder.loop set Reorder.init v)).
    split; [|split].
    + rewrite <- Hfix at 1. unfold Reorder.reorderTokens.
      unfold Reorder.flagRegion, Reorder.positionals. by rewrite take_drop.
    + apply loop_shape.
    + rewrite init_ofRegions. apply positionals_nonflag.
  - intros (F & P & -> & HF & HP). by apply reorderTokens_flags_first.
Qed.

(** X20: a completed [Apply] changes the flag only through a source:
    all fields but [Value] and [HasBeenSet] stay as they are,
    [HasBeenSet] is never reset, and either the flag is exactly as it
    was, or [flagFromEnvOrFile] supplied a non-empty text that parses as
    a boolean, which is then the flag's [Value], with [HasBeenSet]
    true.  So a [Value] or a [HasBeenSet] that differs afterwards comes
    from such a text, also when [HasBeenSet] was true before. *)
Theorem Apply_flag_fields (w : FlagBool.World) (f f' : FlagBool.BoolFlag)
    (set set' : flag.FlagSet) (h h' : Heap) :
  FlagBool.Apply w f set h = Done (f', set', h') →
  FlagBool.Name f' = FlagBool.Name f
  ∧ FlagBool.Aliases f' = FlagBool.Aliases f
  ∧ FlagBool.Usage f' = FlagBool.Usage f
  ∧ FlagBool.EnvVars f' = FlagBool.EnvVars f
  ∧ FlagBool.FilePath f' = FlagBool.FilePath f
  ∧ FlagBool.Required f' = FlagBool.Required f
  ∧ FlagBool.Hidden f' = FlagBool.Hidden f
  ∧ FlagBool.DefaultText f' = FlagBool.DefaultText f
  ∧ FlagBool.Destination f' = FlagBool.Destination f
  ∧ FlagBool.Count f' = FlagBool.Count f
  ∧ (FlagBool.HasBeenSet f = true → FlagBool.HasBeenSet f' = true)
  ∧ (f' = f
     ∨ ∃ val, FlagBool.flagFromEnvOrFile w (FlagBool.EnvVars f) (FlagBool.FilePath f)
              = (val, true)
              ∧ val ≠ "" ∧ Go.ParseBool val = Some (FlagBool.Value f')
              ∧ FlagBool.HasBeenSet f' = true)
  ∧ (FlagBool.Value f' ≠ FlagBool.Value f ∨ FlagBool.HasBeenSet f' ≠ FlagBool.HasBeenSet f →
     ∃ val, FlagBool.flagFromEnvOrFile w (FlagBool.EnvVars f) (FlagBool.FilePath f)
            = (val, true)
            ∧ val ≠ "" ∧ Go.ParseBool val = Some (FlagBool.Value f')
            ∧ FlagBool.HasBeenSet f' = true)
  ∧ (∀ val, FlagBool.flagFromEnvOrFile w (FlagBool.EnvVars f) (FlagBool.FilePath f)
            = (val, true) →
            val ≠ "" →
            Go.ParseBool val = Some (FlagBool.Value f') ∧ FlagBool.HasBeenSet f' = true).
Proof.
  unfold FlagBool.Apply.
  destruct (FlagBool.flagFromEnvOrFile w (FlagBool.EnvVars f) (FlagBool.FilePath f))
    as [val [|]] eqn:E.
  - destruct (decide (val = "")) as [->|Hval].
    + destruct (FlagBool.registerNames f _ set h) as [[set1 h1]| |]; [|done|done].
      intros [= <- <- <-]. split_and!; try done.
      * by left.
      * by intros [?|?].
      * by intros ? [= <-].
    + destruct (Go.ParseBool val) as [b|] eqn:Eb; [|done].
      destruct (FlagBool.registerNames _ _ set h) as [[set1 h1]| |]; [|done|done].
      intros [= <- <- <-]. split_and!; try done.
      * right. exists val. done.
      * intros _. exists val. done.
      * by intros ? [= <-] _.
  - destruct (FlagBool.registerNames f _ set h) as [[set1 h1]| |]; [|done|done].
    intros [= <- <- <-]. split_and!; try done.
    + by left.
    + by intros [?|?].
Qed.

Lemma Apply_flag_fields_witness :
  ∃ f' set' h',
    FlagBool.Apply FlagBool.sampleWorld FlagBool.sampleFlag flag.NewFlagSet emptyHeap
    = Done (f', set', h')
    ∧ FlagBool.Name f' = "verbose"
    ∧ FlagBool.Value f' = true
    ∧ FlagBool.HasBeenSet f' = true.
Proof.
  destruct (FlagBool.Apply FlagBool.sampleWorld FlagBool.sampleFlag flag.NewFlagSet
              emptyHeap) as [[[f' set'] h']| |] eqn:E;
    [|vm_compute in E; discriminate E|vm_compute in E; discriminate E].
  exists f', set', h'. split; [reflexivity|].
  destruct (Apply_flag_fields _ _ _ _ _ _ _ E)
    as (Hname & _ & _ & _ & _ & _ & _ & _ & _ & _ & _ & _ & _ & Hsrc).
  split; [exact Hname|].
  destruct (Hsrc "true") as [Hv Hs]; [vm_compute; reflexivity|discriminate|].
  split; [|exact Hs]. by injection Hv.
Defined.

(** ** The values the parser stores after the reordering pass *)

Section ParseValues.

Import flag.

Lemma dash_inj m n : "-" +:+ m = "-" +:+ n → m = n.
Proof. intros H. cbn in H. by injection H. Qed.

(** What a value-taking flag has been given when the parse of the flag
    items has succeeded. *)
Lemma parse_flagItems_values set v n f T :
  Reorder.Interleaved set v →
  Lookup set n = Some f →
  Reorder.notBool f = true →
  ∀ fm h P fm' h' P' st,
    (∀ m, Reorder.typeAt fm m = Reorder.typeAt (formal set) m) →
    fm !! n = Some (mkFlag (Name f) (Usage f) (VOther T st) (DefValue f)) →
    Forall (λ t, Reorder.flagLike t = false) P →
    FlagPkg.parseArgs fm h (Reorder.flagItems set v ++ P) = Done (mkFlagSet fm' P', h') →
    ∃ st', Reorder.setEach T (Reorder.valuesOf set n v) st = Done st'
           ∧ fm' !! n = Some (mkFlag (Name f) (Usage f) (VOther T st') (DefValue f)).
Proof.
  intros Hv Hn Hnb.
  induction Hv as [|t v Ht _ IH|m g v Hm Hg Hb _ IH|m g t v Hm Hg Hb Ht _ IH];
    intros fm h P fm' h' P' st Hk Hst HP HD.
  - simpl in HD. rewrite (parseArgs_nonflag _ _ _ HP) in HD.
    injection HD as <- _ _. exists st. done.
  - cbn [Reorder.flagItems Reorder.valuesOf] in *.
    rewrite (valueTaking_nonflag set t Ht) in *. rewrite Ht in HD.
    by eapply IH.
  - cbn [Reorder.flagItems Reorder.valuesOf] in *.
    rewrite (valueTaking_dash set m g Hm Hg), Hb in *. rewrite flagLike_dash in HD.
    cbn [app] in HD. rewrite (parseArgs_flag_cons _ _ _ _ Hm) in HD.
    destruct (typeAt_lookup set fm m g Hk Hg) as (fl & Hfl & Hty).
    rewrite Hfl, (typeOf_IsBoolFlag _ _ Hty) in HD.
    assert (Hbool : FlagPkg.IsBoolFlag (FValue g) = Some true).
    { unfold Reorder.notBool in Hb.
      by destruct (FlagPkg.IsBoolFlag (FValue g)) as [[|]|]. }
    rewrite Hbool in HD.
    destruct (FlagPkg.Set_ (FValue fl) "true" h) as [[val' h1]| |] eqn:HSet;
      [|done|done].
    assert (Hmn : m ≠ n).
    { intros ->. rewrite Hg in Hn. injection Hn as ->.
      rewrite Hb in Hnb. discriminate Hnb. }
    eapply IH; [| |done|exact HD].
    + intros k. rewrite typeAt_update; [apply Hk|done|by eapply Set_typeOf].
    + by rewrite lookup_insert_ne.
  - cbn [Reorder.flagItems Reorder.valuesOf] in *.
    rewrite (valueTaking_dash set m g Hm Hg), Hb in *.
    cbn [app] in HD. rewrite (parseArgs_flag_cons _ _ _ _ Hm) in HD.
    destruct (typeAt_lookup set fm m g Hk Hg) as (fl & Hfl & Hty).
    rewrite Hfl, (typeOf_IsBoolFlag _ _ Hty) in HD.
    assert (HD' : match FlagPkg.Set_ (FValue fl) t h with
                  | Done (val', h1) =>
                      FlagPkg.parseArgs
                        (<[m := mkFlag (Name fl) (Usage fl) val' (DefValue fl)]> fm) h1
                        (Reorder.flagItems set v ++ P)
                  | Failed _ => Failed (InvalidValue t m)
                  | Panicked msg => Panicked msg
                  end = Done (mkFlagSet fm' P', h')).
    { unfold Reorder.notBool in Hb.
      by destruct (FlagPkg.IsBoolFlag (FValue g)) as [[|]|]. }
    clear HD.
    destruct (FlagPkg.Set_ (FValue fl) t h) as [[val' h1]| |] eqn:HSet;
      [|done|done].
    pose proof (Set_typeOf _ _ _ _ _ HSet) as Hty'.
    destruct (decide (m = n)) as [->|Hmn].
    + rewrite decide_True by done. rewrite Hst in Hfl. injection Hfl as <-.
      cbn [FValue FlagPkg.Set_] in HSet. cbn [Reorder.setEach].
      destruct (setMethod T t st) as [st1| |]; [|done|done].
      injection HSet as <- <-.
      eapply IH; [| |done|exact HD'].
      * intros k. rewrite typeAt_update; [apply Hk|done|done].
      * by rewrite lookup_insert_eq.
    + rewrite decide_False by (intros E; by apply dash_inj in E).
      eapply IH; [| |done|exact HD'].
      * intros k. rewrite typeAt_update; [apply Hk|done|done].
      * by rewrite lookup_insert_ne.
Qed.

Lemma default_last_cons {A} (l : list A) : ∀ a s,
  default a (last (s :: l)) = default s (last l).
Proof.
  induction l as [|s0 l IH]; intros a s; [reflexivity|].
  change (last (s :: s0 :: l)) with (last (s0 :: l)).
  by rewrite (IH a s0), (IH s s0).
Qed.

(** On a [stringValue] every [Set] succeeds, and the last one stays. *)
Lemma setEach_stringValue texts : ∀ text,
  Reorder.setEach stringValue texts text = Done (default text (last texts)).
Proof.
  induction texts as [|s texts IH]; intros text; [reflexivity|].
  cbn [Reorder.setEach stringValue setMethod]. rewrite IH.
  by rewrite default_last_cons.
Qed.

End ParseValues.

(** X21: after the reordering pass and a successful parse of an
    interleaved command line, every registered value-taking flag has
    been [Set], in order, with exactly the tokens that directly
    followed its occurrences on the command line, wherever they stood
    among the positional tokens, and is otherwise as it was registered
    (it keeps its state when it does not occur).  For a flag of the
    [flag] package's string type, that leaves the token that followed
    its last occurrence. *)
Theorem reorder_then_parse_values (set set' : flag.FlagSet) (h h' : Heap)
    (v : list string) (n : string) (f : flag.Flag)
    (T : flag.valueType) (st : flag.state T) :
  Reorder.Interleaved set v →
  flag.Lookup set n = Some f →
  flag.FValue f = flag.VOther T st →
  Reorder.notBool f = true →
  FlagPkg.Parse set h (Reorder.reorderTokens set v) = Done (set', h') →
  (∃ st', Reorder.setEach T (Reorder.valuesOf set n v) st = Done st'
          ∧ flag.Lookup set' n
            = Some (flag.mkFlag (flag.Name f) (flag.Usage f) (flag.VOther T st')
                      (flag.DefValue f)))
  ∧ ∀ texts text,
      Reorder.setEach flag.stringValue texts text = Done (default text (last texts)).
Proof.
  intros Hv Hn Hval Hnb HP. split; [|intros texts text; apply setEach_stringValue].
  assert (E : Reorder.reorderTokens set v
              = Reorder.flagItems set v ++ Reorder.plainArgs set v).
  { unfold Reorder.reorderTokens. rewrite init_ofRegions.
    rewrite (loop_Interleaved set v Hv [] []). reflexivity. }
  unfold FlagPkg.Parse in HP. rewrite E in HP. destruct set' as [fm' P'].
  eapply (parse_flagItems_values set v n f T Hv Hn Hnb); [done| | |exact HP].
  - unfold flag.Lookup in Hn. rewrite Hn, <- Hval. by destruct f.
  - by apply plainArgs_nonflag.
Qed.

Lemma reorder_then_parse_values_witness :
  ∃ set' h',
    FlagPkg.Parse Reorder.sampleSet emptyHeap
      (Reorder.reorderTokens Reorder.sampleSet
         ["a"; "-" +:+ "x"; "1"; "b"; "-" +:+ "x"; "2"])
    = Done (set', h')
    ∧ flag.Lookup set' "x" = Some (flag.mkFlag "x" "" (flag.VOther flag.stringValue "2") "").
Proof.
  destruct (FlagPkg.Parse Reorder.sampleSet emptyHeap
              (Reorder.reorderTokens Reorder.sampleSet
                 ["a"; "-" +:+ "x"; "1"; "b"; "-" +:+ "x"; "2"]))
    as [[set' h']| |] eqn:E;
    [|vm_compute in E; discriminate E|vm_compute in E; discriminate E].
  exists set', h'. split; [reflexivity|].
  assert (Hx : FlagPkg.goodName "x") by (repeat split; done).
  destruct (reorder_then_parse_values Reorder.sampleSet set' emptyHeap h'
              ["a"; "-" +:+ "x"; "1"; "b"; "-" +:+ "x"; "2"] "x"
              (flag.mkFlag "x" "" (flag.VOther flag.stringValue "") "")
              flag.stringValue "") as [(st' & Hst' & Hl) _].
  - apply Reorder.Interleaved_positional; [reflexivity|].
    eapply Reorder.Interleaved_value; [exact Hx|reflexivity|reflexivity|reflexivity|].
    apply Reorder.Interleaved_positional; [reflexivity|].
    eapply Reorder.Interleaved_value; [exact Hx|reflexivity|reflexivity|reflexivity|].
    apply Reorder.Interleaved_nil.
  - reflexivity.
  - reflexivity.
  - reflexivity.
  - exact E.
  - vm_compute in Hst'. injection Hst' as <-. exact Hl.
Defined.
